(** * miniscan: the in-WebView document scanner engine

    A shallow embedding of the JavaScript engine generated by
    [getScannerHtml] (homography solver, perspective warp, enhancement
    filters, quad validation, the four-strategy detection cascade and the
    message handler), with the properties its specification states.

    JavaScript numbers are IEEE-754 binary64 values.  Every numeric function
    is written once, over an interface [Number] of the operations the engine
    uses, and read at three instances:

    - [Binary64]: Rocq's primitive floats, which are binary64 with
      round-to-nearest-even, the arithmetic the engine really runs;
    - [Real]: the real numbers, the exact arithmetic in which the geometric
      and algebraic laws of the specification are meant;
    - [Rational]: the rationals, on which the linear algebra can be run and
      whose runs are runs over the reals.

    Properties that only depend on control flow are proved for every
    instance; algebraic laws are proved at [Real]; concrete runs are
    evaluated at [Binary64], and at [Rational] for exact arithmetic. *)

From Stdlib Require Import String.
From Stdlib Require Import ZArith List Lia Bool Permutation Sorted.
From Stdlib Require Import Reals Lra Psatz.
From Stdlib Require Import Floats.
From Stdlib Require QArith Qabs Qround Qreals Qreduction.
Import ListNotations.

Set Implicit Arguments.

(** ** The number interface *)

Class Number : Type := {
  num : Type;
  ofZ : Z -> num;
  add : num -> num -> num;
  sub : num -> num -> num;
  mul : num -> num -> num;
  div : num -> num -> num;
  neg : num -> num;
  abs : num -> num;            (* Math.abs *)
  sqrt : num -> num;           (* Math.sqrt *)
  floor : num -> num;          (* Math.floor *)
  round : num -> num;          (* Math.round: nearest, ties towards +oo *)
  maxn : num -> num -> num;    (* Math.max *)
  minn : num -> num -> num;    (* Math.min *)
  lt : num -> num -> bool;     (* a < b *)
  le : num -> num -> bool;     (* a <= b *)
  eqn : num -> num -> bool;    (* a === b *)
  toZ : num -> Z;              (* the integer an integral number denotes *)
  acos : num -> num;           (* Math.acos *)
  cos : num -> num;            (* Math.cos *)
  sin : num -> num;            (* Math.sin *)
  pow : num -> num -> num;     (* Math.pow *)
  pi : num;                    (* Math.PI *)
  clamp8 : num -> num          (* the store conversion of Uint8ClampedArray *)
}.

Declare Scope js_scope.
Delimit Scope js_scope with js.
Infix "+" := add : js_scope.
Infix "-" := sub : js_scope.
Infix "*" := mul : js_scope.
Infix "/" := div : js_scope.
Notation "- x" := (neg x) : js_scope.
Infix "<?" := lt : js_scope.
Infix "<=?" := le : js_scope.
Infix "=?" := eqn : js_scope.

Section NumberDerived.
Context {N : Number}.
Local Open Scope js_scope.

(** [a > b] and [a >= b] read the comparison the other way round. *)
Definition gt (a b : num) : bool := b <? a.
Definition ge (a b : num) : bool := b <=? a.

Definition ofNat (n : nat) : num := ofZ (Z.of_nat n).

(** A decimal literal [p/q] with [p] and [q] integers below [2^53]: its
    binary64 value is the correctly rounded quotient. *)
Definition ratio (p q : Z) : num := ofZ p / ofZ q.

Definition toNat (x : num) : nat := Z.to_nat (toZ x).
End NumberDerived.

Infix ">?" := gt (at level 70) : js_scope.
Infix ">=?" := ge (at level 70) : js_scope.

(** ** The instance of real numbers *)

Module RealOps.
Local Open Scope R_scope.

Definition ltb (x y : R) : bool := if Rlt_dec x y then true else false.
Definition leb (x y : R) : bool := if Rle_dec x y then true else false.
Definition eqb (x y : R) : bool := if Req_dec_T x y then true else false.

Definition rfloor (x : R) : R := IZR (Int_part x).
Definition rround (x : R) : R := IZR (Int_part (x + 1 / 2)).

(** [Math.pow] on the non-negative bases the engine passes to it. *)
Definition rpow (x y : R) : R :=
  if Req_dec_T x 0 then (if Req_dec_T y 0 then 1 else 0) else Rpower x y.

(** Clamp to [0,255], then round to nearest with ties to even. *)
Definition rclamp8 (x : R) : R :=
  if Rle_dec x 0 then 0
  else if Rle_dec 255 x then 255
  else
    let f := Int_part x in
    let d := x - IZR f in
    if Rlt_dec d (1 / 2) then IZR f
    else if Rlt_dec (1 / 2) d then IZR (f + 1)
    else if Z.even f then IZR f else IZR (f + 1).
End RealOps.

#[export] Instance Real : Number := {|
  num := R;
  ofZ := IZR;
  add := Rplus;
  sub := Rminus;
  mul := Rmult;
  div := Rdiv;
  neg := Ropp;
  abs := Rabs;
  sqrt := R_sqrt.sqrt;
  floor := RealOps.rfloor;
  round := RealOps.rround;
  maxn := Rmax;
  minn := Rmin;
  lt := RealOps.ltb;
  le := RealOps.leb;
  eqn := RealOps.eqb;
  toZ := Int_part;
  acos := Ratan.acos;
  cos := Rtrigo_def.cos;
  sin := Rtrigo_def.sin;
  pow := RealOps.rpow;
  pi := PI;
  clamp8 := RealOps.rclamp8
|}.

(** ** The instance of binary64 numbers *)

(** [Math.acos], [Math.cos], [Math.sin] and [Math.pow] are left to the
    platform by ECMAScript ("implementation-approximated"); the instance takes
    them as the platform's library. *)
Record Libm : Type := {
  libm_acos : float -> float;
  libm_cos : float -> float;
  libm_sin : float -> float;
  libm_pow : float -> float -> float
}.

Module FloatOps64.
Local Open Scope float_scope.

Definition two52 : float := 4503599627370496.

Definition ofZ64 (z : Z) : float :=
  match z with
  | Z0 => 0
  | Zpos _ => PrimFloat.of_uint63 (Uint63.of_Z z)
  | Zneg p => - PrimFloat.of_uint63 (Uint63.of_Z (Zpos p))
  end.

(** The largest integral value not above [x]; NaN, infinities and
    magnitudes from [2^52] on (already integral) are returned as they are. *)
Definition ffloor (x : float) : float :=
  if PrimFloat.is_nan x || PrimFloat.is_infinity x then x
  else
    let a := PrimFloat.abs x in
    if two52 <=? a then x
    else
      let t := (a + two52) - two52 in
      let fl := if a <? t then t - 1 else t in     (* floor of |x| *)
      if 0 <=? x then fl
      else if fl =? a then - fl else - (fl + 1).

(** Nearest integer, ties towards +oo. *)
Definition fround (x : float) : float :=
  let f := ffloor x in
  if PrimFloat.is_nan x || PrimFloat.is_infinity x then x
  else if 0.5 <=? x - f then f + 1 else f.

Definition fmax (a b : float) : float :=
  if PrimFloat.is_nan a then a
  else if PrimFloat.is_nan b then b
  else if a <? b then b else a.

Definition fmin (a b : float) : float :=
  if PrimFloat.is_nan a then a
  else if PrimFloat.is_nan b then b
  else if b <? a then b else a.

(** The integer denoted by a finite integral float (0 otherwise). *)
Definition ftoZ (x : float) : Z :=
  match Prim2SF (ffloor x) with
  | S754_finite s m e =>
      let v := Z.shiftl (Zpos m) e in if s then Z.opp v else v
  | _ => 0%Z
  end.

Definition fclamp8 (x : float) : float :=
  if PrimFloat.is_nan x then 0
  else if x <=? 0 then 0
  else if 255 <=? x then 255
  else
    let f := ffloor x in
    let d := x - f in
    if d <? 0.5 then f
    else if 0.5 <? d then f + 1
    else if Z.even (ftoZ f) then f else f + 1.
End FloatOps64.

Definition Binary64 (m : Libm) : Number := {|
  num := float;
  ofZ := FloatOps64.ofZ64;
  add := PrimFloat.add;
  sub := PrimFloat.sub;
  mul := PrimFloat.mul;
  div := PrimFloat.div;
  neg := PrimFloat.opp;
  abs := PrimFloat.abs;
  sqrt := PrimFloat.sqrt;
  floor := FloatOps64.ffloor;
  round := FloatOps64.fround;
  maxn := FloatOps64.fmax;
  minn := FloatOps64.fmin;
  lt := PrimFloat.ltb;
  le := PrimFloat.leb;
  eqn := PrimFloat.eqb;
  toZ := FloatOps64.ftoZ;
  acos := libm_acos m;
  cos := libm_cos m;
  sin := libm_sin m;
  pow := libm_pow m;
  pi := 0x1.921fb54442d18p+1%float;
  clamp8 := FloatOps64.fclamp8
|}.

(** ** The instance of rational numbers *)

(** Sums, differences, products and quotients are exact and kept in lowest
    terms.  The operations that leave the rationals are taken as a library
    of approximations, as [Math.acos] and the like are for binary64. *)
Record Approx : Type := {
  approx_sqrt : QArith_base.Q -> QArith_base.Q;
  approx_acos : QArith_base.Q -> QArith_base.Q;
  approx_cos : QArith_base.Q -> QArith_base.Q;
  approx_sin : QArith_base.Q -> QArith_base.Q;
  approx_pow : QArith_base.Q -> QArith_base.Q -> QArith_base.Q;
  approx_pi : QArith_base.Q
}.

Module RationalOps.
Definition Q : Type := QArith_base.Q.
Definition ofZ (z : Z) : Q := QArith_base.inject_Z z.
Definition half : Q := QArith_base.Qmake 1 2.

Definition ltb (x y : Q) : bool :=
  if QArith_base.Qlt_le_dec x y then true else false.
Definition leb (x y : Q) : bool := QArith_base.Qle_bool x y.
Definition qfloor (x : Q) : Q := ofZ (Qround.Qfloor x).
Definition qround (x : Q) : Q := ofZ (Qround.Qfloor (QArith_base.Qplus x half)).
Definition qmax (x y : Q) : Q := if leb x y then y else x.
Definition qmin (x y : Q) : Q := if leb x y then x else y.

(** Clamp to [0,255], then round to nearest with ties to even. *)
Definition qclamp8 (x : Q) : Q :=
  if leb x (ofZ 0) then ofZ 0
  else if leb (ofZ 255) x then ofZ 255
  else
    let f := Qround.Qfloor x in
    let d := QArith_base.Qminus x (ofZ f) in
    if ltb d half then ofZ f
    else if ltb half d then ofZ (f + 1)
    else if Z.even f then ofZ f else ofZ (f + 1).
End RationalOps.

Definition Rational (m : Approx) : Number := {|
  num := QArith_base.Q;
  ofZ := QArith_base.inject_Z;
  add := fun x y => Qreduction.Qred (QArith_base.Qplus x y);
  sub := fun x y => Qreduction.Qred (QArith_base.Qminus x y);
  mul := fun x y => Qreduction.Qred (QArith_base.Qmult x y);
  div := fun x y => Qreduction.Qred (QArith_base.Qdiv x y);
  neg := QArith_base.Qopp;
  abs := Qabs.Qabs;
  sqrt := approx_sqrt m;
  floor := RationalOps.qfloor;
  round := RationalOps.qround;
  maxn := RationalOps.qmax;
  minn := RationalOps.qmin;
  lt := RationalOps.ltb;
  le := QArith_base.Qle_bool;
  eqn := QArith_base.Qeq_bool;
  toZ := Qround.Qfloor;
  acos := approx_acos m;
  cos := approx_cos m;
  sin := approx_sin m;
  pow := approx_pow m;
  pi := approx_pi m;
  clamp8 := RationalOps.qclamp8
|}.

(** ** Arrays *)

Section Arrays.
Context {A : Type}.

(** [l[i] = v] on an array of fixed length: a store out of range is
    ignored, as typed arrays do. *)
Fixpoint upd (i : nat) (v : A) (l : list A) : list A :=
  match l, i with
  | [], _ => []
  | _ :: t, O => v :: t
  | x :: t, S i' => x :: upd i' v t
  end.

(** [l.slice(b, e)] *)
Definition slice (b e : nat) (l : list A) : list A :=
  firstn (e - b) (skipn b l).
End Arrays.

(** ** [Array.prototype.sort] with a comparator

    ECMAScript requires the sort to be stable; [cmp a b < 0] puts [a] before
    [b], any other answer (positive, zero or NaN) leaves an element behind the
    ones already placed.  A stable insertion sort is the model. *)

Section Sort.
Context {N : Number} {A : Type}.
Variable cmp : A -> A -> num.
Local Open Scope js_scope.

Fixpoint insertSorted (x : A) (l : list A) : list A :=
  match l with
  | [] => [x]
  | y :: t => if cmp x y <? ofZ 0 then x :: y :: t else y :: insertSorted x t
  end.

Definition jsSort (l : list A) : list A :=
  fold_left (fun acc x => insertSorted x acc) l [].
End Sort.

(** ** Quad geometry *)

Section Geometry.
Context {N : Number}.
Local Open Scope js_scope.

(** A point is the two-element array [[x, y]]. *)
Definition Pt : Type := (num * num)%type.

Definition px (p : Pt) : num := fst p.     (* p[0] *)
Definition py (p : Pt) : num := snd p.     (* p[1] *)

Definition origin : Pt := (ofZ 0, ofZ 0).

(** [pts[i]]; every read of the engine is in range. *)
Definition pt (pts : list Pt) (i : nat) : Pt := nth i pts origin.

(** Points with integer coordinates *)
Definition zPoints (l : list (Z * Z)) : list Pt :=
  map (fun p => (ofZ (fst p), ofZ (snd p))) l.

Definition dist (p1 p2 : Pt) : num :=
  sqrt ((px p1 - px p2) * (px p1 - px p2) + (py p1 - py p2) * (py p1 - py p2)).

Definition contourArea (pts : list Pt) : num :=
  let n := length pts in
  let area :=
    fold_left
      (fun area i =>
         let j := ((i + 1) mod n)%nat in
         let area := area + px (pt pts i) * py (pt pts j) in
         area - px (pt pts j) * py (pt pts i))
      (seq 0 n) (ofZ 0) in
  abs area / ofZ 2.

(** The cross product of the edges [a -> b] and [b -> c]. *)
Definition crossAt (a b c : Pt) : num :=
  (px b - px a) * (py c - py b) - (py b - py a) * (px c - px b).

(** The loop of [isConvex]: the state is the sign seen so far (0 for none),
    [None] once the function has returned [false]. *)
Definition isConvexStep (pts : list Pt) (st : option Z) (i : nat) : option Z :=
  match st with
  | None => None
  | Some sign =>
      let n := length pts in
      let cross :=
        crossAt (pt pts i) (pt pts ((i + 1) mod n)) (pt pts ((i + 2) mod n)) in
      if abs cross <? ratio 1 1000000 then Some sign
      else
        let s := if cross >? ofZ 0 then 1%Z else (-1)%Z in
        if Z.eqb sign 0 then Some s
        else if negb (Z.eqb s sign) then None
        else Some sign
  end.

Definition isConvex (pts : list Pt) : bool :=
  let n := length pts in
  if (n <? 3)%nat then false
  else
    match fold_left (isConvexStep pts) (seq 0 n) (Some 0%Z) with
    | None => false
    | Some sign => negb (Z.eqb sign 0)
    end.

Definition orderCorners (pts : list Pt) : list Pt :=
  let sorted := jsSort (fun a b => py a - py b) pts in
  let top := jsSort (fun a b => px a - px b) (slice 0 2 sorted) in
  let bot := jsSort (fun a b => px a - px b) (slice 2 4 sorted) in
  [pt top 0; pt top 1; pt bot 1; pt bot 0].      (* tl, tr, br, bl *)

(** The body of the vertex loop of [validateQuad] at the vertex [b] with
    neighbours [a] and [c]: [false] is the early [return false]. *)
Definition cornerOk (a b c : Pt) (minEdge : num) : bool :=
  let v1x := px a - px b in
  let v1y := py a - py b in
  let v2x := px c - px b in
  let v2y := py c - py b in
  let len1 := sqrt (v1x * v1x + v1y * v1y) in
  let len2 := sqrt (v2x * v2x + v2y * v2y) in
  if (len1 <? minEdge) || (len2 <? minEdge) then false
  else
    let dot := v1x * v2x + v1y * v2y in
    let cosAngle := dot / (len1 * len2) in
    let cosAngle := maxn (- ofZ 1) (minn (ofZ 1) cosAngle) in
    let angle := acos cosAngle * ofZ 180 / pi in
    if (angle <? ofZ 30) || (angle >? ofZ 150) then false else true.

(** The neighbours of vertex [i] are [pts[(i - 1 + n) % n]] and
    [pts[(i + 1) % n]]; the first index is computed as [(i + n - 1) mod n],
    the same number without leaving the naturals. *)
Definition vertexOk (pts : list Pt) (minEdge : num) (i : nat) : bool :=
  let n := length pts in
  cornerOk (pt pts ((i + n - 1) mod n)) (pt pts i) (pt pts ((i + 1) mod n))
    minEdge.

Definition validateQuad (pts : list Pt) (w h : num) : bool :=
  if negb (isConvex pts) then false
  else if contourArea pts <? ratio 1 10 * w * h then false
  else
    let n := length pts in
    let minEdge := minn w h * ratio 1 10 in
    forallb (vertexOk pts minEdge) (seq 0 n).
End Geometry.

(** ** Detection results *)

Section Detection.
Context {N : Number}.
Local Open Scope js_scope.

(** [{x, y}], normalised to the unit square. *)
Record Point2D : Type := { p_x : num; p_y : num }.

(** [{tl, tr, br, bl}] *)
Record Quad : Type := { tl : Point2D; tr : Point2D; br : Point2D; bl : Point2D }.

(** [Math.max(0, Math.min(1, v / size))] *)
Definition unitClamp (v size : num) : num :=
  maxn (ofZ 0) (minn (ofZ 1) (v / size)).

(** The object every strategy returns from its four pixel-space corners
    [c0 .. c3]: each coordinate divided by the image size and clamped to
    [0, 1].  The engine writes this literal out in each strategy. *)
Definition normalizeQuad (c0 c1 c2 c3 : Pt) (w h : num) : Quad :=
  {| tl := {| p_x := unitClamp (px c0) w; p_y := unitClamp (py c0) h |};
     tr := {| p_x := unitClamp (px c1) w; p_y := unitClamp (py c1) h |};
     br := {| p_x := unitClamp (px c2) w; p_y := unitClamp (py c2) h |};
     bl := {| p_x := unitClamp (px c3) w; p_y := unitClamp (py c3) h |} |}.

Definition normalizeOrdered (ordered : list Pt) (w h : num) : Quad :=
  normalizeQuad (pt ordered 0) (pt ordered 1) (pt ordered 2) (pt ordered 3) w h.

(** *** Gradient-direction RANSAC: from the four intersections on *)

(** What the image analysis of [gradientRansacDetection] hands to its last
    stage.  The analysis itself (blur, Sobel, non-maximum suppression, direction
    histogram, randomised line fitting) is not modelled: its outcome is an
    input.  [ransacEnough]: at least 50 suppressed-gradient pixels.
    [ransacCorners ti]: the intersections [corners] of the pass at threshold
    index [ti] with [allOk] true, or [None] when the pass hit a [continue]
    before them. *)
Record RansacFront : Type := {
  ransacEnough : bool;
  ransacCorners : nat -> option (list Pt)
}.

(** One pass, from [if (!allOk || corners.length !== 4) continue] on. *)
Definition ransacPass (corners : list Pt) (w h : num) : option Quad :=
  if negb (length corners =? 4)%nat then None
  else
    let margin := maxn w h * ratio 15 100 in
    let outside (c : Pt) :=
      (px c <? - margin) || (px c >? w + margin) ||
      (py c <? - margin) || (py c >? h + margin) in
    if existsb outside corners then None
    else
      let ordered := orderCorners corners in
      if negb (validateQuad ordered w h) then None
      else Some (normalizeOrdered ordered w h).

Definition firstSome {A : Type} (f : nat -> option A) (ks : list nat) : option A :=
  fold_left (fun acc k => match acc with Some _ => acc | None => f k end) ks None.

Definition gradientRansacDetection (front : RansacFront) (w h : num) : option Quad :=
  if negb (ransacEnough front) then None
  else
    firstSome
      (fun ti => match ransacCorners front ti with
                 | None => None
                 | Some corners => ransacPass corners w h
                 end)
      (seq 0 3).

(** *** Brightness segmentation and edge contours: choosing among the
    simplified hulls *)

(** [bestQuad] and [bestArea] *)
Definition Best : Type := (option (list Pt) * num)%type.

Definition considerQuad (w h : num) (quad : list Pt) (best : Best) : Best :=
  if validateQuad quad w h then
    let area := contourArea quad in
    if area >? snd best then (Some quad, area) else best
  else best.

(** [approx] without its element [skip] *)
Definition dropVertex (skip : nat) (approx : list Pt) : list Pt :=
  map (pt approx) (filter (fun k => negb (k =? skip)%nat) (seq 0 5)).

Definition considerApprox (w h : num) (best : Best) (approx : list Pt) : Best :=
  if (length approx =? 4)%nat then considerQuad w h approx best
  else if (length approx =? 5)%nat then
    fold_left (fun b skip => considerQuad w h (dropVertex skip approx) b)
      (seq 0 5) best
  else best.

(** The outer loop of both strategies (polarities 0, 1; radii 2, 4, 8):
    [approxAt k] lists, in the order the engine meets them, the polygons
    [douglasPeucker] returns during round [k]; a round that leaves a [bestQuad]
    ends the loop. *)
Definition bestOverRounds (approxAt : nat -> list (list Pt)) (rounds : nat)
    (w h : num) : Best :=
  fold_left
    (fun best k =>
       match fst best with
       | Some _ => best
       | None => fold_left (considerApprox w h) (approxAt k) best
       end)
    (seq 0 rounds) (None, ofZ 0).

Definition orderedResult (best : Best) (w h : num) : option Quad :=
  match fst best with
  | None => None
  | Some bestQuad => Some (normalizeOrdered (orderCorners bestQuad) w h)
  end.

Definition segmentBasedDetection (approxAt : nat -> list (list Pt)) (w h : num)
    : option Quad :=
  orderedResult (bestOverRounds approxAt 2 w h) w h.

Definition contourBasedDetection (approxAt : nat -> list (list Pt)) (w h : num)
    : option Quad :=
  orderedResult (bestOverRounds approxAt 3 w h) w h.

(** *** Hough lines *)

(** [{rho, theta, votes}] *)
Record Line : Type := { rho : num; theta : num; votes : num }.

Definition lineIntersection (l1 l2 : Line) : option Pt :=
  let cos1 := cos (theta l1) in
  let sin1 := sin (theta l1) in
  let cos2 := cos (theta l2) in
  let sin2 := sin (theta l2) in
  let det := cos1 * sin2 - cos2 * sin1 in
  if abs det <? ratio 1 10000000000 then None
  else
    Some ((rho l1 * sin2 - rho l2 * sin1) / det,
          (rho l2 * cos1 - rho l1 * cos2) / det).

(** [v || 1]: 1 when [v] is 0 or NaN *)
Definition orOne (v : num) : num :=
  if (v =? ofZ 0) || negb (v =? v) then ofZ 1 else v.

(** The index pairs [i < j] below [n], in loop order. *)
Definition pairsBelow (n : nat) : list (nat * nat) :=
  flat_map (fun i => map (fun j => (i, j)) (seq (i + 1) (n - (i + 1)))) (seq 0 n).

Definition lineAt (ls : list Line) (i : nat) : Line :=
  nth i ls {| rho := ofZ 0; theta := ofZ 0; votes := ofZ 0 |}.

(** The two scoring loops over a family of lines; [pos] is where a line
    crosses the axis ([rho / sin theta] for horizontals, [rho / cos theta] for
    verticals). *)
Definition maxSpread (pos : Line -> num) (ls : list Line) : num :=
  fold_left
    (fun m ij =>
       let d := abs (pos (lineAt ls (fst ij)) - pos (lineAt ls (snd ij))) in
       if d >? m then d else m)
    (pairsBelow (length ls)) (ofZ 0).

Definition bestPair (pos : Line -> num) (ls : list Line) : option (Line * Line) :=
  let m := maxSpread pos ls in
  fst
    (fold_left
       (fun (st : option (Line * Line) * num) ij =>
          let li := lineAt ls (fst ij) in
          let lj := lineAt ls (snd ij) in
          let p1 := pos li in
          let p2 := pos lj in
          let spread := abs (p1 - p2) in
          let score :=
            (votes li + votes lj) * (ratio 6 10 + ratio 4 10 * spread / orOne m) in
          if score >? snd st
          then (Some (if p1 <? p2 then (li, lj) else (lj, li)), score)
          else st)
       (pairsBelow (length ls)) (None, ofZ 0)).

Definition findBestQuad (lines : list Line) (w h : num) : option Quad :=
  if (length lines <? 4)%nat then None
  else
    let deg (l : Line) := theta l * ofZ 180 / pi in
    let horizontal :=
      filter (fun l => (deg l >? ofZ 30) && (deg l <? ofZ 150)) lines in
    let vertical :=
      filter (fun l => (deg l <? ofZ 60) || (deg l >? ofZ 120)) lines in
    if (length horizontal <? 2)%nat || (length vertical <? 2)%nat then None
    else
      let horizontal := slice 0 8 horizontal in
      let vertical := slice 0 8 vertical in
      match bestPair (fun l => rho l / sin (theta l)) horizontal,
            bestPair (fun l => rho l / cos (theta l)) vertical with
      | Some (topLine, bottomLine), Some (leftLine, rightLine) =>
          match lineIntersection topLine leftLine,
                lineIntersection topLine rightLine,
                lineIntersection bottomLine rightLine,
                lineIntersection bottomLine leftLine with
          | Some ptl, Some ptr, Some pbr, Some pbl =>
              let margin := - ratio 1 10 * maxn w h in
              let limit := ratio 11 10 * maxn w h in
              let outside (c : Pt) :=
                (px c <? margin) || (px c >? limit) ||
                (py c <? margin) || (py c >? limit) in
              if existsb outside [ptl; ptr; pbr; pbl] then None
              else
                let quadArea :=
                  ratio 5 10 *
                  abs ((px ptr - px ptl) * (py pbl - py ptl)
                       - (px pbl - px ptl) * (py ptr - py ptl)
                       + (px pbr - px ptr) * (py ptl - py ptr)
                       - (px ptl - px ptr) * (py pbr - py ptr)
                       + (px pbl - px pbr) * (py ptr - py pbr)
                       - (px ptr - px pbr) * (py pbl - py pbr)
                       + (px ptl - px pbl) * (py pbr - py pbl)
                       - (px pbr - px pbl) * (py ptl - py pbl)) in
                if quadArea <? ratio 1 10 * w * h then None
                else Some (normalizeQuad ptl ptr pbr pbl w h)
          | _, _, _, _ => None
          end
      | _, _ => None
      end.
End Detection.

(** ** Homography: the linear solver, the direct linear transform, the
    inverse *)

Section Homography.
Context {N : Number}.
Local Open Scope js_scope.

(** A matrix is an array of rows. *)
Definition Matrix : Type := list (list num).

Definition entry (r : list num) (j : nat) : num := nth j r (ofZ 0).   (* r[j] *)
Definition rowAt (M : Matrix) (i : nat) : list num := nth i M [].     (* M[i] *)
Definition cell (M : Matrix) (i j : nat) : num := entry (rowAt M i) j.

(** [M[i] = A[i].slice(); M[i].push(b[i])] for [i < n] *)
Definition augmented (A : Matrix) (b : list num) : Matrix :=
  map (fun i => rowAt A i ++ [entry b i]) (seq 0 (length b)).

(** The row of largest magnitude in column [col], from row [col] down; the
    first one among equals. *)
Definition pivotRow (M : Matrix) (col n : nat) : nat :=
  fold_left
    (fun maxRow row =>
       if abs (cell M row col) >? abs (cell M maxRow col) then row else maxRow)
    (seq (col + 1) (n - (col + 1))) col.

(** [tmp = M[i]; M[i] = M[j]; M[j] = tmp] *)
Definition swapRows (M : Matrix) (i j : nat) : Matrix :=
  upd j (rowAt M i) (upd i (rowAt M j) M).

(** [f = row[col] / pivot[col]; for j = col .. n: row[j] -= f * pivot[j]] *)
Definition eliminateRow (pivot row : list num) (col n : nat) : list num :=
  let f := entry row col / entry pivot col in
  fold_left (fun r j => upd j (entry r j - f * entry pivot j) r)
    (seq col (n + 1 - col)) row.

Definition eliminate (M : Matrix) (col n : nat) : Matrix :=
  fold_left
    (fun M row => upd row (eliminateRow (rowAt M col) (rowAt M row) col n) M)
    (seq (col + 1) (n - (col + 1))) M.

(** One round of the elimination loop; [None] is the [return null] at a pivot
    of magnitude below [1e-10]. *)
Definition forwardStep (n : nat) (st : option Matrix) (col : nat) : option Matrix :=
  match st with
  | None => None
  | Some M =>
      let M := swapRows M col (pivotRow M col n) in
      if abs (cell M col col) <? ratio 1 10000000000 then None
      else Some (eliminate M col n)
  end.

(** [x[i] = M[i][n]; for j = i+1 .. n-1: x[i] -= M[i][j] * x[j];
    x[i] /= M[i][i]], for [i] from [n - 1] down to 0. *)
Definition backSubstitute (M : Matrix) (n : nat) : list num :=
  fold_left
    (fun x i =>
       let xi :=
         fold_left (fun acc j => acc - cell M i j * entry x j)
           (seq (i + 1) (n - (i + 1))) (cell M i n) in
       upd i (xi / cell M i i) x)
    (rev (seq 0 n)) (repeat (ofZ 0) n).

Definition solve (A : Matrix) (b : list num) : option (list num) :=
  let n := length b in
  match fold_left (forwardStep n) (seq 0 n) (Some (augmented A b)) with
  | None => None
  | Some M => Some (backSubstitute M n)
  end.

(** The two equations that the correspondence [s -> d] contributes. *)
Definition dltRows (s d : Pt) : Matrix :=
  [ [px s; py s; ofZ 1; ofZ 0; ofZ 0; ofZ 0; - px d * px s; - px d * py s];
    [ofZ 0; ofZ 0; ofZ 0; px s; py s; ofZ 1; - py d * px s; - py d * py s] ].

Definition computeHomography (srcPts dstPts : list Pt) : option (list num) :=
  let ks := seq 0 4 in
  let A := flat_map (fun i => dltRows (pt srcPts i) (pt dstPts i)) ks in
  let b := flat_map (fun i => [px (pt dstPts i); py (pt dstPts i)]) ks in
  match solve A b with
  | None => None
  | Some h =>
      Some [entry h 0; entry h 1; entry h 2; entry h 3; entry h 4;
            entry h 5; entry h 6; entry h 7; ofZ 1]
  end.

Definition det3x3 (m : list num) : num :=
  let a := entry m 0 in let b := entry m 1 in let c := entry m 2 in
  let d := entry m 3 in let e := entry m 4 in let f := entry m 5 in
  let g := entry m 6 in let h := entry m 7 in let k := entry m 8 in
  a * (e * k - f * h) - b * (d * k - f * g) + c * (d * h - e * g).

Definition invert3x3 (m : list num) : option (list num) :=
  let a := entry m 0 in let b := entry m 1 in let c := entry m 2 in
  let d := entry m 3 in let e := entry m 4 in let f := entry m 5 in
  let g := entry m 6 in let h := entry m 7 in let k := entry m 8 in
  let det := det3x3 m in
  if abs det <? ratio 1 10000000000 then None
  else
    let inv := ofZ 1 / det in
    Some [ (e * k - f * h) * inv; (c * h - b * k) * inv; (b * f - c * e) * inv;
           (f * g - d * k) * inv; (a * k - c * g) * inv; (c * d - a * f) * inv;
           (d * h - e * g) * inv; (b * g - a * h) * inv; (a * e - b * d) * inv ].

(** The source coordinate of the destination point [(dx, dy)] under the
    matrix [H_inv], as [warp] computes it. *)
Definition sourceOf (H_inv : list num) (dx dy : num) : Pt :=
  let w := entry H_inv 6 * dx + entry H_inv 7 * dy + entry H_inv 8 in
  ((entry H_inv 0 * dx + entry H_inv 1 * dy + entry H_inv 2) / w,
   (entry H_inv 3 * dx + entry H_inv 4 * dy + entry H_inv 5) / w).
End Homography.

(** ** The perspective warp *)

Section Warp.
Context {N : Number}.
Local Open Scope js_scope.

(** [data[i]] of a pixel buffer, [i] a number holding an index *)
Definition sample (data : list num) (i : num) : num := entry data (toNat i).

Definition bilinear (srcData : list num) (sw sh : num) (x y : num) : list num :=
  let x0 := floor x in
  let y0 := floor y in
  let x1 := minn (x0 + ofZ 1) (sw - ofZ 1) in
  let y1 := minn (y0 + ofZ 1) (sh - ofZ 1) in
  let x0 := maxn (ofZ 0) x0 in
  let y0 := maxn (ofZ 0) y0 in
  let fx := x - floor x in
  let fy := y - floor y in
  let idx00 := (y0 * sw + x0) * ofZ 4 in
  let idx10 := (y0 * sw + x1) * ofZ 4 in
  let idx01 := (y1 * sw + x0) * ofZ 4 in
  let idx11 := (y1 * sw + x1) * ofZ 4 in
  map
    (fun c =>
       let c := ofNat c in
       sample srcData (idx00 + c) * (ofZ 1 - fx) * (ofZ 1 - fy)
       + sample srcData (idx10 + c) * fx * (ofZ 1 - fy)
       + sample srcData (idx01 + c) * (ofZ 1 - fx) * fy
       + sample srcData (idx11 + c) * fx * fy)
    (seq 0 3).

(** [sx >= 0 && sx < sw && sy >= 0 && sy < sh] *)
Definition inSource (sw sh : num) (s : Pt) : bool :=
  (px s >=? ofZ 0) && (px s <? sw) && (py s >=? ofZ 0) && (py s <? sh).

(** The stores the loop body of [warp] performs for the destination pixel
    [(dx, dy)], in order: index and value. *)
Definition pixelWrites (srcData : list num) (sw sh : nat) (H_inv : list num)
    (dw : nat) (dy dx : nat) : list (nat * num) :=
  let s := sourceOf H_inv (ofNat dx) (ofNat dy) in
  let idx := ((dy * dw + dx) * 4)%nat in
  (if inSource (ofNat sw) (ofNat sh) s then
     let rgb := bilinear srcData (ofNat sw) (ofNat sh) (px s) (py s) in
     [(idx, entry rgb 0); ((idx + 1)%nat, entry rgb 1); ((idx + 2)%nat, entry rgb 2)]
   else [])
  ++ [((idx + 3)%nat, ofZ 255)].

(** Every store of a run of [warp], in program order. *)
Definition warpWrites (srcData : list num) (sw sh : nat) (H_inv : list num)
    (dw dh : nat) : list (nat * num) :=
  flat_map
    (fun dy => flat_map (pixelWrites srcData sw sh H_inv dw dy) (seq 0 dw))
    (seq 0 dh).

(** A store into a [Uint8ClampedArray]. *)
Definition store8 (out : list num) (wr : nat * num) : list num :=
  upd (fst wr) (clamp8 (snd wr)) out.

(** [warp]: the zero-filled buffer after all the stores. *)
Definition warp (srcData : list num) (sw sh : nat) (H_inv : list num)
    (dw dh : nat) : list num :=
  fold_left store8 (warpWrites srcData sw sh H_inv dw dh)
    (repeat (ofZ 0) (dw * dh * 4)).
End Warp.

(** ** Enhancement filters *)

Section Enhance.
Context {N : Number}.
Local Open Scope js_scope.

(** BT.601 luma of the RGBA buffer [data] *)
Definition toGray (data : list num) (w h : nat) : list num :=
  map
    (fun i =>
       ratio 299 1000 * entry data (i * 4)
       + ratio 587 1000 * entry data (i * 4 + 1)
       + ratio 114 1000 * entry data (i * 4 + 2))
    (seq 0 (w * h)).

(** The summed-area table: a zero-filled [(w+1) * (h+1)] array; row by row,
    [rowSum += gray[y*w+x];
     integral[(y+1)*(w+1)+(x+1)] = integral[y*(w+1)+(x+1)] + rowSum]. *)
Definition integralRow (gray : list num) (w : nat) (integral : list num) (y : nat)
    : list num :=
  snd
    (fold_left
       (fun (st : num * list num) x =>
          let rowSum := fst st + entry gray (y * w + x) in
          (rowSum,
           upd ((y + 1) * (w + 1) + (x + 1))
             (entry (snd st) (y * (w + 1) + (x + 1)) + rowSum) (snd st)))
       (seq 0 w) (ofZ 0, integral)).

Definition integralImage (gray : list num) (w h : nat) : list num :=
  fold_left (integralRow gray w) (seq 0 h) (repeat (ofZ 0) ((w + 1) * (h + 1))).

(** The value [adaptiveThreshold] stores at pixel [(x, y)], for a window
    half-width [half >= 0]: the window bounds are then integers within the
    picture, [Math.max(0, x - half)] is the truncated subtraction, and every
    read of the table is in range. *)
Definition thresholdAt (gray integral : list num) (w h half : nat) (C : num)
    (y x : nat) : num :=
  let x1 := (x - half)%nat in
  let y1 := (y - half)%nat in
  let x2 := Nat.min (w - 1) (x + half) in
  let y2 := Nat.min (h - 1) (y + half) in
  let area := ofNat ((x2 - x1 + 1) * (y2 - y1 + 1)) in
  let sum :=
    entry integral ((y2 + 1) * (w + 1) + (x2 + 1))
    - entry integral (y1 * (w + 1) + (x2 + 1))
    - entry integral ((y2 + 1) * (w + 1) + x1)
    + entry integral (y1 * (w + 1) + x1) in
  let mean := sum / area in
  if entry gray (y * w + x) <? mean - C then ofZ 0 else ofZ 255.

(** [adaptiveThreshold] for a block size that is not negative, which is
    what its one caller, [enhanceBW], passes (at least 15).  [half] is then
    [Math.floor(blockSize / 2) >= 0].  With a negative block size the source
    has a negative [half], an empty or inverted window and reads outside the
    table; that case is outside this definition, and what is proved below of
    the value stored for a given block size assumes [0 <= blockSize]. *)
Definition adaptiveThreshold (gray : list num) (w h : nat) (blockSize C : num)
    : list num :=
  let integral := integralImage gray w h in
  let half := toNat (floor (blockSize / ofZ 2)) in
  fold_left
    (fun out y =>
       fold_left
         (fun out x =>
            store8 out ((y * w + x)%nat, thresholdAt gray integral w h half C y x))
         (seq 0 w) out)
    (seq 0 h) (repeat (ofZ 0) (w * h)).

(** [x | 1] on the 32-bit integer of [x] *)
Definition orOneBit (x : num) : num :=
  let i := ((toZ x + 2147483648) mod 4294967296 - 2147483648)%Z in
  ofZ (Z.lor i 1).

(** [Math.max(15, Math.round(Math.min(w,h)/8)|1)], made odd *)
Definition bwBlockSize (w h : nat) : num :=
  let blockSize :=
    maxn (ofZ 15) (orOneBit (round (minn (ofNat w) (ofNat h) / ofZ 8))) in
  if Z.eqb (toZ blockSize mod 2) 0 then blockSize + ofZ 1 else blockSize.

(** [data[i*4] = data[i*4+1] = data[i*4+2] = v] *)
Definition setRGB (data : list num) (i : nat) (v : num) : list num :=
  store8 (store8 (store8 data ((i * 4 + 2)%nat, v)) ((i * 4 + 1)%nat, v))
    ((i * 4)%nat, v).

Definition enhanceBW (data : list num) (w h : nat) : list num :=
  let gray := toGray data w h in
  let bw := adaptiveThreshold gray w h (bwBlockSize w h) (ofZ 10) in
  fold_left (fun data i => setRGB data i (entry bw i)) (seq 0 (w * h)) data.

(** [sorted[Math.floor(sorted.length * q)]] *)
Definition percentile (sorted : list num) (q : num) : num :=
  entry sorted (toNat (floor (ofNat (length sorted) * q))).

(** [v < 0 ? 0 : v > 255 ? 255 : v] *)
Definition clampByte (v : num) : num :=
  if v <? ofZ 0 then ofZ 0 else if v >? ofZ 255 then ofZ 255 else v.

Definition enhanceGray (data : list num) (w h : nat) : list num :=
  let gray := toGray data w h in
  let sorted := jsSort (fun a b => a - b) gray in
  let lo := percentile sorted (ratio 1 100) in
  let hi := percentile sorted (ratio 99 100) in
  let range := orOne (hi - lo) in
  fold_left
    (fun data i =>
       let v := round ((entry gray i - lo) / range * ofZ 255) in
       setRGB data i (clampByte v))
    (seq 0 (w * h)) data.

Definition enhanceChannel (n : nat) (data : list num) (c : nat) : list num :=
  let ch := map (fun i => entry data (i * 4 + c)) (seq 0 n) in
  let sorted := jsSort (fun a b => a - b) ch in
  let lo := entry sorted (toNat (floor (ofNat n * ratio 1 100))) in
  let hi := entry sorted (toNat (floor (ofNat n * ratio 99 100))) in
  let range := orOne (hi - lo) in
  fold_left
    (fun data i =>
       let v := clampByte ((entry ch i - lo) / range * ofZ 255) in
       let v := round (pow (v / ofZ 255) (ratio 85 100) * ofZ 255) in
       store8 data ((i * 4 + c)%nat, v))
    (seq 0 n) data.

Definition enhanceColor (data : list num) (w h : nat) : list num :=
  fold_left (enhanceChannel (w * h)) (seq 0 3) data.
End Enhance.

(** ** The engine's three operations and its message handler *)

Section Engine.
Context {N : Number}.
Local Open Scope js_scope.

(** A decoded picture: its size, and the RGBA bytes the canvas yields when
    the picture is drawn at a given width and height
    ([drawImage] followed by [getImageData(0, 0, w, h).data]). *)
Record Bitmap : Type := {
  bmpWidth : nat;
  bmpHeight : nat;
  drawn : nat -> nat -> list num
}.

(** What the browser makes of a base64 payload.  [NotBase64]: [atob] throws,
    and an [Image] given the data URL fires [onerror].  [NotAnImage]: the bytes
    decode to no picture, so [createImageBitmap] rejects and an [Image] fires
    [onerror].  The string is the platform's error message. *)
Inductive Payload : Type :=
| NotBase64 (message : string)
| NotAnImage (message : string)
| Picture (bmp : Bitmap).

(** The settled state of the promise an operation returns, or the exception
    it throws before returning one. *)
Inductive Outcome (A : Type) : Type :=
| Resolved (a : A)
| Rejected (message : string)
| ThrownSync (message : string).
Arguments Resolved {A} a.
Arguments Rejected {A} message.
Arguments ThrownSync {A} message.

(** *** detect *)

Inductive Strategy : Type :=
| GradientRansac | BrightnessSegmentation | EdgeContour | HoughLine.

(** The outcome of the image analyses on one grayscale image: what each
    strategy's last stage starts from (see [RansacFront], [bestOverRounds]);
    [houghLines] is the result of the Hough transform on the Canny edges. *)
Record Analysis : Type := {
  ransacFront : RansacFront;
  segmentApprox : nat -> list (list Pt);
  contourApprox : nat -> list (list Pt);
  houghLines : list Line
}.

(** Running a strategy appends it to the log of strategies attempted. *)
Definition attempt (s : Strategy) (r : option Quad) (log : list Strategy)
    : option Quad * list Strategy :=
  (r, log ++ [s]).

(** The body of [detectDocument] from the first strategy to [resolve(quad)],
    with the log. *)
Definition cascade (an : Analysis) (w h : num) : option Quad * list Strategy :=
  let '(quad, log) :=
    attempt GradientRansac (gradientRansacDetection (ransacFront an) w h) [] in
  let '(quad, log) :=
    match quad with
    | None =>
        attempt BrightnessSegmentation
          (segmentBasedDetection (segmentApprox an) w h) log
    | Some _ => (quad, log)
    end in
  match quad with
  | None =>
      let '(quad, log) :=
        attempt EdgeContour (contourBasedDetection (contourApprox an) w h) log in
      match quad with
      | None => attempt HoughLine (findBestQuad (houghLines an) w h) log
      | Some _ => (quad, log)
      end
  | Some _ => (quad, log)
  end.

(** The size an [ow] by [oh] picture is analysed at: the longer side scaled
    down to 500. *)
Definition scaledSize (ow oh : nat) : num * num :=
  let maxSide := ofZ 500 in
  let longer := maxn (ofNat ow) (ofNat oh) in
  let scale := if longer >? maxSide then maxSide / longer else ofZ 1 in
  (round (ofNat ow * scale), round (ofNat oh * scale)).

(** [detectDocument]: the value its promise resolves to.  An [Image] that
    fails to load resolves [null]; so does an exception in the handler, which
    [getImageData] raises for a width or height of zero. *)
Definition detectDocument (analyse : list num -> nat -> nat -> Analysis)
    (payload : Payload) : option Quad :=
  match payload with
  | Picture img =>
      let '(w, h) := scaledSize (bmpWidth img) (bmpHeight img) in
      let wn := toNat w in
      let hn := toNat h in
      if (wn =? 0)%nat || (hn =? 0)%nat then None
      else
        let data := drawn img wn hn in
        let gray := toGray data wn hn in
        fst (cascade (analyse gray wn hn) w h)
  | _ => None
  end.

(** *** rectify and previewFilters *)

Inductive EnhanceMode : Type := ModeBW | ModeGray | ModeColor.

(** [mode === 'bw'], [mode === 'gray'], anything else *)
Definition enhance (mode : EnhanceMode) (data : list num) (w h : nat) : list num :=
  match mode with
  | ModeBW => enhanceBW data w h
  | ModeGray => enhanceGray data w h
  | ModeColor => enhanceColor data w h
  end.

(** [[corners.tl.x * sw, corners.tl.y * sh]] and so on: tl, tr, br, bl *)
Definition cornerPixels (corners : Quad) (sw sh : num) : list Pt :=
  map (fun p => (p_x p * sw, p_y p * sh))
    [tl corners; tr corners; br corners; bl corners].

Record Plan : Type := { planWidth : num; planHeight : num; planInverse : list num }.

(** From the four source corners to the inverse homography: the destination
    size, [computeHomography], [invert3x3], and the two [throw]s. *)
Definition rectifyPlan (srcPts : list Pt) (minSide : Z) : Outcome Plan :=
  let ptl := pt srcPts 0 in
  let ptr := pt srcPts 1 in
  let pbr := pt srcPts 2 in
  let pbl := pt srcPts 3 in
  let dw := round (maxn (dist ptl ptr) (dist pbl pbr)) in
  let dh := round (maxn (dist ptl pbl) (dist ptr pbr)) in
  let dw := maxn dw (ofZ minSide) in
  let dh := maxn dh (ofZ minSide) in
  let dstPts := [(ofZ 0, ofZ 0); (dw, ofZ 0); (dw, dh); (ofZ 0, dh)] in
  match computeHomography srcPts dstPts with
  | None => Rejected "Failed to compute homography"
  | Some H =>
      match invert3x3 H with
      | None => Rejected "Failed to invert homography"
      | Some H_inv =>
          Resolved {| planWidth := dw; planHeight := dh; planInverse := H_inv |}
      end
  end.

(** [{base64, width, height, srcWidth, srcHeight}], the picture as its pixel
    buffer rather than its PNG encoding. *)
Record Rectified : Type := {
  pixels : list num;
  width : num;
  height : num;
  srcWidth : nat;
  srcHeight : nat
}.

Definition processImage (payload : Payload) (corners : Quad) (mode : EnhanceMode)
    : Outcome Rectified :=
  match payload with
  | NotBase64 message => ThrownSync message
  | NotAnImage message => Rejected message
  | Picture bmp =>
      let sw := bmpWidth bmp in
      let sh := bmpHeight bmp in
      let srcData := drawn bmp sw sh in
      match rectifyPlan (cornerPixels corners (ofNat sw) (ofNat sh)) 100 with
      | Resolved plan =>
          let dw := toNat (planWidth plan) in
          let dh := toNat (planHeight plan) in
          let warped := warp srcData sw sh (planInverse plan) dw dh in
          Resolved
            {| pixels := enhance mode warped dw dh;
               width := planWidth plan;
               height := planHeight plan;
               srcWidth := sw;
               srcHeight := sh |}
      | Rejected message => Rejected message
      | ThrownSync message => ThrownSync message
      end
  end.

(** [getImageData] throws an [IndexSizeError] when the width or the height
    it is asked for is 0, and the promise of [previewFilters] rejects with
    that exception.  The wording of its message is the platform's; the model
    puts the name of the error in its place. *)
Definition indexSizeError : string := "IndexSizeError".

(** [{bw, gray, color}], each a pixel buffer rather than its JPEG encoding *)
Record FilterPreviews : Type := {
  previewBW : list num;
  previewGray : list num;
  previewColor : list num
}.

Definition previewFilters (payload : Payload) (corners : Quad)
    : Outcome FilterPreviews :=
  match payload with
  | NotBase64 message => ThrownSync message
  | NotAnImage message => Rejected message
  | Picture bmp =>
      let '(sw, sh) := scaledSize (bmpWidth bmp) (bmpHeight bmp) in
      let swn := toNat sw in
      let shn := toNat sh in
      if (swn =? 0)%nat || (shn =? 0)%nat then Rejected indexSizeError
      else
        let srcData := drawn bmp swn shn in
        match rectifyPlan (cornerPixels corners sw sh) 50 with
        | Resolved plan =>
            let dw := toNat (planWidth plan) in
            let dh := toNat (planHeight plan) in
            let warped := warp srcData swn shn (planInverse plan) dw dh in
            Resolved
              {| previewBW := enhance ModeBW warped dw dh;
                 previewGray := enhance ModeGray warped dw dh;
                 previewColor := enhance ModeColor warped dw dh |}
        | Rejected message => Rejected message
        | ThrownSync message => ThrownSync message
        end
  end.

(** *** The message handler *)

(** A message after [JSON.parse]; [Unparsable] is a text that [JSON.parse]
    throws on, [OtherMessage] a message of any other type. *)
Inductive Message : Type :=
| Unparsable (message : string)
| ProcessMessage (payload : Payload) (corners : Quad) (mode : EnhanceMode)
| DetectMessage (payload : Payload)
| PreviewFiltersMessage (payload : Payload) (corners : Quad)
| OtherMessage.

(** What the handler posts back. *)
Inductive Reply : Type :=
| ResultReply (result : Rectified)
| CornersReply (corners : option Quad)
| FilterPreviewsReply (previews : FilterPreviews)
| ErrorReply (message : string)
| NoReply.

(** [err.message || fallback] *)
Definition messageOr (message fallback : string) : string :=
  match message with
  | EmptyString => fallback
  | _ => message
  end.

Definition invalidMessage (message : string) : Reply :=
  ErrorReply (String.append "Invalid message: " message).

Definition onMessage (analyse : list num -> nat -> nat -> Analysis)
    (msg : Message) : Reply :=
  match msg with
  | Unparsable message => invalidMessage message
  | ProcessMessage payload corners mode =>
      match processImage payload corners mode with
      | Resolved result => ResultReply result
      | Rejected message => ErrorReply (messageOr message "Processing failed")
      | ThrownSync message => invalidMessage message
      end
  | DetectMessage payload => CornersReply (detectDocument analyse payload)
  | PreviewFiltersMessage payload corners =>
      match previewFilters payload corners with
      | Resolved previews => FilterPreviewsReply previews
      | Rejected message =>
          ErrorReply (messageOr message "Preview generation failed")
      | ThrownSync message => invalidMessage message
      end
  | OtherMessage => NoReply
  end.
End Engine.

(** ** Lines fitted by [ransacLine] *)

Section FittedLines.
Context {N : Number}.
Local Open Scope js_scope.

(** [{a, b, c, count, score, inlierMask, cx, cy}]: the line
    [a x + b y + c = 0], the number of its inliers, its score, the mask of
    the inliers (a [Uint8Array] of 0 and 1) and their centroid. *)
Record FittedLine : Type := {
  l_a : num; l_b : num; l_c : num;
  l_count : num; l_score : num;
  l_inlierMask : list Z;
  l_cx : num; l_cy : num
}.

Definition intersectLineEq (l1 l2 : FittedLine) : option Pt :=
  let det := l_a l1 * l_b l2 - l_a l2 * l_b l1 in
  if abs det <? ratio 1 10000000000 then None
  else
    Some ((l_b l1 * l_c l2 - l_b l2 * l_c l1) / det,
          (l_a l2 * l_c l1 - l_a l1 * l_c l2) / det).
End FittedLines.

(** ** Image filters of the detection front end *)

Section Filters.
Context {N : Number}.
Local Open Scope js_scope.

(** [Math.min(Math.max(v, 0), n - 1)] on integers; the loops that call it
    run only for [n >= 1], where the result is an index. *)
Definition clampIndex (v : Z) (n : nat) : nat :=
  Z.to_nat (Z.min (Z.max v 0) (Z.of_nat n - 1)).

Definition gaussKernel : list num :=
  map ofZ [ 1;  4;  7;  4; 1;
            4; 16; 26; 16; 4;
            7; 26; 41; 26; 7;
            4; 16; 26; 16; 4;
            1;  4;  7;  4; 1 ]%Z.

(** [-2 .. 2], the range of [ky] and [kx] *)
Definition kernelOffsets : list Z := [-2; -1; 0; 1; 2]%Z.

(** The value [gaussianBlur5x5] stores at pixel [(x, y)]: the weighted sum
    over the 5 by 5 window, borders replicated, divided by [kSum = 273]. *)
Definition blurAt (gray : list num) (w h : nat) (y x : nat) : num :=
  fold_left
    (fun sum ky =>
       fold_left
         (fun sum kx =>
            let py := clampIndex (Z.of_nat y + ky) h in
            let px := clampIndex (Z.of_nat x + kx) w in
            sum + entry gray (py * w + px)
                  * entry gaussKernel (Z.to_nat ((ky + 2) * 5 + (kx + 2))))
         kernelOffsets sum)
    kernelOffsets (ofZ 0)
  / ofZ 273.

Definition gaussianBlur5x5 (gray : list num) (w h : nat) : list num :=
  fold_left
    (fun out y =>
       fold_left (fun out x => upd (y * w + x) (blurAt gray w h y x) out)
         (seq 0 w) out)
    (seq 0 h) (repeat (ofZ 0) (w * h)).

(** The value [nonMaxSuppression] stores at the inner pixel [(x, y)]: the
    magnitude when it is not below its two neighbours along the gradient
    direction, 0 otherwise. *)
Definition suppressAt (mag dir : list num) (w : nat) (y x : nat) : num :=
  let angle := entry dir (y * w + x) * ofZ 180 / pi in
  let angle := if angle <? ofZ 0 then angle + ofZ 180 else angle in
  let m := entry mag (y * w + x) in
  let '(n1, n2) :=
    if (angle <? ratio 225 10) || (angle >=? ratio 1575 10) then
      (entry mag (y * w + (x - 1)), entry mag (y * w + (x + 1)))
    else if angle <? ratio 675 10 then
      (entry mag ((y - 1) * w + (x + 1)), entry mag ((y + 1) * w + (x - 1)))
    else if angle <? ratio 1125 10 then
      (entry mag ((y - 1) * w + x), entry mag ((y + 1) * w + x))
    else
      (entry mag ((y - 1) * w + (x - 1)), entry mag ((y + 1) * w + (x + 1))) in
  if (m >=? n1) && (m >=? n2) then m else ofZ 0.

(** The loops run over [1 <= y < h - 1] and [1 <= x < w - 1]. *)
Definition nonMaxSuppression (mag dir : list num) (w h : nat) : list num :=
  fold_left
    (fun out y =>
       fold_left (fun out x => upd (y * w + x) (suppressAt mag dir w y x) out)
         (seq 1 (w - 2)) out)
    (seq 1 (h - 2)) (repeat (ofZ 0) (w * h)).
End Filters.

(** ** Morphology on edge maps

    An edge map is a [Uint8Array] holding 0 and 255. *)

Section Morphology.

(** [a[i]] of a [Uint8Array]; a read out of range gives [undefined], which,
    like 0, is not 255. *)
Definition byteAt (a : list Z) (i : nat) : Z := nth i a 0%Z.

(** [-radius .. radius], the range of [dy] and [dx] *)
Definition around (radius : nat) : list Z :=
  map (fun k => (Z.of_nat k - Z.of_nat radius)%Z) (seq 0 (2 * radius + 1)).

(** [ny >= 0 && ny < h && nx >= 0 && nx < w] *)
Definition inImage (w h : nat) (ny nx : Z) : bool :=
  ((0 <=? ny) && (ny <? Z.of_nat h) && (0 <=? nx) && (nx <? Z.of_nat w))%Z.

(** The indices the loop body of [dilateEdgesR] stores 255 at for the pixel
    [(x, y)], in order. *)
Definition dilateWrites (edges : list Z) (w h radius : nat) (y x : nat) : list nat :=
  if negb (byteAt edges (y * w + x) =? 255)%Z then []
  else
    flat_map
      (fun dy =>
         flat_map
           (fun dx =>
              let ny := (Z.of_nat y + dy)%Z in
              let nx := (Z.of_nat x + dx)%Z in
              if inImage w h ny nx then [Z.to_nat (ny * Z.of_nat w + nx)] else [])
           (around radius))
      (around radius).

Definition dilateEdgesR (edges : list Z) (w h radius : nat) : list Z :=
  fold_left (fun out i => upd i 255%Z out)
    (flat_map (fun y => flat_map (dilateWrites edges w h radius y) (seq 0 w))
       (seq 0 h))
    (repeat 0%Z (w * h)).

(** The flag [all] of [erodeR] after its two loops, which stop as soon as it
    is false. *)
Definition windowFull (bin : list Z) (w h radius : nat) (y x : nat) : bool :=
  fold_left
    (fun (all : bool) dy =>
       fold_left
         (fun (all : bool) dx =>
            if all then
              let ny := (Z.of_nat y + dy)%Z in
              let nx := (Z.of_nat x + dx)%Z in
              if (ny <? 0)%Z || (ny >=? Z.of_nat h)%Z || (nx <? 0)%Z
                 || (nx >=? Z.of_nat w)%Z
                 || negb (byteAt bin (Z.to_nat (ny * Z.of_nat w + nx)) =? 255)%Z
              then false else all
            else all)
         (around radius) all)
    (around radius) true.

Definition erodeWrites (bin : list Z) (w h radius : nat) (y x : nat) : list nat :=
  if negb (byteAt bin (y * w + x) =? 255)%Z then []
  else if windowFull bin w h radius y x then [(y * w + x)%nat] else [].

Definition erodeR (bin : list Z) (w h radius : nat) : list Z :=
  fold_left (fun out i => upd i 255%Z out)
    (flat_map (fun y => flat_map (erodeWrites bin w h radius y) (seq 0 w))
       (seq 0 h))
    (repeat 0%Z (w * h)).
End Morphology.

(** ** Contours: hull and simplification *)

Section Contours.
Context {N : Number}.
Local Open Scope js_scope.

(** The comparator [a[0] - b[0] || a[1] - b[1]]: the second difference when
    the first is 0 or NaN. *)
Definition byXThenY (a b : Pt) : num :=
  let d := px a - px b in
  if (d =? ofZ 0) || negb (d =? d) then py a - py b else d.

(** The loop that builds [unique]: a point is pushed when it differs from
    the point before it; [prev] is [pts[i - 1]]. *)
Fixpoint dropRepeats (prev : Pt) (l : list Pt) : list Pt :=
  match l with
  | [] => []
  | p :: t =>
      if negb (px p =? px prev) || negb (py p =? py prev)
      then p :: dropRepeats p t
      else dropRepeats p t
  end.

Definition unique (pts : list Pt) : list Pt :=
  match pts with
  | [] => []
  | p0 :: t => p0 :: dropRepeats p0 t
  end.

Definition cross (O A B : Pt) : num :=
  (px A - px O) * (py B - py O) - (py A - py O) * (px B - px O).

(** The inner [while] of a chain: the stack is held with its top first, so
    [b] is [lower[lower.length - 1]] and [a] is [lower[lower.length - 2]]. *)
Fixpoint popTurns (p : Pt) (st : list Pt) : list Pt :=
  match st with
  | b :: ((a :: _) as rest) =>
      if cross a b p <=? ofZ 0 then popTurns p rest else st
  | _ => st
  end.

(** One chain, top first: each point pops, then is pushed. *)
Definition chain (pts : list Pt) : list Pt :=
  fold_left (fun st p => p :: popTurns p st) pts [].

(** [lower] and [upper] after their final [pop], in array order. *)
Definition lowerHull (pts : list Pt) : list Pt := rev (List.tl (chain pts)).
Definition upperHull (pts : list Pt) : list Pt := rev (List.tl (chain (rev pts))).

Definition convexHull (points : list Pt) : list Pt :=
  if (length points <? 3)%nat then points
  else
    let pts := unique (jsSort byXThenY points) in
    if (length pts <? 3)%nat then pts
    else lowerHull pts ++ upperHull pts.

(** The scan of [douglasPeucker] over the points strictly between [si] and
    [ei]: the state is [(maxDist, maxIdx)]. *)
Definition farthest (points : list Pt) (si ei : nat) : num * nat :=
  let sx := px (pt points si) in
  let sy := py (pt points si) in
  let ex := px (pt points ei) in
  let ey := py (pt points ei) in
  let dx := ex - sx in
  let dy := ey - sy in
  let lenSq := dx * dx + dy * dy in
  fold_left
    (fun (st : num * nat) i =>
       let d :=
         if lenSq <? ratio 1 10000000000
         then sqrt ((px (pt points i) - sx) * (px (pt points i) - sx)
                    + (py (pt points i) - sy) * (py (pt points i) - sy))
         else abs (dy * px (pt points i) - dx * py (pt points i) + ex * sy - ey * sx)
              / sqrt lenSq in
       if d >? fst st then (d, i) else st)
    (seq (si + 1) (ei - (si + 1))) (ofZ 0, si).

(** The [while (stack.length > 0)] loop, the stack held with its top first.
    [fuel] bounds the number of iterations; [None] is a run that has not
    emptied the stack within them. *)
Fixpoint simplifyLoop (fuel : nat) (points : list Pt) (epsilon : num)
    (stack : list (nat * nat)) (keep : list Z) : option (list Z) :=
  match stack with
  | [] => Some keep
  | (si, ei) :: rest =>
      match fuel with
      | O => None
      | S fuel' =>
          let found := farthest points si ei in
          if fst found >? epsilon
          then simplifyLoop fuel' points epsilon
                 ((snd found, ei) :: (si, snd found) :: rest)
                 (upd (snd found) 1%Z keep)
          else simplifyLoop fuel' points epsilon rest keep
      end
  end.

(** The indices the final loop pushes: those with [keep[i]] not 0. *)
Definition keptIndices (keep : list Z) (n : nat) : list nat :=
  filter (fun i => negb (nth i keep 0 =? 0)%Z) (seq 0 n).

Definition douglasPeucker (fuel : nat) (points : list Pt) (epsilon : num)
    : option (list Pt) :=
  let n := length points in
  if (n <=? 2)%nat then Some points
  else
    let keep := upd (n - 1) 1%Z (upd 0 1%Z (repeat 0%Z n)) in
    match simplifyLoop fuel points epsilon [(0, n - 1)%nat] keep with
    | None => None
    | Some keep => Some (map (pt points) (keptIndices keep n))
    end.
End Contours.

(** ** Otsu's threshold *)

Section Otsu.
Context {N : Number}.
Local Open Scope js_scope.

(** The histogram loop: [hist[bin]++] for every pixel. *)
Definition histogram (gray : list num) (w h : nat) : list num :=
  fold_left
    (fun hist i =>
       let bin := toNat (minn (ofZ 255) (maxn (ofZ 0) (round (entry gray i)))) in
       upd bin (entry hist bin + ofZ 1) hist)
    (seq 0 (w * h)) (repeat (ofZ 0) 256).

(** The state of the threshold loop: [sumB], [wB], [bestThresh], [bestVar],
    and whether [break] has been reached. *)
Record OtsuState : Type := {
  o_sumB : num; o_wB : num; o_bestThresh : nat; o_bestVar : num; o_stopped : bool
}.

Definition otsuStep (hist : list num) (total sumAll : num) (st : OtsuState) (t : nat)
    : OtsuState :=
  if o_stopped st then st
  else
    let wB := o_wB st + entry hist t in
    if wB =? ofZ 0
    then {| o_sumB := o_sumB st; o_wB := wB; o_bestThresh := o_bestThresh st;
            o_bestVar := o_bestVar st; o_stopped := false |}
    else
      let wF := total - wB in
      if wF =? ofZ 0
      then {| o_sumB := o_sumB st; o_wB := wB; o_bestThresh := o_bestThresh st;
              o_bestVar := o_bestVar st; o_stopped := true |}
      else
        let sumB := o_sumB st + ofNat t * entry hist t in
        let mB := sumB / wB in
        let mF := (sumAll - sumB) / wF in
        let between := wB * wF * (mB - mF) * (mB - mF) in
        if between >? o_bestVar st
        then {| o_sumB := sumB; o_wB := wB; o_bestThresh := t;
                o_bestVar := between; o_stopped := false |}
        else {| o_sumB := sumB; o_wB := wB; o_bestThresh := o_bestThresh st;
                o_bestVar := o_bestVar st; o_stopped := false |}.

Definition otsuThreshold (gray : list num) (w h : nat) : nat :=
  let hist := histogram gray w h in
  let total := ofNat (w * h) in
  let sumAll :=
    fold_left (fun sumAll i => sumAll + ofNat i * entry hist i) (seq 0 256) (ofZ 0) in
  o_bestThresh
    (fold_left (otsuStep hist total sumAll) (seq 0 256)
       {| o_sumB := ofZ 0; o_wB := ofZ 0; o_bestThresh := 128%nat;
          o_bestVar := ofZ 0; o_stopped := false |}).
End Otsu.

(** * Part II: properties *)

(** ** Facts about the real instance *)

Section RealFacts.
Local Open Scope R_scope.

Lemma ltb_true x y : RealOps.ltb x y = true <-> x < y.
Proof. unfold RealOps.ltb. destruct (Rlt_dec x y); split; intros; try easy. Qed.

Lemma ltb_false x y : RealOps.ltb x y = false <-> y <= x.
Proof.
  unfold RealOps.ltb. destruct (Rlt_dec x y); split; intros; try easy; lra.
Qed.

Lemma leb_true x y : RealOps.leb x y = true <-> x <= y.
Proof. unfold RealOps.leb. destruct (Rle_dec x y); split; intros; try easy. Qed.

Lemma leb_false x y : RealOps.leb x y = false <-> y < x.
Proof.
  unfold RealOps.leb. destruct (Rle_dec x y); split; intros; try easy; lra.
Qed.
End RealFacts.

(** ** Facts about arrays and sorting *)

Section ArrayFacts.
Context {A : Type}.
Implicit Types (l : list A) (v : A).

Lemma length_upd i v l : length (upd i v l) = length l.
Proof.
  revert i; induction l as [|x t IH]; intros [|i]; simpl; auto.
Qed.

Lemma nth_upd_eq i v l d : (i < length l)%nat -> nth i (upd i v l) d = v.
Proof.
  revert i; induction l as [|x t IH]; intros [|i] H; simpl in *;
    try lia; auto. apply IH; lia.
Qed.

Lemma nth_upd_ne i j v l d : i <> j -> nth j (upd i v l) d = nth j l d.
Proof.
  revert i j; induction l as [|x t IH]; intros [|i] [|j] H; simpl;
    auto; try congruence.
Qed.

Lemma upd_out i v l : (length l <= i)%nat -> upd i v l = l.
Proof.
  revert i; induction l as [|x t IH]; intros [|i] H; simpl in *;
    auto; try lia. f_equal; apply IH; lia.
Qed.
End ArrayFacts.

Lemma lt_length {A : Type} (l : list A) (n i : nat) :
  length l = n -> (i < n)%nat -> (i < length l)%nat.
Proof. intros -> H. exact H. Qed.

Section SortFacts.
Context {N : Number} {A : Type}.
Variable cmp : A -> A -> num.
Local Open Scope js_scope.

Lemma insertSorted_perm x l : Permutation (insertSorted cmp x l) (x :: l).
Proof.
  induction l as [|y t IH]; simpl; auto.
  destruct (cmp x y <? ofZ 0); auto.
  rewrite IH. apply perm_swap.
Qed.

Lemma jsSort_acc_perm l acc :
  Permutation (fold_left (fun acc x => insertSorted cmp x acc) l acc) (acc ++ l).
Proof.
  revert acc; induction l as [|x t IH]; intros acc; simpl.
  - rewrite app_nil_r; auto.
  - rewrite IH, insertSorted_perm.
    change (x :: acc) with ([x] ++ acc).
    rewrite (Permutation_app_comm [x] acc), <- app_assoc; auto.
Qed.

Lemma jsSort_perm l : Permutation (jsSort cmp l) l.
Proof. unfold jsSort. apply (jsSort_acc_perm l []). Qed.

Lemma jsSort_length l : length (jsSort cmp l) = length l.
Proof. apply Permutation_length, jsSort_perm. Qed.
End SortFacts.

(** ** [orderCorners]: permutation and idempotence *)

Section OrderCornersPerm.
Context {N : Number}.

Lemma slice_halves (l : list Pt) :
  length l = 4%nat ->
  slice 0 2 l ++ slice 2 4 l = l /\
  length (slice 0 2 l) = 2%nat /\ length (slice 2 4 l) = 2%nat.
Proof.
  destruct l as [|a [|b [|c [|d [|e l]]]]]; simpl; intros H; try discriminate.
  repeat split.
Qed.

(** C10: on exactly four points, [orderCorners] returns a permutation of its
    input: no point is lost, duplicated or changed.  This holds whatever the
    comparator answers, hence at every number instance. *)
Theorem orderCorners_permutation (pts : list Pt) :
  length pts = 4%nat -> Permutation (orderCorners pts) pts.
Proof.
  intros Hlen. unfold orderCorners.
  set (sorted := jsSort (fun a b => sub (py a) (py b)) pts).
  assert (Hs : length sorted = 4%nat)
    by (unfold sorted; rewrite jsSort_length; exact Hlen).
  destruct (slice_halves sorted Hs) as (Happ & Ht & Hb).
  set (top := jsSort (fun a b => sub (px a) (px b)) (slice 0 2 sorted)).
  set (bot := jsSort (fun a b => sub (px a) (px b)) (slice 2 4 sorted)).
  assert (Htop : length top = 2%nat)
    by (unfold top; rewrite jsSort_length; exact Ht).
  assert (Hbot : length bot = 2%nat)
    by (unfold bot; rewrite jsSort_length; exact Hb).
  transitivity (top ++ bot).
  - clearbody top bot.
    destruct top as [|t0 [|t1 [|? ?]]]; try discriminate.
    destruct bot as [|b0 [|b1 [|? ?]]]; try discriminate.
    simpl. do 2 apply perm_skip. apply perm_swap.
  - transitivity sorted.
    + rewrite <- Happ. apply Permutation_app; apply jsSort_perm.
    + apply jsSort_perm.
Qed.
End OrderCornersPerm.

Lemma orderCorners_permutation_witness :
  let pts : list (@Pt Real) := [(3, 9); (7, 1); (0, 4); (5, 5)]%R in
  Permutation (orderCorners pts) pts.
Proof.
  apply (@orderCorners_permutation Real [(3, 9); (7, 1); (0, 4); (5, 5)]%R).
  reflexivity.
Defined.

Section OrderCornersIdempotent.
Local Open Scope R_scope.

(** What [orderCorners] establishes on its result [tl; tr; br; bl]: the top
    pair is not below the bottom pair, and each pair is in x order, a tie in x
    keeping the y order. *)
Definition cornerOrder (l : list (@Pt Real)) : Prop :=
  match l with
  | [t0; t1; b1; b0] =>
      snd t0 <= snd b0 /\ snd t0 <= snd b1 /\
      snd t1 <= snd b0 /\ snd t1 <= snd b1 /\
      (fst t0 < fst t1 \/ (fst t0 <= fst t1 /\ snd t0 <= snd t1)) /\
      (fst b0 < fst b1 \/ (fst b0 <= fst b1 /\ snd b0 <= snd b1))
  | _ => False
  end.

Ltac split_lt :=
  match goal with
  | |- context [RealOps.ltb ?x ?y] =>
      let E := fresh "E" in
      destruct (RealOps.ltb x y) eqn:E;
      [apply ltb_true in E | apply ltb_false in E]; simpl in E |- *
  end.

Ltac order_cases :=
  unfold orderCorners, jsSort, slice, pt, px, py; cbn;
  repeat (split_lt; try (exfalso; lra)).

Lemma orderCorners_cornerOrder (a b c d : @Pt Real) :
  cornerOrder (orderCorners [a; b; c; d]).
Proof.
  destruct a as [ax ay], b as [bx by_], c as [cx cy], d as [dx dy].
  order_cases; cbn; repeat split; try lra.
Qed.

Lemma cornerOrder_fixed (l : list (@Pt Real)) :
  cornerOrder l -> orderCorners l = l.
Proof.
  destruct l as [|[ax ay] [|[bx by_] [|[cx cy] [|[dx dy] [|e l]]]]];
    simpl; try tauto.
  intros (H1 & H2 & H3 & H4 & H5 & H6).
  order_cases; repeat (f_equal; try lra).
Qed.

(** C6: [orderCorners] is idempotent on four points with real coordinates:
    sorting by y, splitting into halves and sorting each half by x, applied to
    its own result, returns that result. *)
Theorem orderCorners_idempotent (pts : list (@Pt Real)) :
  length pts = 4%nat ->
  orderCorners (orderCorners pts) = orderCorners pts.
Proof.
  destruct pts as [|a [|b [|c [|d [|e l]]]]]; simpl; intros H; try discriminate.
  apply cornerOrder_fixed, orderCorners_cornerOrder.
Qed.

Lemma orderCorners_idempotent_witness :
  let pts : list (@Pt Real) := [(68, 76); (6, -2); (76, 68); (-2, 6)] in
  orderCorners (orderCorners pts) = orderCorners pts.
Proof.
  apply (orderCorners_idempotent [(68, 76); (6, -2); (76, 68); (-2, 6)]).
  reflexivity.
Defined.
End OrderCornersIdempotent.

(** ** [validateQuad]: what an accepted polygon satisfies *)

Section ValidateQuadSound.
Local Open Scope R_scope.





Lemma clamp_id (c : R) : -1 <= c <= 1 -> Rmax (- 1) (Rmin 1 c) = c.
Proof.
  intros [H1 H2]. rewrite Rmin_right by lra. rewrite Rmax_right by lra. reflexivity.
Qed.





Lemma isConvexStep_left_turn (pts : list (R * R)) (sign : Z) (i : nat) :
  (sign = 0 \/ sign = 1)%Z ->
  1 / 1000000 <=
    crossAt (N := Real) (pt pts i) (pt pts ((i + 1) mod length pts))
      (pt pts ((i + 2) mod length pts)) ->
  isConvexStep (N := Real) pts (Some sign) i = Some 1%Z.
Proof.
  intros Hs Hc. unfold isConvexStep.
  remember (crossAt _ _ _) as cr eqn:Ecr. clear Ecr. unfold ratio, gt. cbn.
  assert (E1 : RealOps.ltb (Rabs cr) (1 / 1000000) = false).
  { apply ltb_false. rewrite Rabs_right; lra. }
  assert (E2 : RealOps.ltb 0 cr = true) by (apply ltb_true; lra).
  rewrite E1, E2. destruct Hs as [-> | ->]; reflexivity.
Qed.

(** A corner with perpendicular edges, both long enough, passes. *)
Lemma cornerOk_right_angle (a b c : R * R) (minEdge : R) :
  0 <= minEdge ->
  (fst a - fst b) * (fst c - fst b) + (snd a - snd b) * (snd c - snd b) = 0 ->
  minEdge * minEdge <= (fst a - fst b) * (fst a - fst b) + (snd a - snd b) * (snd a - snd b) ->
  minEdge * minEdge <= (fst c - fst b) * (fst c - fst b) + (snd c - snd b) * (snd c - snd b) ->
  cornerOk (N := Real) a b c minEdge = true.
Proof.
  intros Hm Hdot H1 H2. unfold cornerOk, px, py, gt. cbn.
  rewrite Hdot.
  match goal with
  | |- context [RealOps.ltb (R_sqrt.sqrt ?e1) minEdge || RealOps.ltb (R_sqrt.sqrt ?e2) minEdge] =>
      remember (R_sqrt.sqrt e1) as l1 eqn:E1; remember (R_sqrt.sqrt e2) as l2 eqn:E2
  end.
  assert (L1 : minEdge <= l1).
  { subst l1. rewrite <- (sqrt_square minEdge Hm). apply sqrt_le_1_alt. exact H1. }
  assert (L2 : minEdge <= l2).
  { subst l2. rewrite <- (sqrt_square minEdge Hm). apply sqrt_le_1_alt. exact H2. }
  clear E1 E2.
  rewrite (proj2 (ltb_false l1 minEdge) L1), (proj2 (ltb_false l2 minEdge) L2).
  simpl. unfold Rdiv at 2 4. rewrite Rmult_0_l.
  rewrite clamp_id by lra. rewrite acos_0.
  assert (E : PI / 2 * 180 / PI = 90) by (field; apply PI_neq0).
  rewrite E.
  rewrite (proj2 (ltb_false 90 30)) by lra.
  rewrite (proj2 (ltb_false 150 90)) by lra.
  reflexivity.
Qed.

Definition tiltedQuad : list (R * R) := [(-2, 6); (6, -2); (76, 68); (68, 76)].

Lemma tiltedQuad_valid : validateQuad (N := Real) tiltedQuad 100 100 = true.
Proof.
  unfold validateQuad, isConvex, tiltedQuad.
  cbn [length Nat.ltb Nat.leb seq fold_left].
  rewrite !isConvexStep_left_turn;
    try (unfold crossAt, pt, px, py; cbn; lra); try (left; reflexivity); try (right; reflexivity).
  cbn [Z.eqb negb].
  assert (Ea : lt (Number := Real) (contourArea (N := Real) [(-2, 6); (6, -2); (76, 68); (68, 76)])
                 (ratio 1 10 * 100 * 100)%js = false).
  { apply ltb_false. unfold contourArea, ratio, pt, px, py. cbn.
    rewrite Rabs_right by lra. lra. }
  rewrite Ea. cbn [forallb].
  unfold vertexOk, pt. cbn [length Nat.add Nat.sub Nat.modulo Nat.divmod fst snd nth].
  assert (Hm : mul (Number := Real) (minn 100 100) (ratio 1 10) = 10).
  { unfold ratio. cbn. unfold Rmin. destruct (Rle_dec 100 100); lra. }
  rewrite Hm.
  rewrite !cornerOk_right_angle; try reflexivity; cbn; lra.
Qed.

End ValidateQuadSound.

(** ** The detection cascade: order of the strategies *)

Section CascadeOrder.
Context {N : Number}.
Variables (an : Analysis) (w h : num).

(** The fixed priority order, and what each strategy returns on its own. *)
Definition priority : list Strategy :=
  [GradientRansac; BrightnessSegmentation; EdgeContour; HoughLine].


Definition resultOf (s : Strategy) : option Quad :=
  match s with
  | GradientRansac => gradientRansacDetection (ransacFront an) w h
  | BrightnessSegmentation => segmentBasedDetection (segmentApprox an) w h
  | EdgeContour => contourBasedDetection (contourApprox an) w h
  | HoughLine => findBestQuad (houghLines an) w h
  end.

(** The five ways a run of [cascade] can go. *)
Lemma cascade_cases :
  (exists q, resultOf GradientRansac = Some q /\
             cascade an w h = (Some q, [GradientRansac])) \/
  (exists q, resultOf GradientRansac = None /\
             resultOf BrightnessSegmentation = Some q /\
             cascade an w h = (Some q, [GradientRansac; BrightnessSegmentation])) \/
  (exists q, resultOf GradientRansac = None /\
             resultOf BrightnessSegmentation = None /\
             resultOf EdgeContour = Some q /\
             cascade an w h =
               (Some q, [GradientRansac; BrightnessSegmentation; EdgeContour])) \/
  (resultOf GradientRansac = None /\
   resultOf BrightnessSegmentation = None /\
   resultOf EdgeContour = None /\
   cascade an w h = (resultOf HoughLine, priority)).
Proof.
  unfold cascade, attempt, resultOf, priority.
  destruct (gradientRansacDetection (ransacFront an) w h) as [q1|]; simpl.
  { left. exists q1. auto. }
  destruct (segmentBasedDetection (segmentApprox an) w h) as [q2|]; simpl.
  { right; left. exists q2. auto. }
  destruct (contourBasedDetection (contourApprox an) w h) as [q3|]; simpl.
  { right; right; left. exists q3. auto. }
  right; right; right. auto.
Qed.

(** The result of the cascade is the result of some strategy. *)
Lemma cascade_result (q : Quad) :
  fst (cascade an w h) = Some q -> exists s, resultOf s = Some q.
Proof.
  destruct cascade_cases
    as [(q1 & R1 & E) | [(q2 & R1 & R2 & E) | [(q3 & R1 & R2 & R3 & E)
       | (R1 & R2 & R3 & E)]]];
    rewrite E; cbn [fst]; intros H.
  - exists GradientRansac. congruence.
  - exists BrightnessSegmentation. congruence.
  - exists EdgeContour. congruence.
  - exists HoughLine. congruence.
Qed.



End CascadeOrder.

Section DetectPriority.
Context {N : Number}.

(** For a picture whose scaled width and height are not 0, [detectDocument]
    resolves with the result of its cascade on the analysis of the scaled
    picture's gray levels. *)
Lemma detectDocument_cascade (analyse : list num -> nat -> nat -> Analysis)
    (img : Bitmap) (w h : num) :
  scaledSize (bmpWidth img) (bmpHeight img) = (w, h) ->
  toNat w <> 0%nat -> toNat h <> 0%nat ->
  detectDocument analyse (Picture img)
  = fst (cascade
           (analyse (toGray (drawn img (toNat w) (toNat h)) (toNat w) (toNat h))
              (toNat w) (toNat h))
           w h).
Proof.
  intros Hs Hw Hh. unfold detectDocument. rewrite Hs.
  destruct (Nat.eqb_spec (toNat w) 0) as [C|_]; [contradiction|].
  destruct (Nat.eqb_spec (toNat h) 0) as [C|_]; [contradiction|].
  reflexivity.
Qed.

End DetectPriority.

(** ** The detection cascade: what a returned quad went through *)

Section DetectionGate.
Context {N : Number}.
Local Open Scope js_scope.

Lemma ransacPass_gate (corners : list Pt) (w h : num) (q : Quad) :
  ransacPass corners w h = Some q ->
  length corners = 4%nat /\
  validateQuad (orderCorners corners) w h = true /\
  q = normalizeOrdered (orderCorners corners) w h.
Proof.
  unfold ransacPass. intros H.
  destruct (length corners =? 4)%nat eqn:El; [|discriminate]. simpl in H.
  destruct (existsb _ corners); [discriminate|].
  destruct (validateQuad (orderCorners corners) w h) eqn:Ev; [|discriminate].
  simpl in H. injection H as <-.
  apply Nat.eqb_eq in El. auto.
Qed.

Lemma firstSome_found {A : Type} (f : nat -> option A) (ks : list nat) (a : A) :
  firstSome f ks = Some a -> exists k, In k ks /\ f k = Some a.
Proof.
  unfold firstSome.
  assert (G : forall acc, fold_left (fun acc k => match acc with Some _ => acc | None => f k end) ks acc = Some a ->
             acc = Some a \/ exists k, In k ks /\ f k = Some a).
  { induction ks as [|k ks IH]; simpl; intros acc H; [auto|].
    destruct (IH _ H) as [E | (k' & Hin & Hk)].
    - destruct acc; [auto|]. right. exists k. auto.
    - right. exists k'. auto. }
  intros H. destruct (G None H) as [E | E]; [discriminate | exact E].
Qed.

Lemma gradientRansacDetection_gate (front : RansacFront) (w h : num) (q : Quad) :
  gradientRansacDetection front w h = Some q ->
  exists pts, length pts = 4%nat /\ validateQuad pts w h = true /\
              q = normalizeOrdered pts w h.
Proof.
  unfold gradientRansacDetection. destruct (ransacEnough front); [|discriminate].
  simpl. intros H. apply firstSome_found in H. destruct H as (ti & _ & H).
  destruct (ransacCorners front ti) as [corners|]; [|discriminate].
  apply ransacPass_gate in H. destruct H as (Hl & Hv & ->).
  exists (orderCorners corners). repeat split; auto.
Qed.

(** A candidate kept as [bestQuad] has four points and passed [validateQuad]. *)
Definition kept (w h : num) (best : Best) : Prop :=
  match fst best with
  | None => True
  | Some pts => length pts = 4%nat /\ validateQuad pts w h = true
  end.

Lemma considerQuad_kept (w h : num) (quad : list Pt) (best : Best) :
  length quad = 4%nat -> kept w h best -> kept w h (considerQuad w h quad best).
Proof.
  intros Hl Hb. unfold considerQuad.
  destruct (validateQuad quad w h) eqn:Ev; [|exact Hb].
  destruct (contourArea quad >? snd best); [|exact Hb].
  unfold kept; simpl. auto.
Qed.

Lemma dropVertex_length (skip : nat) (approx : list Pt) :
  (skip < 5)%nat -> length (dropVertex skip approx) = 4%nat.
Proof.
  intros H. unfold dropVertex. rewrite length_map.
  do 5 (destruct skip as [|skip]; [reflexivity|]). lia.
Qed.

Lemma considerApprox_kept (w h : num) (best : Best) (approx : list Pt) :
  kept w h best -> kept w h (considerApprox w h best approx).
Proof.
  intros Hb. unfold considerApprox.
  destruct (length approx =? 4)%nat eqn:E4.
  - apply considerQuad_kept; [apply Nat.eqb_eq, E4 | exact Hb].
  - destruct (length approx =? 5)%nat; [|exact Hb].
    assert (G : forall ks b, (forall k, In k ks -> (k < 5)%nat) -> kept w h b ->
              kept w h (fold_left (fun b skip => considerQuad w h (dropVertex skip approx) b) ks b)).
    { induction ks as [|k ks IH]; simpl; intros b Hk Hkb; [exact Hkb|].
      apply IH; [auto|]. apply considerQuad_kept; [apply dropVertex_length; auto | exact Hkb]. }
    apply G; [|exact Hb]. intros k Hk. apply in_seq in Hk. lia.
Qed.

Lemma bestOverRounds_kept (approxAt : nat -> list (list Pt)) (rounds : nat) (w h : num) :
  kept w h (bestOverRounds approxAt rounds w h).
Proof.
  unfold bestOverRounds.
  assert (G : forall ks b, kept w h b ->
            kept w h (fold_left (fun best k => match fst best with
                                               | Some _ => best
                                               | None => fold_left (considerApprox w h) (approxAt k) best
                                               end) ks b)).
  { induction ks as [|k ks IH]; simpl; intros b Hb; [exact Hb|].
    apply IH. destruct (fst b) eqn:Eb; [exact Hb|].
    clear Eb. revert b Hb. induction (approxAt k) as [|a l IHl]; simpl; intros b Hb; [exact Hb|].
    apply IHl. apply considerApprox_kept. exact Hb. }
  apply G. exact I.
Qed.

Lemma orderedResult_gate (approxAt : nat -> list (list Pt)) (rounds : nat) (w h : num) (q : Quad) :
  orderedResult (bestOverRounds approxAt rounds w h) w h = Some q ->
  exists pts, length pts = 4%nat /\ validateQuad pts w h = true /\
              q = normalizeOrdered (orderCorners pts) w h.
Proof.
  pose proof (bestOverRounds_kept approxAt rounds w h) as Hk.
  unfold orderedResult, kept in *.
  destruct (fst (bestOverRounds approxAt rounds w h)) as [pts|]; [|discriminate].
  intros H. injection H as <-. exists pts. tauto.
Qed.

(** The Hough strategy's range check: every coordinate of the four
    intersections lies between [-0.1] and [1.1] times the longer side. *)
Definition houghRange (w h : num) (ptl ptr pbr pbl : Pt) : Prop :=
  existsb
    (fun c : Pt =>
       (px c <? - ratio 1 10 * maxn w h) || (px c >? ratio 11 10 * maxn w h) ||
       (py c <? - ratio 1 10 * maxn w h) || (py c >? ratio 11 10 * maxn w h))
    [ptl; ptr; pbr; pbl] = false.

(** The Hough strategy's own gate, as it is coded: the range check, and the
    size test [quadArea >= 0.1 * w * h].  [quadArea] is half the absolute
    sum of the cross products of the two edges at each of the four corners;
    for a convex quadrilateral that sum is four times the enclosed area, so
    [quadArea] is twice the area and the test admits quadrilaterals that
    enclose a twentieth of the picture (see [hough_small_quad]). *)
Definition houghGate (w h : num) (ptl ptr pbr pbl : Pt) : Prop :=
  houghRange w h ptl ptr pbr pbl /\
  (ratio 5 10 *
   abs ((px ptr - px ptl) * (py pbl - py ptl)
        - (px pbl - px ptl) * (py ptr - py ptl)
        + (px pbr - px ptr) * (py ptl - py ptr)
        - (px ptl - px ptr) * (py pbr - py ptr)
        + (px pbl - px pbr) * (py ptr - py pbr)
        - (px ptr - px pbr) * (py pbl - py pbr)
        + (px ptl - px pbl) * (py pbr - py pbl)
        - (px pbr - px pbl) * (py ptl - py pbl))
   <? ratio 1 10 * w * h) = false.

Lemma findBestQuad_gate (lines : list Line) (w h : num) (q : Quad) :
  findBestQuad lines w h = Some q ->
  exists ptl ptr pbr pbl,
    houghGate w h ptl ptr pbr pbl /\ q = normalizeQuad ptl ptr pbr pbl w h.
Proof.
  unfold findBestQuad. intros H.
  destruct (length lines <? 4)%nat; [discriminate|].
  destruct (_ || _)%bool; [discriminate|].
  destruct (bestPair _ _) as [[topLine bottomLine]|]; [|discriminate].
  destruct (bestPair _ _) as [[leftLine rightLine]|]; [|discriminate].
  destruct (lineIntersection topLine leftLine) as [ptl|]; [|discriminate].
  destruct (lineIntersection topLine rightLine) as [ptr|]; [|discriminate].
  destruct (lineIntersection bottomLine rightLine) as [pbr|]; [|discriminate].
  destruct (lineIntersection bottomLine leftLine) as [pbl|]; [|discriminate].
  destruct (existsb _ _) eqn:Eo; [discriminate|].
  destruct (_ <? _) eqn:Ea; [discriminate|].
  injection H as <-. exists ptl, ptr, pbr, pbl. split; [split; assumption | reflexivity].
Qed.


End DetectionGate.

(** *** A run in which clamping undoes the validation *)

Section ClampedQuad.
Local Open Scope R_scope.

(** On a 100 by 100 picture, the line fitting finds the lines [y = x + 8],
    [y = x - 8], [x + y = 4] and [x + y = 144]; their four intersections, in
    the order the engine computes them: *)
Definition tiltedCorners : list (R * R) := [(-2, 6); (68, 76); (6, -2); (76, 68)].

Definition tiltedAnalysis : @Analysis Real :=
  {| ransacFront :=
       {| ransacEnough := true; ransacCorners := fun _ => Some tiltedCorners |};
     segmentApprox := fun _ => [];
     contourApprox := fun _ => [];
     houghLines := [] |}.

(** The picture itself enters the model through its size alone, the analysis
    being given. *)
Definition tiltedPicture : @Bitmap Real :=
  {| bmpWidth := 100; bmpHeight := 100; drawn := fun _ _ => [] |}.

(** The quad returned: the corners outside the picture moved onto its edge. *)
Definition clampedQuad : @Quad Real :=
  {| tl := {| p_x := 0; p_y := 6 / 100 |};
     tr := {| p_x := 6 / 100; p_y := 0 |};
     br := {| p_x := 76 / 100; p_y := 68 / 100 |};
     bl := {| p_x := 68 / 100; p_y := 76 / 100 |} |}.

Lemma Int_part_eq (z : Z) (x : R) : IZR z <= x < IZR z + 1 -> Int_part x = z.
Proof.
  intros [H1 H2]. symmetry. apply Int_part_spec.
  split; lra.
Qed.

Lemma unitClamp_low (v s : R) : 0 < s -> v <= 0 -> unitClamp (N := Real) v s = 0.
Proof.
  intros Hs Hv. unfold unitClamp. cbn.
  assert (v / s <= 0).
  { unfold Rdiv. assert (0 < / s) by (apply Rinv_0_lt_compat; lra). nra. }
  rewrite Rmin_right by lra. rewrite Rmax_left by lra. reflexivity.
Qed.

Lemma unitClamp_inside (v s : R) :
  0 < s -> 0 <= v <= s -> unitClamp (N := Real) v s = v / s.
Proof.
  intros Hs [H0 H1]. unfold unitClamp. cbn.
  assert (0 <= v / s <= 1).
  { split.
    - unfold Rdiv. assert (0 < / s) by (apply Rinv_0_lt_compat; lra). nra.
    - apply (Rmult_le_reg_r s); [lra|]. unfold Rdiv.
      rewrite Rmult_assoc, Rinv_l by lra. lra. }
  rewrite Rmin_right by lra. rewrite Rmax_right by lra. reflexivity.
Qed.

Ltac decide_lt :=
  repeat match goal with
  | |- context [RealOps.ltb ?x ?y] =>
      first [ rewrite (proj2 (ltb_true x y)) by lra
            | rewrite (proj2 (ltb_false x y)) by lra ]
  end.

Ltac real_run := repeat (progress (cbn; decide_lt)).

Lemma tiltedCorners_ordered : orderCorners (N := Real) tiltedCorners = tiltedQuad.
Proof.
  unfold orderCorners, jsSort, slice, pt, px, py, tiltedCorners, tiltedQuad.
  real_run. reflexivity.
Qed.

Lemma tiltedPass :
  ransacPass (N := Real) tiltedCorners 100 100 = Some clampedQuad.
Proof.
  unfold ransacPass.
  rewrite tiltedCorners_ordered, tiltedQuad_valid.
  assert (Em : mul (Number := Real) (maxn 100 100) (ratio 15 100) = 15).
  { unfold ratio. cbn. rewrite Rmax_left by lra. lra. }
  rewrite Em. cbn [length tiltedCorners Nat.eqb negb].
  match goal with
  | |- context [existsb ?f ?l] =>
      assert (Ex : existsb f l = false)
        by (unfold gt, px, py; cbn; decide_lt; reflexivity);
      rewrite Ex
  end.
  cbn [negb]. f_equal.
  unfold normalizeOrdered, normalizeQuad, tiltedQuad, clampedQuad, pt, px, py.
  cbn [nth fst snd].
  rewrite !(@unitClamp_low (-2) 100) by lra.
  rewrite !(@unitClamp_inside 6 100), !(@unitClamp_inside 76 100),
    !(@unitClamp_inside 68 100) by lra.
  reflexivity.
Qed.

Lemma tiltedCascade :
  fst (cascade (N := Real) tiltedAnalysis 100 100) = Some clampedQuad.
Proof.
  unfold cascade, attempt, gradientRansacDetection, firstSome, tiltedAnalysis.
  cbn [ransacFront ransacEnough ransacCorners negb seq fold_left].
  rewrite tiltedPass. reflexivity.
Qed.

Lemma scaledSize_100 : scaledSize (N := Real) 100 100 = (100, 100).
Proof.
  unfold scaledSize, ofNat, gt. cbn.
  rewrite Rmax_left by lra.
  rewrite (proj2 (ltb_false 500 100)) by lra.
  unfold RealOps.rround.
  rewrite (@Int_part_eq 100) by lra. reflexivity.
Qed.

Lemma tiltedDetect :
  detectDocument (N := Real) (fun _ _ _ => tiltedAnalysis) (Picture tiltedPicture)
  = Some clampedQuad.
Proof.
  unfold detectDocument, tiltedPicture. cbn [bmpWidth bmpHeight drawn].
  rewrite scaledSize_100. unfold toNat. cbn [toZ Real].
  rewrite (@Int_part_eq 100) by lra.
  cbn [Z.to_nat Pos.to_nat Pos.iter_op Nat.add Nat.eqb orb].
  apply tiltedCascade.
Qed.




Lemma toNat_100 : toNat (N := Real) 100 = 100%nat.
Proof. unfold toNat. cbn [toZ Real]. rewrite (@Int_part_eq 100) by lra. reflexivity. Qed.

End ClampedQuad.

(** ** The size test of the Hough strategy *)

Section HoughSize.
Local Open Scope R_scope.

(** Four lines on a picture of 100 by 100: [y = 10], [y = 30], [x = 10] and
    [x = 40]. *)
Definition lineY10 : Line (N := Real) := {| rho := 10; theta := PI / 2; votes := 50 |}.
Definition lineY30 : Line (N := Real) := {| rho := 30; theta := PI / 2; votes := 50 |}.
Definition lineX10 : Line (N := Real) := {| rho := 10; theta := 0; votes := 50 |}.
Definition lineX40 : Line (N := Real) := {| rho := 40; theta := 0; votes := 50 |}.

Definition fourLines : list (Line (N := Real)) := [lineY10; lineY30; lineX10; lineX40].

(** The rectangle of 30 by 20 pixels they bound, normalised. *)
Definition smallQuad : Quad (N := Real) :=
  {| tl := {| p_x := 10 / 100; p_y := 10 / 100 |};
     tr := {| p_x := 40 / 100; p_y := 10 / 100 |};
     br := {| p_x := 40 / 100; p_y := 30 / 100 |};
     bl := {| p_x := 10 / 100; p_y := 30 / 100 |} |}.

Lemma eqb_false (x y : R) : x <> y -> RealOps.eqb x y = false.
Proof. intros H. unfold RealOps.eqb. destruct (Req_dec_T x y); [contradiction | reflexivity]. Qed.

Lemma eqb_refl (x : R) : RealOps.eqb x x = true.
Proof. unfold RealOps.eqb. destruct (Req_dec_T x x); [reflexivity | contradiction]. Qed.

Lemma orOne_nonzero (v : R) : v <> 0 -> orOne (N := Real) v = v.
Proof.
  intros H. unfold orOne. cbn [eqn ofZ Real].
  rewrite (eqb_false H), eqb_refl. reflexivity.
Qed.

Lemma quarter_turn : PI / 2 * 180 / PI = 90.
Proof. field. apply PI_neq0. Qed.

Lemma no_turn : 0 * 180 / PI = 0.
Proof. field. apply PI_neq0. Qed.

Ltac settle_lt :=
  repeat match goal with
  | |- context [RealOps.ltb ?x ?y] =>
      first [ rewrite (proj2 (ltb_true x y)) by lra
            | rewrite (proj2 (ltb_false x y)) by lra ]
  end.

Lemma horizontal_pair :
  bestPair (N := Real) (fun l => div (Number := Real) (rho l) (sin (Number := Real) (theta l)))
    [lineY10; lineY30]
  = Some (lineY10, lineY30).
Proof.
  unfold bestPair, maxSpread, pairsBelow, lineAt, gt, ratio.
  cbn [length seq flat_map map app Nat.add Nat.sub fold_left fst snd nth
       lineY10 lineY30 rho theta votes ofZ add sub mul div abs lt sin Real].
  rewrite sin_PI2.
  replace (Rabs (10 / 1 - 30 / 1)) with 20
    by (rewrite Rabs_left by lra; lra).
  settle_lt. rewrite (@orOne_nonzero 20) by lra.
  cbn [fst snd]. settle_lt. reflexivity.
Qed.

Lemma vertical_pair :
  bestPair (N := Real) (fun l => div (Number := Real) (rho l) (cos (Number := Real) (theta l)))
    [lineX10; lineX40]
  = Some (lineX10, lineX40).
Proof.
  unfold bestPair, maxSpread, pairsBelow, lineAt, gt, ratio.
  cbn [length seq flat_map map app Nat.add Nat.sub fold_left fst snd nth
       lineX10 lineX40 rho theta votes ofZ add sub mul div abs lt cos Real].
  rewrite cos_0.
  replace (Rabs (10 / 1 - 40 / 1)) with 30
    by (rewrite Rabs_left by lra; lra).
  settle_lt. rewrite (@orOne_nonzero 30) by lra.
  cbn [fst snd]. settle_lt. reflexivity.
Qed.

Lemma crossing (a b : R) :
  lineIntersection (N := Real)
    {| rho := a; theta := PI / 2; votes := 50 |} {| rho := b; theta := 0; votes := 50 |}
  = Some (b, a).
Proof.
  unfold lineIntersection, ratio.
  cbn [rho theta cos sin ofZ add sub mul div abs lt Real].
  rewrite cos_PI2, sin_PI2, cos_0, sin_0.
  replace (Rabs (0 * 0 - 1 * 1)) with 1
    by (rewrite Rabs_left by lra; lra).
  settle_lt. f_equal. f_equal; field.
Qed.

(** [findBestQuad] on the four lines returns the rectangle they bound. *)
Lemma fourLines_quad : findBestQuad (N := Real) fourLines 100 100 = Some smallQuad.
Proof.
  unfold findBestQuad, fourLines, gt.
  cbn [length Nat.ltb Nat.leb].
  cbn [filter lineY10 lineY30 lineX10 lineX40 theta ofZ mul div lt pi Real].
  rewrite quarter_turn, no_turn. settle_lt.
  cbn [andb orb filter length Nat.ltb Nat.leb slice Nat.sub skipn firstn].
  fold lineY10 lineY30 lineX10 lineX40.
  match goal with
  | |- context [bestPair ?f [lineY10; lineY30]] =>
      replace (bestPair f [lineY10; lineY30]) with (Some (lineY10, lineY30))
        by (symmetry; exact horizontal_pair)
  end.
  match goal with
  | |- context [bestPair ?f [lineX10; lineX40]] =>
      replace (bestPair f [lineX10; lineX40]) with (Some (lineX10, lineX40))
        by (symmetry; exact vertical_pair)
  end.
  unfold lineY10, lineY30, lineX10, lineX40. rewrite !crossing.
  unfold ratio, px, py.
  cbn [existsb fst snd ofZ neg add sub mul div abs lt maxn Real].
  rewrite (Rmax_left 100 100) by lra. settle_lt. cbn [orb].
  match goal with
  | |- context [Rabs ?e] => replace (Rabs e) with 2400
      by (replace e with 2400 by lra; symmetry; apply Rabs_right; lra)
  end.
  settle_lt. f_equal.
  unfold normalizeQuad, smallQuad, px, py. cbn [fst snd].
  rewrite !(@unitClamp_inside 10 100), !(@unitClamp_inside 40 100),
    !(@unitClamp_inside 30 100) by lra.
  reflexivity.
Qed.

(** An analysis in which only the Hough transform finds something. *)
Definition houghOnly : @Analysis Real :=
  {| ransacFront := {| ransacEnough := false; ransacCorners := fun _ => None |};
     segmentApprox := fun _ => [];
     contourApprox := fun _ => [];
     houghLines := fourLines |}.

(** The size test of the Hough strategy lets through a quadrilateral that
    encloses 600 of the 10000 square pixels of the picture: [detectDocument]
    resolves with it, its area is less than a tenth of the picture's, and
    [validateQuad] rejects it. *)
Lemma hough_small_quad :
  detectDocument (N := Real) (fun _ _ _ => houghOnly) (Picture tiltedPicture)
  = Some smallQuad /\
  contourArea (N := Real) (cornerPixels smallQuad 100 100) = 600 /\
  validateQuad (N := Real) (cornerPixels smallQuad 100 100) 100 100 = false.
Proof.
  assert (Ea : contourArea (N := Real) (cornerPixels smallQuad 100 100) = 600).
  { unfold contourArea, cornerPixels, smallQuad, pt, px, py. cbn.
    rewrite Rabs_right by lra. lra. }
  split; [|split; [exact Ea|]].
  - rewrite (@detectDocument_cascade Real (fun _ _ _ => houghOnly) tiltedPicture
               100 100 scaledSize_100)
      by (rewrite toNat_100; discriminate).
    unfold cascade, attempt, gradientRansacDetection, segmentBasedDetection,
      contourBasedDetection, bestOverRounds, orderedResult, houghOnly.
    cbn [ransacFront ransacEnough segmentApprox contourApprox houghLines
         seq fold_left fst snd app].
    rewrite fourLines_quad. reflexivity.
  - unfold validateQuad. destruct (isConvex _); [|reflexivity]. cbn [negb].
    rewrite Ea.
    assert (E : lt (Number := Real) 600 (mul (mul (ratio 1 10) 100) 100) = true).
    { apply ltb_true. unfold ratio. cbn. lra. }
    rewrite E. reflexivity.
Qed.
End HoughSize.

(** ** Undecodable payloads *)

Section InputFailure.
Context {N : Number}.

(** A payload that is no decodable picture. *)
Definition undecodable (payload : Payload) : Prop :=
  match payload with
  | Picture _ => False
  | _ => True
  end.

Definition isError (r : Reply) : Prop :=
  match r with
  | ErrorReply _ => True
  | _ => False
  end.

(** C9 (amended): for a payload that is not a decodable picture, [process]
    and [previewFilters] post an error reply with a message and no picture;
    [detect] posts a corners reply holding none, the reply of a detection
    miss. *)
Theorem undecodable_replies (analyse : list num -> nat -> nat -> Analysis)
    (payload : Payload) (corners : Quad) (mode : EnhanceMode) :
  undecodable payload ->
  (exists message,
     onMessage analyse (ProcessMessage payload corners mode) = ErrorReply message) /\
  (exists message,
     onMessage analyse (PreviewFiltersMessage payload corners) = ErrorReply message) /\
  onMessage analyse (DetectMessage payload) = CornersReply None.
Proof.
  destruct payload as [m | m | bmp]; simpl; intros H; try contradiction;
    repeat split; eexists; reflexivity.
Qed.
End InputFailure.

Definition blankQuad : @Quad Real :=
  {| tl := {| p_x := 0%R; p_y := 0%R |}; tr := {| p_x := 1%R; p_y := 0%R |};
     br := {| p_x := 1%R; p_y := 1%R |}; bl := {| p_x := 0%R; p_y := 1%R |} |}.

Lemma undecodable_replies_witness :
  (exists message,
     onMessage (N := Real) (fun _ _ _ => tiltedAnalysis)
       (ProcessMessage (NotAnImage "The source image could not be decoded.") blankQuad ModeBW)
     = ErrorReply message) /\
  (exists message,
     onMessage (N := Real) (fun _ _ _ => tiltedAnalysis)
       (PreviewFiltersMessage (NotAnImage "The source image could not be decoded.") blankQuad)
     = ErrorReply message) /\
  onMessage (N := Real) (fun _ _ _ => tiltedAnalysis)
    (DetectMessage (NotAnImage "The source image could not be decoded."))
  = CornersReply None.
Proof.
  apply (@undecodable_replies Real (fun _ _ _ => tiltedAnalysis)
           (NotAnImage "The source image could not be decoded.") blankQuad ModeBW).
  exact I.
Defined.

(** C9, as stated, fails for [detect]: an undecodable payload is answered
    with a corners reply holding none, not with an error. *)
Lemma detect_undecodable_is_silent :
  undecodable (N := Real) (NotAnImage "The source image could not be decoded.") /\
  onMessage (N := Real) (fun _ _ _ => tiltedAnalysis)
    (DetectMessage (NotAnImage "The source image could not be decoded."))
  = CornersReply None /\
  ~ isError
      (onMessage (N := Real) (fun _ _ _ => tiltedAnalysis)
         (DetectMessage (NotAnImage "The source image could not be decoded."))).
Proof.
  split; [exact I|]. split; [reflexivity|]. simpl. tauto.
Qed.

(** ** The warp: every destination pixel is written once *)

Section WarpStores.
Context {N : Number}.

(** The values stored at index [i] during a run, in program order. *)
Definition storesTo (i : nat) (wrs : list (nat * num)) : list num :=
  map snd (filter (fun wr => (fst wr =? i)%nat) wrs).

Lemma storesTo_app i (a b : list (nat * num)) :
  storesTo i (a ++ b) = storesTo i a ++ storesTo i b.
Proof. unfold storesTo. rewrite filter_app, map_app. reflexivity. Qed.

Lemma storesTo_flat_map i (f : nat -> list (nat * num)) (ks : list nat) :
  storesTo i (flat_map f ks) = flat_map (fun k => storesTo i (f k)) ks.
Proof.
  induction ks as [|k ks IH]; simpl; [reflexivity|].
  rewrite storesTo_app, IH. reflexivity.
Qed.

Lemma flat_map_none {A : Type} (g : nat -> list A) (ks : list nat) :
  (forall k, In k ks -> g k = []) -> flat_map g ks = [].
Proof.
  induction ks as [|k ks IH]; simpl; intros H; [reflexivity|].
  rewrite (H k) by auto. simpl. apply IH. auto.
Qed.

(** Only one round of a loop contributes. *)
Lemma flat_map_single {A : Type} (g : nat -> list A) (n k0 : nat) :
  (k0 < n)%nat ->
  (forall k, (k < n)%nat -> k <> k0 -> g k = []) ->
  flat_map g (seq 0 n) = g k0.
Proof.
  intros Hk Hz.
  assert (E : seq 0 n = seq 0 k0 ++ k0 :: seq (S k0) (n - S k0)).
  { replace n with (k0 + S (n - S k0))%nat at 1 by lia.
    rewrite seq_app. reflexivity. }
  rewrite E, flat_map_app. cbn [flat_map].
  rewrite (@flat_map_none _ g (seq 0 k0)), (@flat_map_none _ g (seq (S k0) _)).
  - simpl. rewrite app_nil_r. reflexivity.
  - intros k Hin. apply in_seq in Hin. apply Hz; lia.
  - intros k Hin. apply in_seq in Hin. apply Hz; lia.
Qed.

Variables (srcData : list num) (sw sh : nat) (H_inv : list num) (dw dh : nat).

(** Whether the destination pixel [(dx, dy)] maps into the source. *)
Definition mapsInside (dx dy : nat) : bool :=
  inSource (ofNat sw) (ofNat sh) (sourceOf H_inv (ofNat dx) (ofNat dy)).

(** The stores of the loop body for pixel [(dx', dy')], seen from byte [c] of
    pixel [(dx, dy)]. *)
Lemma pixelWrites_storesTo (dx dy dx' dy' c : nat) :
  (dx < dw)%nat -> (dx' < dw)%nat -> (c < 4)%nat ->
  storesTo ((dy * dw + dx) * 4 + c) (pixelWrites srcData sw sh H_inv dw dy' dx') =
  if ((dy' =? dy) && (dx' =? dx))%nat then
    if (c =? 3)%nat then [ofZ 255]
    else if mapsInside dx dy
         then [entry (bilinear srcData (ofNat sw) (ofNat sh)
                        (px (sourceOf H_inv (ofNat dx) (ofNat dy)))
                        (py (sourceOf H_inv (ofNat dx) (ofNat dy)))) c]
         else []
  else [].
Proof.
  intros Hdx Hdx' Hc. unfold pixelWrites, storesTo, mapsInside.
  destruct ((dy' =? dy) && (dx' =? dx))%nat eqn:E.
  - apply andb_prop in E. destruct E as [Ey Ex].
    apply Nat.eqb_eq in Ey, Ex. subst dy' dx'.
    set (idx := ((dy * dw + dx) * 4)%nat).
    destruct (inSource _ _ _); cbn [app filter map fst snd];
      repeat match goal with
      | |- context [(?a =? ?b)%nat] =>
          destruct (Nat.eqb_spec a b); try lia
      end; cbn [map snd]; try reflexivity;
      do 4 (destruct c as [|c]; try lia; try reflexivity).
  - assert (Hne : (dy' * dw + dx' <> dy * dw + dx)%nat).
    { intros Heq. apply andb_false_iff in E.
      assert (dy' = dy /\ dx' = dx) as [-> ->]
        by (apply (Nat.div_mod_unique dw); lia).
      rewrite !Nat.eqb_refl in E. destruct E; discriminate. }
    destruct (inSource _ _ _); cbn [app filter map fst snd];
      repeat match goal with
      | |- context [(?a =? ?b)%nat] =>
          destruct (Nat.eqb_spec a b); try lia
      end; reflexivity.
Qed.

(** The stores of a whole run to byte [c] of pixel [(dx, dy)] are those of
    the one loop round for that pixel. *)
Lemma warpWrites_storesTo (dx dy c : nat) :
  (dx < dw)%nat -> (dy < dh)%nat -> (c < 4)%nat ->
  storesTo ((dy * dw + dx) * 4 + c) (warpWrites srcData sw sh H_inv dw dh) =
  storesTo ((dy * dw + dx) * 4 + c) (pixelWrites srcData sw sh H_inv dw dy dx).
Proof.
  intros Hdx Hdy Hc. unfold warpWrites.
  set (i := ((dy * dw + dx) * 4 + c)%nat).
  rewrite storesTo_flat_map.
  rewrite (@flat_map_single _
             (fun k => storesTo i
                         (flat_map (pixelWrites srcData sw sh H_inv dw k) (seq 0 dw)))
             dh dy Hdy).
  - rewrite storesTo_flat_map.
    apply (@flat_map_single _
             (fun k => storesTo i (pixelWrites srcData sw sh H_inv dw dy k))
             dw dx Hdx).
    intros k Hk Hne. unfold i. rewrite pixelWrites_storesTo by assumption.
    rewrite Nat.eqb_refl. destruct (Nat.eqb_spec k dx); [contradiction|reflexivity].
  - intros k Hk Hne. rewrite storesTo_flat_map. apply flat_map_none.
    intros k' Hin. apply in_seq in Hin. unfold i.
    rewrite pixelWrites_storesTo by (assumption || lia).
    destruct (Nat.eqb_spec k dy); [contradiction|reflexivity].
Qed.

(** The buffer after a run, read at [i]: the last value stored there, or the
    initial one. *)
Lemma fold_store8_entry (wrs : list (nat * num)) (out : list num) (i : nat) :
  (i < length out)%nat ->
  entry (fold_left store8 wrs out) i =
  match rev (storesTo i wrs) with
  | [] => entry out i
  | v :: _ => clamp8 v
  end.
Proof.
  revert out. induction wrs as [|[j v] wrs IH] using rev_ind; intros out Hi.
  - reflexivity.
  - rewrite fold_left_app, storesTo_app, rev_app_distr. cbn [fold_left].
    unfold store8 at 1. cbn [fst snd]. unfold entry at 1.
    unfold storesTo at 1. cbn [filter fst].
    destruct (Nat.eqb_spec j i) as [->|Hne].
    + cbn [map snd rev app]. apply nth_upd_eq.
      clear IH. revert out Hi. induction wrs as [|w wrs IHw]; intros out Hi;
        [exact Hi|]. cbn [fold_left]. apply IHw. unfold store8.
      rewrite length_upd. exact Hi.
    + cbn [map rev app]. rewrite nth_upd_ne by exact Hne. apply IH. exact Hi.
Qed.

(** What C5 asks of the destination pixel [(dx, dy)]: the alpha byte is
    stored exactly once, with 255; each colour byte is stored once when the
    pixel maps into the source and not at all otherwise; in the buffer
    returned the alpha byte holds 255 as a [Uint8ClampedArray] stores it, and
    a pixel that maps outside the source holds 0, 0, 0 in its colour bytes. *)
Definition storedOnce (dx dy : nat) : Prop :=
  let idx := ((dy * dw + dx) * 4)%nat in
  let wrs := warpWrites srcData sw sh H_inv dw dh in
  let out := warp srcData sw sh H_inv dw dh in
  storesTo (idx + 3) wrs = [ofZ 255] /\
  (forall c, (c < 3)%nat ->
             length (storesTo (idx + c) wrs) =
             if mapsInside dx dy then 1%nat else 0%nat) /\
  entry out (idx + 3) = clamp8 (ofZ 255) /\
  (mapsInside dx dy = false ->
   forall c, (c < 3)%nat -> entry out (idx + c) = ofZ 0).

(** C5: every destination pixel of [warp] is written exactly once, and one
    whose source coordinate falls outside the source image is black with
    full opacity. *)
Theorem warp_every_pixel_once (dx dy : nat) :
  (dx < dw)%nat -> (dy < dh)%nat -> storedOnce dx dy.
Proof.
  intros Hdx Hdy. unfold storedOnce. set (idx := ((dy * dw + dx) * 4)%nat).
  set (wrs := warpWrites srcData sw sh H_inv dw dh).
  set (out := warp srcData sw sh H_inv dw dh).
  assert (Hlen : forall c, (c < 4)%nat -> (idx + c < length (repeat (ofZ 0) (dw * dh * 4)))%nat).
  { intros c Hc. rewrite repeat_length. unfold idx. nia. }
  assert (Hs : forall c, (c < 4)%nat ->
            storesTo (idx + c) wrs =
            if (c =? 3)%nat then [ofZ 255]
            else if mapsInside dx dy
                 then [entry (bilinear srcData (ofNat sw) (ofNat sh)
                                (px (sourceOf H_inv (ofNat dx) (ofNat dy)))
                                (py (sourceOf H_inv (ofNat dx) (ofNat dy)))) c]
                 else []).
  { intros c Hc. unfold wrs, idx. rewrite warpWrites_storesTo by assumption.
    rewrite pixelWrites_storesTo by assumption.
    rewrite !Nat.eqb_refl. reflexivity. }
  refine (conj _ (conj _ (conj _ _))).
  - rewrite Hs by lia. reflexivity.
  - intros c Hc. rewrite Hs by lia.
    destruct (Nat.eqb_spec c 3); [lia|]. destruct (mapsInside dx dy); reflexivity.
  - unfold out, warp. rewrite fold_store8_entry by (apply Hlen; lia).
    fold wrs. rewrite Hs by lia. reflexivity.
  - intros Hout c Hc. unfold out, warp.
    rewrite fold_store8_entry by (apply Hlen; lia).
    fold wrs. rewrite Hs by lia. rewrite Hout.
    destruct (Nat.eqb_spec c 3); [lia|]. cbn [rev].
    unfold entry. apply nth_repeat_lt.
    specialize (Hlen c ltac:(lia)). rewrite repeat_length in Hlen. exact Hlen.
Qed.
End WarpStores.

(** 255 and 0 are stored as they are, in real and in binary64 arithmetic. *)
Lemma clamp8_255_real : clamp8 (Number := Real) 255%R = 255%R.
Proof.
  cbn. unfold RealOps.rclamp8.
  destruct (Rle_dec 255 0); [lra|]. destruct (Rle_dec 255 255); [reflexivity|lra].
Qed.

Lemma clamp8_0_real : clamp8 (Number := Real) 0%R = 0%R.
Proof.
  cbn. unfold RealOps.rclamp8. destruct (Rle_dec 0 0); [reflexivity|lra].
Qed.

Lemma clamp8_255_binary64 (m : Libm) :
  PrimFloat.eqb (clamp8 (Number := Binary64 m) (ofZ 255)) 255%float = true.
Proof. reflexivity. Qed.

Lemma warp_every_pixel_once_witness :
  storedOnce (N := Real) [] 1 1 [1; 0; 0; 0; 1; 0; 0; 0; 1]%R 2 2 1 1.
Proof.
  apply (@warp_every_pixel_once Real [] 1 1 [1; 0; 0; 0; 1; 0; 0; 0; 1]%R 2 2 1 1);
    lia.
Defined.

(** ** The linear solver in exact arithmetic *)

Section SolveExact.
Local Open Scope R_scope.

(** Rows as linear equations: [r] stands for
    [r[0] * x[0] + ... + r[n-1] * x[n-1] = r[n]]. *)
Definition sumOver (f : nat -> R) (l : list nat) : R :=
  fold_right (fun j acc => f j + acc) 0 l.

Definition dot (n : nat) (r x : list R) : R :=
  sumOver (fun j => entry (N := Real) r j * entry (N := Real) x j) (seq 0 n).

Definition satisfies (n : nat) (M : list (list R)) (x : list R) : Prop :=
  forall i, (i < n)%nat ->
    dot n (rowAt (N := Real) M i) x = entry (N := Real) (rowAt (N := Real) M i) n.

Definition wellFormed (n : nat) (M : list (list R)) : Prop :=
  length M = n /\ forall i, (i < n)%nat -> length (rowAt (N := Real) M i) = S n.

Lemma sumOver_app f l1 l2 : sumOver f (l1 ++ l2) = sumOver f l1 + sumOver f l2.
Proof.
  induction l1 as [|a l1 IH]; simpl; [lra|]. rewrite IH. lra.
Qed.

Lemma sumOver_ext f g l :
  (forall j, In j l -> f j = g j) -> sumOver f l = sumOver g l.
Proof.
  induction l as [|a l IH]; simpl; intros H; [reflexivity|].
  rewrite (H a) by auto. rewrite IH by auto. reflexivity.
Qed.

Lemma sumOver_zero f l : (forall j, In j l -> f j = 0) -> sumOver f l = 0.
Proof.
  induction l as [|a l IH]; simpl; intros H; [reflexivity|].
  rewrite (H a) by auto. rewrite IH by auto. lra.
Qed.

Lemma sumOver_linear f g c l :
  sumOver (fun j => f j - c * g j) l = sumOver f l - c * sumOver g l.
Proof.
  induction l as [|a l IH]; simpl; [lra|]. rewrite IH. lra.
Qed.

(** *** The row operations *)

Lemma eliminateRow_spec (pivot row : list R) (col n : nat) :
  (col <= n)%nat -> length row = S n ->
  let f := entry (N := Real) row col / entry (N := Real) pivot col in
  let row' := eliminateRow (N := Real) pivot row col n in
  length row' = S n /\
  forall j, entry (N := Real) row' j =
            if ((col <=? j) && (j <=? n))%nat
            then entry (N := Real) row j - f * entry (N := Real) pivot j
            else entry (N := Real) row j.
Proof.
  intros Hc Hl f row'. unfold row', eliminateRow. fold f.
  assert (G : forall k, (col + k <= n + 1)%nat ->
    let r := fold_left
               (fun r j => upd j (sub (Number := Real) (entry (N := Real) r j)
                                     (mul (Number := Real) f (entry (N := Real) pivot j))) r)
               (seq col k) row in
    length r = S n /\
    forall j, entry (N := Real) r j =
              if ((col <=? j) && (j <? col + k))%nat
              then entry (N := Real) row j - f * entry (N := Real) pivot j
              else entry (N := Real) row j).
  { induction k as [|k IH]; intros Hk; cbv zeta.
    - cbn [seq fold_left]. split; [exact Hl|]. intros j.
      destruct (Nat.leb_spec col j), (Nat.ltb_spec j (col + 0)); cbn [andb];
        try reflexivity; lia.
    - rewrite seq_S, fold_left_app. cbn [fold_left].
      specialize (IH ltac:(lia)). cbv zeta in IH.
      match type of IH with length ?t = _ /\ _ => set (r := t) in * end.
      destruct IH as [Hlr Her].
      split; [rewrite length_upd; exact Hlr|]. intros j.
      destruct (Nat.eq_dec j (col + k)) as [->|NE].
      + unfold entry at 1. rewrite nth_upd_eq by (apply (lt_length _ Hlr); lia).
        rewrite Her.
        destruct (Nat.leb_spec col (col + k)), (Nat.ltb_spec (col + k) (col + k)),
          (Nat.ltb_spec (col + k) (col + S k)); cbn [andb]; try lia. reflexivity.
      + unfold entry at 1. rewrite nth_upd_ne by (intros E; apply NE; symmetry; exact E).
        fold (entry (N := Real) r j). rewrite Her.
        destruct (Nat.leb_spec col j), (Nat.ltb_spec j (col + k)),
          (Nat.ltb_spec j (col + S k)); cbn [andb]; try reflexivity; lia. }
  specialize (G (n + 1 - col)%nat ltac:(lia)). cbv zeta in G.
  destruct G as [Hl' He]. split; [exact Hl'|]. intros j. rewrite He.
  destruct (Nat.leb_spec col j), (Nat.ltb_spec j (col + (n + 1 - col))),
    (Nat.leb_spec j n); cbn [andb]; try reflexivity; lia.
Qed.

Lemma rowAt_upd_eq (M : list (list R)) (i : nat) (r : list R) :
  (i < length M)%nat -> rowAt (N := Real) (upd i r M) i = r.
Proof. intros H. unfold rowAt. apply nth_upd_eq. exact H. Qed.

Lemma rowAt_upd_ne (M : list (list R)) (i j : nat) (r : list R) :
  i <> j -> rowAt (N := Real) (upd i r M) j = rowAt (N := Real) M j.
Proof. intros H. unfold rowAt. apply nth_upd_ne. exact H. Qed.

Lemma swapRows_spec (M : list (list R)) (i j : nat) :
  (i < length M)%nat -> (j < length M)%nat ->
  length (swapRows (N := Real) M i j) = length M /\
  forall k, rowAt (N := Real) (swapRows (N := Real) M i j) k =
            if (k =? j)%nat then rowAt (N := Real) M i
            else if (k =? i)%nat then rowAt (N := Real) M j
            else rowAt (N := Real) M k.
Proof.
  intros Hi Hj. unfold swapRows. split; [rewrite !length_upd; reflexivity|].
  intros k. destruct (Nat.eqb_spec k j) as [->|Nj].
  - apply rowAt_upd_eq. rewrite length_upd. exact Hj.
  - rewrite rowAt_upd_ne by (intros E; apply Nj; symmetry; exact E).
    destruct (Nat.eqb_spec k i) as [->|Ni].
    + apply rowAt_upd_eq. exact Hi.
    + apply rowAt_upd_ne. intros E; apply Ni; symmetry; exact E.
Qed.

Lemma pivotRow_range (M : list (list R)) (col n : nat) :
  (col < n)%nat -> (col <= pivotRow (N := Real) M col n < n)%nat.
Proof.
  intros Hc. unfold pivotRow.
  assert (G : forall k start, (col <= start < n)%nat -> (col + 1 + k <= n)%nat ->
            (col <= fold_left
                      (fun maxRow row =>
                         if gt (N := Real) (abs (Number := Real) (cell (N := Real) M row col))
                              (abs (Number := Real) (cell (N := Real) M maxRow col))
                         then row else maxRow)
                      (seq (col + 1) k) start < n)%nat).
  { induction k as [|k IH]; intros start Hs Hk; [exact Hs|].
    rewrite seq_S, fold_left_app. cbn [fold_left].
    specialize (IH start Hs ltac:(lia)).
    destruct (gt _ _); lia. }
  apply G; lia.
Qed.

Lemma eliminate_spec (M : list (list R)) (col n : nat) :
  (col < n)%nat -> wellFormed n M ->
  let M' := eliminate (N := Real) M col n in
  length M' = n /\
  forall i, rowAt (N := Real) M' i =
            if ((col <? i) && (i <? n))%nat
            then eliminateRow (N := Real) (rowAt (N := Real) M col)
                   (rowAt (N := Real) M i) col n
            else rowAt (N := Real) M i.
Proof.
  intros Hc [Hl Hr] M'. unfold M', eliminate.
  assert (G : forall k, (col + 1 + k <= n)%nat ->
    let Mk := fold_left
                (fun M0 row =>
                   upd row (eliminateRow (N := Real) (rowAt (N := Real) M0 col)
                              (rowAt (N := Real) M0 row) col n) M0)
                (seq (col + 1) k) M in
    length Mk = n /\
    forall i, rowAt (N := Real) Mk i =
              if ((col <? i) && (i <? col + 1 + k))%nat
              then eliminateRow (N := Real) (rowAt (N := Real) M col)
                     (rowAt (N := Real) M i) col n
              else rowAt (N := Real) M i).
  { induction k as [|k IH]; intros Hk; cbv zeta.
    - cbn [seq fold_left]. split; [exact Hl|]. intros i.
      destruct (Nat.ltb_spec col i), (Nat.ltb_spec i (col + 1 + 0)); cbn [andb];
        try reflexivity; lia.
    - rewrite seq_S, fold_left_app. cbn [fold_left].
      specialize (IH ltac:(lia)). cbv zeta in IH.
      match type of IH with length ?t = _ /\ _ => set (Mk := t) in * end.
      destruct IH as [Hlk Hrk].
      split; [rewrite length_upd; exact Hlk|]. intros i.
      destruct (Nat.eq_dec i (col + 1 + k)) as [->|NE].
      + rewrite rowAt_upd_eq by (apply (lt_length _ Hlk); lia).
        rewrite !Hrk.
        destruct (Nat.ltb_spec col col); [lia|]. cbn [andb].
        destruct (Nat.ltb_spec col (col + 1 + k)), (Nat.ltb_spec (col + 1 + k) (col + 1 + k)),
          (Nat.ltb_spec (col + 1 + k) (col + 1 + S k)); cbn [andb]; try lia. reflexivity.
      + rewrite rowAt_upd_ne by (intros E; apply NE; symmetry; exact E).
        rewrite Hrk.
        destruct (Nat.ltb_spec col i), (Nat.ltb_spec i (col + 1 + k)),
          (Nat.ltb_spec i (col + 1 + S k)); cbn [andb]; try reflexivity; lia. }
  specialize (G (n - (col + 1))%nat ltac:(lia)). cbv zeta in G.
  destruct G as [Hl' He]. split; [exact Hl'|]. intros i. rewrite He.
  destruct (Nat.ltb_spec col i), (Nat.ltb_spec i (col + 1 + (n - (col + 1)))),
    (Nat.ltb_spec i n); cbn [andb]; try reflexivity; lia.
Qed.

(** *** The elimination loop *)

(** Before round [col]: rows from [col] on are zero left of column [col], and
    the rows above are finished, with a non-zero diagonal entry. *)
Definition zerosLeft (n col : nat) (M : list (list R)) : Prop :=
  forall i j, (col <= i < n)%nat -> (j < col)%nat -> cell (N := Real) M i j = 0.

Definition finishedAbove (col : nat) (M : list (list R)) : Prop :=
  forall i, (i < col)%nat ->
    cell (N := Real) M i i <> 0 /\
    forall j, (j < i)%nat -> cell (N := Real) M i j = 0.

Definition eliminated (n col : nat) (M : list (list R)) : Prop :=
  wellFormed n M /\ zerosLeft n col M /\ finishedAbove col M.

Lemma cancel_pivot (a b : R) : b <> 0 -> a - a / b * b = 0.
Proof. intros Hb. field. exact Hb. Qed.

Lemma dot_eliminateRow (n col : nat) (pivot row x : list R) :
  (col <= n)%nat -> length row = S n ->
  (forall j, (j < col)%nat -> entry (N := Real) pivot j = 0) ->
  let f := entry (N := Real) row col / entry (N := Real) pivot col in
  dot n (eliminateRow (N := Real) pivot row col n) x = dot n row x - f * dot n pivot x /\
  entry (N := Real) (eliminateRow (N := Real) pivot row col n) n
  = entry (N := Real) row n - f * entry (N := Real) pivot n.
Proof.
  intros Hc Hl Hz f.
  destruct (@eliminateRow_spec pivot row col n Hc Hl) as [_ He]. fold f in He.
  split.
  - unfold dot. rewrite <- sumOver_linear. apply sumOver_ext.
    intros j Hj. apply in_seq in Hj. rewrite He.
    destruct (Nat.leb_spec col j); cbn [andb].
    + destruct (Nat.leb_spec j n); [|lia]. lra.
    + rewrite (Hz j) by lia. lra.
  - rewrite He. destruct (Nat.leb_spec col n), (Nat.leb_spec n n); cbn [andb];
      try lia. reflexivity.
Qed.

Lemma forwardStep_spec (n col : nat) (M M' : list (list R)) :
  (col < n)%nat -> eliminated n col M ->
  forwardStep (N := Real) n (Some M) col = Some M' ->
  eliminated n (S col) M' /\
  forall x, satisfies n M' x -> satisfies n M x.
Proof.
  intros Hc (Hwf & Hz & Hf) Hstep. unfold forwardStep in Hstep.
  destruct Hwf as [Hl Hr].
  pose proof (@pivotRow_range M col n Hc) as Hp.
  set (p := pivotRow (N := Real) M col n) in *.
  destruct (@swapRows_spec M col p (lt_length _ Hl Hc) (lt_length _ Hl (proj2 Hp)))
    as [Hl1 Hr1].
  set (M1 := swapRows (N := Real) M col p) in *.
  assert (Hwf1 : wellFormed n M1).
  { split; [exact (eq_trans Hl1 Hl)|]. intros i Hi. rewrite Hr1.
    destruct (i =? p)%nat; [apply Hr; lia|].
    destruct (i =? col)%nat; apply Hr; lia. }
  assert (Hz1 : zerosLeft n col M1).
  { intros i j Hi Hj. unfold cell. rewrite Hr1.
    destruct (i =? p)%nat; [apply (Hz col j); lia|].
    destruct (i =? col)%nat; [apply (Hz p j); lia | apply (Hz i j); lia]. }
  assert (Hf1 : finishedAbove col M1).
  { intros i Hi. unfold cell. rewrite Hr1.
    destruct (Nat.eqb_spec i p); [lia|]. destruct (Nat.eqb_spec i col); [lia|].
    apply Hf. exact Hi. }
  destruct (lt (Number := Real) (abs (Number := Real) (cell (N := Real) M1 col col)) _)
    eqn:Epiv; [discriminate|].
  injection Hstep as <-.
  assert (Hpiv : cell (N := Real) M1 col col <> 0).
  { apply ltb_false in Epiv. unfold ratio in Epiv. cbn in Epiv.
    intros E. rewrite E, Rabs_R0 in Epiv. lra. }
  destruct (@eliminate_spec M1 col n Hc Hwf1) as [Hl2 Hr2].
  set (M2 := eliminate (N := Real) M1 col n) in *.
  set (piv := rowAt (N := Real) M1 col) in *.
  assert (Hpz : forall j, (j < col)%nat -> entry (N := Real) piv j = 0).
  { intros j Hj. apply (Hz1 col j); lia. }
  split; [split; [|split]|].
  - split; [exact Hl2|]. intros i Hi. rewrite Hr2.
    destruct ((col <? i) && (i <? n))%nat; [|apply Hwf1; exact Hi].
    apply eliminateRow_spec; [lia | apply Hwf1; exact Hi].
  - intros i j Hi Hj. unfold cell. rewrite Hr2.
    destruct (Nat.ltb_spec col i); [|lia]. destruct (Nat.ltb_spec i n); [|lia].
    cbn [andb].
    destruct (@eliminateRow_spec piv (rowAt (N := Real) M1 i) col n
                ltac:(lia) ltac:(apply Hwf1; lia)) as [_ He].
    rewrite He.
    destruct (Nat.leb_spec col j); cbn [andb].
    + assert (j = col) by lia. subst j.
      destruct (Nat.leb_spec col n); [|lia].
      apply cancel_pivot. exact Hpiv.
    + apply (Hz1 i j); lia.
  - intros i Hi. unfold cell. rewrite Hr2.
    destruct (Nat.ltb_spec col i); [lia|]. cbn [andb].
    destruct (Nat.eq_dec i col) as [->|NE].
    + split; [exact Hpiv|]. intros j Hj. apply (Hz1 col j); lia.
    + apply Hf1. lia.
  - intros x Hs.
    assert (Hs1 : satisfies n M1 x).
    { assert (Hcol : dot n piv x = entry (N := Real) piv n).
      { pose proof (Hs col Hc) as Hsc. rewrite Hr2 in Hsc.
        destruct (Nat.ltb_spec col col); [lia|]. exact Hsc. }
      intros i Hi. pose proof (Hs i Hi) as Hsi. rewrite Hr2 in Hsi.
      destruct (Nat.ltb_spec col i); cbn [andb] in Hsi; [|exact Hsi].
      destruct (Nat.ltb_spec i n); [|lia]. cbn [andb] in Hsi.
      destruct (@dot_eliminateRow n col piv (rowAt (N := Real) M1 i) x
                  ltac:(lia) ltac:(apply Hwf1; lia) Hpz) as [Ed Ee].
      rewrite Ed, Ee, Hcol in Hsi. lra. }
    intros i Hi.
    destruct (Nat.eq_dec i col) as [->|Nc].
    + specialize (Hs1 p ltac:(lia)). rewrite Hr1 in Hs1.
      rewrite Nat.eqb_refl in Hs1. exact Hs1.
    + destruct (Nat.eq_dec i p) as [->|Np].
      * specialize (Hs1 col Hc). rewrite Hr1 in Hs1.
        destruct (Nat.eqb_spec col p); [congruence|].
        rewrite Nat.eqb_refl in Hs1. exact Hs1.
      * specialize (Hs1 i Hi). rewrite Hr1 in Hs1.
        destruct (Nat.eqb_spec i p); [contradiction|].
        destruct (Nat.eqb_spec i col); [contradiction|]. exact Hs1.
Qed.

Lemma forwardStep_none (n : nat) (l : list nat) :
  fold_left (forwardStep (N := Real) n) l None = None.
Proof. induction l as [|a l IH]; [reflexivity | exact IH]. Qed.

Lemma forward_spec (n k : nat) (M0 Mk : list (list R)) :
  (k <= n)%nat -> eliminated n 0 M0 ->
  fold_left (forwardStep (N := Real) n) (seq 0 k) (Some M0) = Some Mk ->
  eliminated n k Mk /\ forall x, satisfies n Mk x -> satisfies n M0 x.
Proof.
  revert Mk. induction k as [|k IH]; intros Mk Hk H0 Hrun.
  - injection Hrun as <-. split; [exact H0 | auto].
  - rewrite seq_S, fold_left_app in Hrun. cbn [fold_left Nat.add] in Hrun.
    destruct (fold_left (forwardStep (N := Real) n) (seq 0 k) (Some M0))
      as [M|] eqn:Eprev; [|discriminate].
    destruct (IH M ltac:(lia) H0 eq_refl) as [Hinv Hsound].
    destruct (@forwardStep_spec n k M Mk ltac:(lia) Hinv Hrun) as [Hinv' Hs'].
    split; [exact Hinv' | auto].
Qed.

(** *** Back substitution *)

Definition rowHolds (n : nat) (M : list (list R)) (x : list R) (r : nat) : Prop :=
  sumOver (fun j => cell (N := Real) M r j * entry (N := Real) x j) (seq r (n - r))
  = cell (N := Real) M r n.

Lemma fold_minus (f : nat -> R) (l : list nat) (a : R) :
  fold_left (fun acc j => acc - f j) l a = a - sumOver f l.
Proof.
  revert a. induction l as [|j l IH]; intros a; simpl; [lra|].
  rewrite IH. lra.
Qed.

Lemma sumOver_cons f a l : sumOver f (a :: l) = f a + sumOver f l.
Proof. reflexivity. Qed.

Lemma solve_pivot (a c s : R) : a <> 0 -> a * ((c - s) / a) + s = c.
Proof. intros Ha. field. exact Ha. Qed.

Definition backStep (n : nat) (M : list (list R)) (x : list R) (i : nat) : list R :=
  let xi := fold_left (fun acc j => acc - cell (N := Real) M i j * entry (N := Real) x j)
              (seq (i + 1) (n - (i + 1))) (cell (N := Real) M i n) in
  upd i (xi / cell (N := Real) M i i) x.

Lemma backStep_spec (n : nat) (M : list (list R)) (x : list R) (k : nat) :
  (k < n)%nat -> length x = n -> cell (N := Real) M k k <> 0 ->
  (forall r, (k < r < n)%nat -> rowHolds n M x r) ->
  length (backStep n M x k) = n /\
  forall r, (k <= r < n)%nat -> rowHolds n M (backStep n M x k) r.
Proof.
  intros Hk Hl Hd Hrows. unfold backStep. rewrite fold_minus.
  set (s := sumOver (fun j => cell (N := Real) M k j * entry (N := Real) x j)
              (seq (k + 1) (n - (k + 1)))).
  set (v := (cell (N := Real) M k n - s) / cell (N := Real) M k k).
  split; [rewrite length_upd; exact Hl|].
  assert (Hkeep : forall r j, (k < j)%nat ->
            cell (N := Real) M r j * entry (N := Real) (upd k v x) j
            = cell (N := Real) M r j * entry (N := Real) x j).
  { intros r j Hj. unfold entry. rewrite nth_upd_ne by lia. reflexivity. }
  intros r Hr. unfold rowHolds.
  destruct (Nat.eq_dec r k) as [->|NE].
  - replace (n - k)%nat with (S (n - (k + 1))) by lia.
    cbn [seq]. rewrite sumOver_cons.
    replace (S k) with (k + 1)%nat by lia.
    rewrite (@sumOver_ext _ (fun j => cell (N := Real) M k j * entry (N := Real) x j))
      by (intros j Hj; apply in_seq in Hj; apply Hkeep; lia).
    fold s. unfold entry at 1.
    rewrite nth_upd_eq by (apply (lt_length _ Hl); lia).
    apply solve_pivot. exact Hd.
  - rewrite <- (Hrows r ltac:(lia)). apply sumOver_ext.
    intros j Hj. apply in_seq in Hj. apply Hkeep. lia.
Qed.

Lemma backSubstitute_fold (n : nat) (M : list (list R)) :
  backSubstitute (N := Real) M n
  = fold_left (backStep n M) (rev (seq 0 n)) (repeat 0 n).
Proof. reflexivity. Qed.

Lemma back_fold (n : nat) (M : list (list R)) (k : nat) (x : list R) :
  (forall i, (i < n)%nat -> cell (N := Real) M i i <> 0) ->
  (k <= n)%nat -> length x = n ->
  (forall r, (k <= r < n)%nat -> rowHolds n M x r) ->
  length (fold_left (backStep n M) (rev (seq 0 k)) x) = n /\
  forall r, (r < n)%nat ->
    rowHolds n M (fold_left (backStep n M) (rev (seq 0 k)) x) r.
Proof.
  intros Hd. revert x. induction k as [|k IH]; intros x Hk Hl Hrows.
  - cbn. split; [exact Hl|]. intros r Hr. apply Hrows. lia.
  - rewrite seq_S, rev_app_distr. cbn [rev app fold_left Nat.add].
    destruct (@backStep_spec n M x k ltac:(lia) Hl (Hd k ltac:(lia))) as [Hl' Hr'].
    { intros r Hr. apply Hrows. lia. }
    apply IH; [lia | exact Hl' | exact Hr'].
Qed.

Lemma backSubstitute_spec (n : nat) (M : list (list R)) :
  eliminated n n M ->
  length (backSubstitute (N := Real) M n) = n /\
  satisfies n M (backSubstitute (N := Real) M n).
Proof.
  intros (Hwf & _ & Hf). rewrite backSubstitute_fold.
  destruct (@back_fold n M n (repeat 0 n)) as [Hl Hrows].
  - intros i Hi. apply Hf. exact Hi.
  - lia.
  - apply repeat_length.
  - intros r Hr. lia.
  - split; [exact Hl|]. intros i Hi. unfold dot.
    replace n with (i + (n - i))%nat at 1 by lia.
    rewrite seq_app, sumOver_app. cbn [Nat.add].
    rewrite sumOver_zero.
    + rewrite Rplus_0_l. apply Hrows. exact Hi.
    + intros j Hj. apply in_seq in Hj.
      fold (cell (N := Real) M i j).
      rewrite (proj2 (Hf i Hi) j) by lia. apply Rmult_0_l.
Qed.

Definition squareSystem (n : nat) (A : list (list R)) (b : list R) : Prop :=
  length b = n /\ forall i, (i < n)%nat -> length (rowAt (N := Real) A i) = n.

Lemma augmented_row (n : nat) (A : list (list R)) (b : list R) (i : nat) :
  squareSystem n A b -> (i < n)%nat ->
  rowAt (N := Real) (augmented (N := Real) A b) i
  = rowAt (N := Real) A i ++ [entry (N := Real) b i].
Proof.
  intros [Hb _] Hi. unfold augmented, rowAt at 1.
  rewrite (nth_indep _ [] (rowAt (N := Real) A 0 ++ [entry (N := Real) b 0]))
    by (rewrite length_map, length_seq; apply (lt_length _ Hb); exact Hi).
  rewrite (map_nth (fun i => rowAt (N := Real) A i ++ [entry (N := Real) b i])).
  rewrite seq_nth by (apply (lt_length _ Hb); exact Hi). reflexivity.
Qed.

Lemma augmented_eliminated (n : nat) (A : list (list R)) (b : list R) :
  squareSystem n A b -> eliminated n 0 (augmented (N := Real) A b).
Proof.
  intros Hsq. split; [split|split].
  - unfold augmented. rewrite length_map, length_seq. exact (proj1 Hsq).
  - intros i Hi. rewrite (augmented_row Hsq Hi), length_app.
    rewrite (proj2 Hsq i Hi). cbn. lia.
  - intros i j _ Hj. lia.
  - intros i Hi. lia.
Qed.

Lemma entry_app_last (r : list R) (v : R) (n : nat) :
  length r = n -> entry (N := Real) (r ++ [v]) n = v.
Proof.
  intros <-. unfold entry. rewrite app_nth2 by lia.
  rewrite Nat.sub_diag. reflexivity.
Qed.

Lemma entry_app_front (r : list R) (v : R) (j : nat) :
  (j < length r)%nat -> entry (N := Real) (r ++ [v]) j = entry (N := Real) r j.
Proof. intros Hj. unfold entry. apply app_nth1. exact Hj. Qed.

Lemma solve_unfold (A : list (list R)) (b : list R) :
  solve (N := Real) A b
  = match fold_left (forwardStep (N := Real) (length b)) (seq 0 (length b))
            (Some (augmented (N := Real) A b)) with
    | None => None
    | Some M => Some (backSubstitute (N := Real) M (length b))
    end.
Proof. reflexivity. Qed.

Lemma solve_sound (n : nat) (A : list (list R)) (b x : list R) :
  squareSystem n A b -> solve (N := Real) A b = Some x ->
  length x = n /\
  forall i, (i < n)%nat ->
    dot n (rowAt (N := Real) A i) x = entry (N := Real) b i.
Proof.
  intros Hsq Hrun. rewrite solve_unfold, (proj1 Hsq) in Hrun.
  destruct (fold_left (forwardStep (N := Real) n) (seq 0 n)
              (Some (augmented (N := Real) A b))) as [M|] eqn:Efwd; [|discriminate].
  injection Hrun as <-.
  destruct (@forward_spec n n _ M (Nat.le_refl n) (augmented_eliminated Hsq) Efwd)
    as [Hinv Hsound].
  destruct (backSubstitute_spec Hinv) as [Hl Hsat].
  split; [exact Hl|]. intros i Hi.
  pose proof (Hsound _ Hsat i Hi) as Hrow.
  rewrite (augmented_row Hsq Hi) in Hrow.
  rewrite (entry_app_last _ _ (proj2 Hsq i Hi)) in Hrow.
  rewrite <- Hrow. apply sumOver_ext. intros j Hj. apply in_seq in Hj.
  rewrite (@entry_app_front (rowAt (N := Real) A i) _ j); [reflexivity|].
  apply (lt_length _ (proj2 Hsq i Hi)). lia.
Qed.
End SolveExact.

(** ** The homography in exact arithmetic *)

Section HomographyExact.
Local Open Scope R_scope.

(** [H] sends the point [s] to the point [d] of the projective plane. *)
Definition sends (H : list R) (s d : R * R) : Prop :=
  let w := entry (N := Real) H 6 * fst s + entry (N := Real) H 7 * snd s
           + entry (N := Real) H 8 in
  entry (N := Real) H 0 * fst s + entry (N := Real) H 1 * snd s
    + entry (N := Real) H 2 = fst d * w /\
  entry (N := Real) H 3 * fst s + entry (N := Real) H 4 * snd s
    + entry (N := Real) H 5 = snd d * w.

Lemma dlt_first (sx sy dx h0 h1 h2 h3 h4 h5 h6 h7 : R) :
  sx * h0 + (sy * h1 + (1 * h2 + (0 * h3 + (0 * h4 + (0 * h5 +
    (- dx * sx * h6 + (- dx * sy * h7 + 0))))))) = dx ->
  h0 * sx + h1 * sy + h2 = dx * (h6 * sx + h7 * sy + 1).
Proof. intros E. lra. Qed.

Lemma dlt_second (sx sy dy h0 h1 h2 h3 h4 h5 h6 h7 : R) :
  0 * h0 + (0 * h1 + (0 * h2 + (sx * h3 + (sy * h4 + (1 * h5 +
    (- dy * sx * h6 + (- dy * sy * h7 + 0))))))) = dy ->
  h3 * sx + h4 * sy + h5 = dy * (h6 * sx + h7 * sy + 1).
Proof. intros E. lra. Qed.

Lemma computeHomography_sound (srcPts dstPts : list (R * R)) (H : list R) :
  computeHomography (N := Real) srcPts dstPts = Some H ->
  entry (N := Real) H 8 = 1 /\
  forall i, (i < 4)%nat ->
    sends H (pt (N := Real) srcPts i) (pt (N := Real) dstPts i).
Proof.
  unfold computeHomography. cbv zeta.
  match goal with
  | |- context [solve (N := Real) ?A ?b] =>
      set (A0 := A); set (b0 := b);
      destruct (solve (N := Real) A0 b0) as [h|] eqn:Esolve; [|discriminate]
  end.
  intros E. injection E as <-.
  assert (Hsq : squareSystem 8 A0 b0).
  { split; [reflexivity|]. intros i Hi.
    do 8 (destruct i as [|i]; [reflexivity|]). lia. }
  destruct (solve_sound Hsq Esolve) as [_ Hrows].
  split; [reflexivity|].
  intros i Hi. unfold sends.
  assert (Hi' : (i = 0 \/ i = 1 \/ i = 2 \/ i = 3)%nat) by lia.
  destruct Hi' as [->|[->|[->| ->]]].
  - pose proof (Hrows 0%nat ltac:(lia)) as E1.
    pose proof (Hrows 1%nat ltac:(lia)) as E2.
    split; [exact (dlt_first E1) | exact (dlt_second E2)].
  - pose proof (Hrows 2%nat ltac:(lia)) as E1.
    pose proof (Hrows 3%nat ltac:(lia)) as E2.
    split; [exact (dlt_first E1) | exact (dlt_second E2)].
  - pose proof (Hrows 4%nat ltac:(lia)) as E1.
    pose proof (Hrows 5%nat ltac:(lia)) as E2.
    split; [exact (dlt_first E1) | exact (dlt_second E2)].
  - pose proof (Hrows 6%nat ltac:(lia)) as E1.
    pose proof (Hrows 7%nat ltac:(lia)) as E2.
    split; [exact (dlt_first E1) | exact (dlt_second E2)].
Qed.

(** The adjugate of a 3x3 matrix applied to the image of a point gives the
    point back, scaled by the determinant. *)
Lemma adjugate_back (a b c d e f g h k s1 s2 d1 d2 : R) :
  a * s1 + b * s2 + c = d1 * (g * s1 + h * s2 + k) ->
  d * s1 + e * s2 + f = d2 * (g * s1 + h * s2 + k) ->
  (g * s1 + h * s2 + k)
    * ((e * k - f * h) * d1 + (c * h - b * k) * d2 + (b * f - c * e))
  = (a * (e * k - f * h) - b * (d * k - f * g) + c * (d * h - e * g)) * s1 /\
  (g * s1 + h * s2 + k)
    * ((f * g - d * k) * d1 + (a * k - c * g) * d2 + (c * d - a * f))
  = (a * (e * k - f * h) - b * (d * k - f * g) + c * (d * h - e * g)) * s2 /\
  (g * s1 + h * s2 + k)
    * ((d * h - e * g) * d1 + (b * g - a * h) * d2 + (a * e - b * d))
  = a * (e * k - f * h) - b * (d * k - f * g) + c * (d * h - e * g).
Proof.
  intros E1 E2. set (lam := g * s1 + h * s2 + k) in *. repeat split.
  - replace (lam * ((e * k - f * h) * d1 + (c * h - b * k) * d2 + (b * f - c * e)))
      with ((e * k - f * h) * (d1 * lam) + (c * h - b * k) * (d2 * lam)
            + (b * f - c * e) * lam) by ring.
    rewrite <- E1, <- E2. unfold lam. ring.
  - replace (lam * ((f * g - d * k) * d1 + (a * k - c * g) * d2 + (c * d - a * f)))
      with ((f * g - d * k) * (d1 * lam) + (a * k - c * g) * (d2 * lam)
            + (c * d - a * f) * lam) by ring.
    rewrite <- E1, <- E2. unfold lam. ring.
  - replace (lam * ((d * h - e * g) * d1 + (b * g - a * h) * d2 + (a * e - b * d)))
      with ((d * h - e * g) * (d1 * lam) + (b * g - a * h) * (d2 * lam)
            + (a * e - b * d) * lam) by ring.
    rewrite <- E1, <- E2. unfold lam. ring.
Qed.

Lemma scaled_quotient (lam det n w s inv : R) :
  det <> 0 -> inv = 1 / det -> lam * n = det * s -> lam * w = det ->
  forall n' w', n' = n * inv -> w' = w * inv -> n' / w' = s.
Proof.
  intros Hdet -> Hn Hw n' w' -> ->.
  assert (Hlam : lam <> 0) by (intros E; rewrite E, Rmult_0_l in Hw; auto).
  assert (Hw0 : w <> 0) by (intros E; rewrite E, Rmult_0_r in Hw; auto).
  assert (E : n = s * w).
  { apply Rmult_eq_reg_l with lam; [|exact Hlam].
    rewrite Hn, <- Hw. ring. }
  rewrite E. field. split; assumption.
Qed.

Lemma adjugate_row (p q r inv d1 d2 : R) :
  p * inv * d1 + q * inv * d2 + r * inv = (p * d1 + q * d2 + r) * inv.
Proof. ring. Qed.

Lemma invert3x3_spec (H Hinv : list R) :
  invert3x3 (N := Real) H = Some Hinv ->
  det3x3 (N := Real) H <> 0 /\
  let a := entry (N := Real) H 0 in let b := entry (N := Real) H 1 in
  let c := entry (N := Real) H 2 in let d := entry (N := Real) H 3 in
  let e := entry (N := Real) H 4 in let f := entry (N := Real) H 5 in
  let g := entry (N := Real) H 6 in let h := entry (N := Real) H 7 in
  let k := entry (N := Real) H 8 in
  let inv := 1 / det3x3 (N := Real) H in
  Hinv = [ (e * k - f * h) * inv; (c * h - b * k) * inv; (b * f - c * e) * inv;
           (f * g - d * k) * inv; (a * k - c * g) * inv; (c * d - a * f) * inv;
           (d * h - e * g) * inv; (b * g - a * h) * inv; (a * e - b * d) * inv ].
Proof.
  unfold invert3x3. cbv zeta.
  destruct (lt (Number := Real) (abs (Number := Real) (det3x3 (N := Real) H)) _)
    eqn:Eguard; [discriminate|].
  intros E. injection E as <-. split; [|reflexivity].
  apply ltb_false in Eguard. intros E. rewrite E in Eguard.
  unfold ratio in Eguard. cbn in Eguard. rewrite Rabs_R0 in Eguard. lra.
Qed.

Lemma sends_back (H Hinv : list R) (s d : R * R) :
  invert3x3 (N := Real) H = Some Hinv -> sends H s d ->
  sourceOf (N := Real) Hinv (fst d) (snd d) = s.
Proof.
  intros Einv [E1 E2]. destruct (@invert3x3_spec _ _ Einv) as [Hdet ->].
  destruct (adjugate_back E1 E2) as (B1 & B2 & B3).
  destruct s as [s1 s2]. unfold sourceOf. cbv zeta. cbn [fst snd] in *.
  f_equal.
  - eapply (@scaled_quotient _ _ _ _ s1 _ Hdet eq_refl B1 B3);
      unfold entry; cbn [nth]; apply adjugate_row.
  - eapply (@scaled_quotient _ _ _ _ s2 _ Hdet eq_refl B2 B3);
      unfold entry; cbn [nth]; apply adjugate_row.
Qed.

(** The round trip in exact arithmetic: whenever [computeHomography] and
    [invert3x3] both return a matrix, the inverse sends each of the four
    destination corners back to its source corner, exactly. *)
Theorem roundtrip_exact_law (srcPts dstPts : list (R * R)) (H Hinv : list R) (i : nat) :
  (i < 4)%nat ->
  computeHomography (N := Real) srcPts dstPts = Some H ->
  invert3x3 (N := Real) H = Some Hinv ->
  sourceOf (N := Real) Hinv (px (N := Real) (pt (N := Real) dstPts i))
                            (py (N := Real) (pt (N := Real) dstPts i))
  = pt (N := Real) srcPts i.
Proof.
  intros Hi Ecomp Einv.
  destruct (computeHomography_sound _ _ Ecomp) as [_ Hsends].
  exact (sends_back Einv (Hsends i Hi)).
Qed.

(** *** Three collinear corners *)

Definition collinear3 (p q r : R * R) : Prop :=
  (fst q - fst p) * (snd r - snd p) - (snd q - snd p) * (fst r - fst p) = 0.

Definition threeCollinear (pts : list (R * R)) : Prop :=
  collinear3 (pt (N := Real) pts 0) (pt (N := Real) pts 1) (pt (N := Real) pts 2) \/
  collinear3 (pt (N := Real) pts 0) (pt (N := Real) pts 1) (pt (N := Real) pts 3) \/
  collinear3 (pt (N := Real) pts 0) (pt (N := Real) pts 2) (pt (N := Real) pts 3) \/
  collinear3 (pt (N := Real) pts 1) (pt (N := Real) pts 2) (pt (N := Real) pts 3).

Lemma images_determinant (a b c d e f g h k p1 p2 q1 q2 r1 r2 u1 u2 v1 v2 w1 w2 : R) :
  a * p1 + b * p2 + c = u1 * (g * p1 + h * p2 + k) ->
  d * p1 + e * p2 + f = u2 * (g * p1 + h * p2 + k) ->
  a * q1 + b * q2 + c = v1 * (g * q1 + h * q2 + k) ->
  d * q1 + e * q2 + f = v2 * (g * q1 + h * q2 + k) ->
  a * r1 + b * r2 + c = w1 * (g * r1 + h * r2 + k) ->
  d * r1 + e * r2 + f = w2 * (g * r1 + h * r2 + k) ->
  (g * p1 + h * p2 + k) * (g * q1 + h * q2 + k) * (g * r1 + h * r2 + k)
    * ((v1 - u1) * (w2 - u2) - (v2 - u2) * (w1 - u1))
  = (a * (e * k - f * h) - b * (d * k - f * g) + c * (d * h - e * g))
    * ((q1 - p1) * (r2 - p2) - (q2 - p2) * (r1 - p1)).
Proof.
  intros P1 P2 Q1 Q2 R1 R2.
  set (lp := g * p1 + h * p2 + k) in *.
  set (lq := g * q1 + h * q2 + k) in *.
  set (lr := g * r1 + h * r2 + k) in *.
  replace (lp * lq * lr * ((v1 - u1) * (w2 - u2) - (v2 - u2) * (w1 - u1)))
    with ((u1 * lp) * ((v2 * lq) * lr - lq * (w2 * lr))
          - (u2 * lp) * ((v1 * lq) * lr - lq * (w1 * lr))
          + lp * ((v1 * lq) * (w2 * lr) - (v2 * lq) * (w1 * lr))) by ring.
  rewrite <- P1, <- P2, <- Q1, <- Q2, <- R1, <- R2. unfold lp, lq, lr. ring.
Qed.

Lemma singular_of_collinear (H : list R) (p q r u v w : R * R) :
  sends H p u -> sends H q v -> sends H r w ->
  collinear3 p q r -> ~ collinear3 u v w ->
  det3x3 (N := Real) H = 0.
Proof.
  intros [P1 P2] [Q1 Q2] [R1 R2] Hs Hd.
  pose proof (images_determinant P1 P2 Q1 Q2 R1 R2) as K.
  unfold collinear3 in Hs, Hd. rewrite Hs, Rmult_0_r in K.
  apply Rmult_integral in K. destruct K as [K|K]; [|contradiction].
  destruct (adjugate_back P1 P2) as (_ & _ & Dp).
  destruct (adjugate_back Q1 Q2) as (_ & _ & Dq).
  destruct (adjugate_back R1 R2) as (_ & _ & Dr).
  apply Rmult_integral in K. destruct K as [K|K].
  - apply Rmult_integral in K. destruct K as [K|K].
    + rewrite K, Rmult_0_l in Dp. symmetry. exact Dp.
    + rewrite K, Rmult_0_l in Dq. symmetry. exact Dq.
  - rewrite K, Rmult_0_l in Dr. symmetry. exact Dr.
Qed.

Lemma invert3x3_singular (H : list R) :
  det3x3 (N := Real) H = 0 -> invert3x3 (N := Real) H = None.
Proof.
  intros E. unfold invert3x3. cbv zeta. rewrite E.
  replace (lt (Number := Real) (abs (Number := Real) 0) (ratio (N := Real) 1 10000000000))
    with true; [reflexivity|].
  symmetry. apply ltb_true. unfold ratio. cbn. rewrite Rabs_R0. lra.
Qed.

Definition rectangle (dw dh : R) : list (R * R) := [(0, 0); (dw, 0); (dw, dh); (0, dh)].

Lemma rectangle_singular (srcPts : list (R * R)) (dw dh : R) (H : list R) :
  0 < dw -> 0 < dh -> threeCollinear srcPts ->
  computeHomography (N := Real) srcPts (rectangle dw dh) = Some H ->
  invert3x3 (N := Real) H = None.
Proof.
  intros Hw Hh Hcol Ecomp. apply invert3x3_singular.
  destruct (computeHomography_sound _ _ Ecomp) as [_ Hsends].
  pose proof (Hsends 0%nat ltac:(lia)) as S0.
  pose proof (Hsends 1%nat ltac:(lia)) as S1.
  pose proof (Hsends 2%nat ltac:(lia)) as S2.
  pose proof (Hsends 3%nat ltac:(lia)) as S3.
  assert (Hne : dw * dh <> 0) by nra.
  destruct Hcol as [C|[C|[C|C]]].
  - apply (singular_of_collinear S0 S1 S2 C).
    unfold collinear3. cbn. intros E. apply Hne. lra.
  - apply (singular_of_collinear S0 S1 S3 C).
    unfold collinear3. cbn. intros E. apply Hne. lra.
  - apply (singular_of_collinear S0 S2 S3 C).
    unfold collinear3. cbn. intros E. apply Hne. lra.
  - apply (singular_of_collinear S1 S2 S3 C).
    unfold collinear3. cbn. intros E. apply Hne. lra.
Qed.

Definition numericalFailure (message : string) : Prop :=
  message = "Failed to compute homography"%string \/
  message = "Failed to invert homography"%string.

Lemma rectifyPlan_collinear (srcPts : list (R * R)) (minSide : Z) :
  (0 < minSide)%Z -> threeCollinear srcPts ->
  exists message,
    rectifyPlan (N := Real) srcPts minSide = @Rejected _ message /\
    numericalFailure message.
Proof.
  intros Hmin Hcol. unfold rectifyPlan. cbv zeta.
  match goal with
  | |- context [computeHomography (N := Real) _ [_; (?w, _); (_, ?h); _]] =>
      set (dw := w); set (dh := h)
  end.
  assert (Hside : 0 < IZR minSide) by (apply IZR_lt; exact Hmin).
  assert (Hw : 0 < dw).
  { unfold dw. eapply Rlt_le_trans; [exact Hside | apply Rmax_r]. }
  assert (Hh : 0 < dh).
  { unfold dh. eapply Rlt_le_trans; [exact Hside | apply Rmax_r]. }
  destruct (computeHomography (N := Real) srcPts _) as [H|] eqn:Ecomp.
  - rewrite (@rectangle_singular srcPts dw dh H Hw Hh Hcol Ecomp).
    eexists. split; [reflexivity | right; reflexivity].
  - eexists. split; [reflexivity | left; reflexivity].
Qed.

Definition quadPoints (corners : Quad (N := Real)) : list (R * R) :=
  map (fun p => (p_x p, p_y p)) [tl corners; tr corners; br corners; bl corners].

Lemma collinear3_scaled (sw sh : R) (p q r : R * R) :
  collinear3 p q r ->
  collinear3 (fst p * sw, snd p * sh) (fst q * sw, snd q * sh) (fst r * sw, snd r * sh).
Proof.
  unfold collinear3. cbn [fst snd]. intros E.
  replace ((fst q * sw - fst p * sw) * (snd r * sh - snd p * sh)
           - (snd q * sh - snd p * sh) * (fst r * sw - fst p * sw))
    with (sw * sh * ((fst q - fst p) * (snd r - snd p)
                     - (snd q - snd p) * (fst r - fst p))) by ring.
  rewrite E. ring.
Qed.

Lemma cornerPixels_collinear (corners : Quad (N := Real)) (sw sh : R) :
  threeCollinear (quadPoints corners) ->
  threeCollinear (cornerPixels (N := Real) corners sw sh).
Proof.
  unfold threeCollinear, quadPoints, cornerPixels, pt. cbn [map nth].
  intros [C|[C|[C|C]]]; [left | right; left | right; right; left | right; right; right];
    exact (collinear3_scaled sw sh C).
Qed.

(** Collinear corners in exact arithmetic: if three of the four corners
    lie on a line, [processImage] rejects with one of the two messages of
    the homography step, whatever the picture and the mode. *)
Theorem processImage_collinear (bmp : Bitmap (N := Real)) (corners : Quad (N := Real))
    (mode : EnhanceMode) :
  threeCollinear (quadPoints corners) ->
  exists message,
    processImage (N := Real) (Picture bmp) corners mode = @Rejected _ message /\
    numericalFailure message.
Proof.
  intros Hcol. unfold processImage.
  destruct (@rectifyPlan_collinear
              (cornerPixels (N := Real) corners (ofNat (N := Real) (bmpWidth bmp))
                 (ofNat (N := Real) (bmpHeight bmp))) 100 eq_refl
              (cornerPixels_collinear _ _ Hcol)) as (message & -> & Hm).
  exists message. split; [reflexivity | exact Hm].
Qed.

(** The quad of the binary64 run below, in exact arithmetic. *)
Definition collinearCorners : Quad (N := Real) :=
  {| tl := {| p_x := 3 / 8; p_y := 3 / 8 |};
     tr := {| p_x := 5 / 8; p_y := 1 / 4 |};
     br := {| p_x := 7 / 8; p_y := 7 / 8 |};
     bl := {| p_x := 1 / 2; p_y := 1 / 2 |} |}.

Definition blankPhoto : Bitmap (N := Real) :=
  {| bmpWidth := 4032; bmpHeight := 3024; drawn := fun _ _ => [] |}.

Lemma processImage_collinear_witness :
  threeCollinear (quadPoints collinearCorners) /\
  exists message,
    processImage (N := Real) (Picture blankPhoto) collinearCorners ModeColor
    = @Rejected _ message /\
    numericalFailure message.
Proof.
  assert (Hcol : threeCollinear (quadPoints collinearCorners)).
  { right. right. left. unfold collinear3. cbn. lra. }
  split; [exact Hcol|].
  exact (@processImage_collinear blankPhoto collinearCorners ModeColor Hcol).
Defined.
End HomographyExact.

(** ** Running the linear algebra in another arithmetic *)

Section Transfer.
Context {N1 N2 : Number}.
Variable phi : @num N1 -> @num N2.
Hypothesis phi_ofZ : forall z, phi (ofZ z) = ofZ z.
Hypothesis phi_add : forall a b, phi (add a b) = add (phi a) (phi b).
Hypothesis phi_sub : forall a b, phi (sub a b) = sub (phi a) (phi b).
Hypothesis phi_mul : forall a b, phi (mul a b) = mul (phi a) (phi b).
Hypothesis phi_div : forall a b, phi (div a b) = div (phi a) (phi b).
Hypothesis phi_neg : forall a, phi (neg a) = neg (phi a).
Hypothesis phi_abs : forall a, phi (abs a) = abs (phi a).
Hypothesis phi_lt : forall a b, lt (phi a) (phi b) = lt a b.

Definition phiRow (r : list (@num N1)) : list (@num N2) := map phi r.
Definition phiMatrix (M : list (list (@num N1))) : list (list (@num N2)) :=
  map phiRow M.
Definition phiPoint (p : @Pt N1) : @Pt N2 := (phi (fst p), phi (snd p)).

Lemma entry_phi (r : list (@num N1)) (j : nat) :
  entry (phiRow r) j = phi (entry r j).
Proof. unfold entry, phiRow. rewrite <- (phi_ofZ 0). apply map_nth. Qed.

Lemma rowAt_phi (M : list (list (@num N1))) (i : nat) :
  rowAt (phiMatrix M) i = phiRow (rowAt M i).
Proof.
  unfold rowAt, phiMatrix. change (@nil (@num N2)) with (phiRow []).
  apply map_nth.
Qed.

Lemma cell_phi (M : list (list (@num N1))) (i j : nat) :
  cell (phiMatrix M) i j = phi (cell M i j).
Proof. unfold cell. rewrite rowAt_phi. apply entry_phi. Qed.

Lemma upd_map {A B : Type} (f : A -> B) (i : nat) (v : A) (l : list A) :
  upd i (f v) (map f l) = map f (upd i v l).
Proof.
  revert i. induction l as [|x t IH]; intros [|i]; cbn; try reflexivity.
  rewrite IH. reflexivity.
Qed.

Lemma fold_left_ext {A B : Type} (f g : A -> B -> A) (l : list B) (a : A) :
  (forall a x, f a x = g a x) -> fold_left f l a = fold_left g l a.
Proof.
  intros E. revert a. induction l as [|x l IH]; intros a; cbn; [reflexivity|].
  rewrite E. apply IH.
Qed.

Lemma ratio_phi (p q : Z) : phi (ratio p q) = ratio p q.
Proof. unfold ratio. rewrite phi_div, !phi_ofZ. reflexivity. Qed.

Lemma pivotRow_phi (M : list (list (@num N1))) (col n : nat) :
  pivotRow (phiMatrix M) col n = pivotRow M col n.
Proof.
  unfold pivotRow. apply fold_left_ext. intros maxRow row.
  unfold gt. rewrite !cell_phi, <- !phi_abs, phi_lt. reflexivity.
Qed.

Lemma swapRows_phi (M : list (list (@num N1))) (i j : nat) :
  swapRows (phiMatrix M) i j = phiMatrix (swapRows M i j).
Proof.
  unfold swapRows. rewrite !rowAt_phi. unfold phiMatrix.
  rewrite !upd_map. reflexivity.
Qed.

Lemma eliminateRow_phi (pivot row : list (@num N1)) (col n : nat) :
  eliminateRow (phiRow pivot) (phiRow row) col n
  = phiRow (eliminateRow pivot row col n).
Proof.
  unfold eliminateRow. cbv zeta. rewrite !entry_phi, <- phi_div.
  generalize (div (entry row col) (entry pivot col)). intros f.
  generalize (seq col (n + 1 - col)). intros l. revert row.
  induction l as [|j l IH]; intros row; cbn [fold_left]; [reflexivity|].
  rewrite !entry_phi, <- phi_mul, <- phi_sub. unfold phiRow at 2.
  rewrite upd_map. apply IH.
Qed.

Lemma eliminate_phi (M : list (list (@num N1))) (col n : nat) :
  eliminate (phiMatrix M) col n = phiMatrix (eliminate M col n).
Proof.
  unfold eliminate. generalize (seq (col + 1) (n - (col + 1))). intros l.
  revert M. induction l as [|row l IH]; intros M; cbn [fold_left]; [reflexivity|].
  rewrite !rowAt_phi, eliminateRow_phi. unfold phiMatrix at 1.
  rewrite upd_map. apply IH.
Qed.

Lemma forwardStep_phi (n col : nat) (st : option (list (list (@num N1)))) :
  forwardStep n (option_map phiMatrix st) col
  = option_map phiMatrix (forwardStep n st col).
Proof.
  destruct st as [M|]; [|reflexivity]. cbn [option_map forwardStep].
  unfold forwardStep. rewrite pivotRow_phi, swapRows_phi, cell_phi.
  rewrite <- phi_abs, <- (ratio_phi 1 10000000000), phi_lt.
  destruct (lt _ _); [reflexivity|]. cbn [option_map].
  rewrite eliminate_phi. reflexivity.
Qed.

Lemma forward_phi (n : nat) (l : list nat) (st : option (list (list (@num N1)))) :
  fold_left (forwardStep n) l (option_map phiMatrix st)
  = option_map phiMatrix (fold_left (forwardStep n) l st).
Proof.
  revert st. induction l as [|col l IH]; intros st; cbn [fold_left]; [reflexivity|].
  rewrite forwardStep_phi. apply IH.
Qed.

Lemma backSubstitute_phi (M : list (list (@num N1))) (n : nat) :
  backSubstitute (phiMatrix M) n = phiRow (backSubstitute M n).
Proof.
  unfold backSubstitute.
  replace (repeat (@ofZ N2 0) n) with (phiRow (repeat (@ofZ N1 0) n))
    by (unfold phiRow; rewrite map_repeat, phi_ofZ; reflexivity).
  generalize (repeat (@ofZ N1 0) n). generalize (rev (seq 0 n)). intros l.
  induction l as [|i l IH]; intros x; cbn [fold_left]; [reflexivity|].
  rewrite <- IH. f_equal.
  assert (Hin : forall js acc,
            fold_left (fun acc j => sub acc (mul (cell (phiMatrix M) i j)
                                                 (entry (phiRow x) j))) js (phi acc)
            = phi (fold_left (fun acc j => sub acc (mul (cell M i j) (entry x j)))
                     js acc)).
  { intros js. induction js as [|j js IHj]; intros acc; cbn [fold_left];
      [reflexivity|].
    rewrite cell_phi, entry_phi, <- phi_mul, <- phi_sub. apply IHj. }
  rewrite !cell_phi, Hin, <- phi_div. unfold phiRow. apply upd_map.
Qed.

Lemma augmented_phi (A : list (list (@num N1))) (b : list (@num N1)) :
  augmented (phiMatrix A) (phiRow b) = phiMatrix (augmented A b).
Proof.
  unfold augmented, phiMatrix at 2. rewrite map_map.
  unfold phiRow at 2. rewrite length_map. apply map_ext. intros i.
  rewrite rowAt_phi, entry_phi. unfold phiRow. rewrite map_app. reflexivity.
Qed.

Lemma length_phiRow (r : list (@num N1)) : length (phiRow r) = length r.
Proof. apply length_map. Qed.

Lemma solve_phi (A : list (list (@num N1))) (b : list (@num N1)) :
  solve (phiMatrix A) (phiRow b) = option_map phiRow (solve A b).
Proof.
  unfold solve. cbv zeta. rewrite augmented_phi, !length_phiRow.
  change (Some (phiMatrix (augmented A b)))
    with (option_map phiMatrix (Some (augmented A b))).
  rewrite forward_phi.
  destruct (fold_left (forwardStep (length b)) (seq 0 (length b))
              (Some (augmented A b))) as [M|]; [|reflexivity].
  cbn [option_map]. rewrite backSubstitute_phi. reflexivity.
Qed.

Lemma pt_phi (pts : list (@Pt N1)) (i : nat) :
  pt (map phiPoint pts) i = phiPoint (pt pts i).
Proof.
  unfold pt. replace (@origin N2) with (phiPoint (@origin N1));
    [apply map_nth|].
  unfold phiPoint, origin. cbn [fst snd]. rewrite phi_ofZ. reflexivity.
Qed.

Lemma dltRows_phi (s d : @Pt N1) :
  dltRows (phiPoint s) (phiPoint d) = phiMatrix (dltRows s d).
Proof.
  unfold dltRows, phiMatrix, phiRow, phiPoint, px, py. cbn [map fst snd].
  rewrite !phi_mul, !phi_neg, !phi_ofZ. reflexivity.
Qed.

Lemma computeHomography_phi (srcPts dstPts : list (@Pt N1)) :
  computeHomography (map phiPoint srcPts) (map phiPoint dstPts)
  = option_map phiRow (computeHomography srcPts dstPts).
Proof.
  unfold computeHomography. cbv zeta.
  cbn [seq flat_map app]. rewrite !pt_phi, !dltRows_phi.
  change (?a ++ ?b ++ ?c ++ ?d ++ []) with (a ++ b ++ c ++ d ++ []).
  match goal with
  | |- context [@solve N2 ?A2 ?b2] =>
      match goal with
      | |- context [@solve N1 ?A1 ?b1] =>
          replace A2 with (phiMatrix A1)
            by (unfold phiMatrix; rewrite !map_app; reflexivity);
          replace b2 with (phiRow b1) by reflexivity
      end
  end.
  rewrite solve_phi.
  destruct (solve _ _) as [h|]; [|reflexivity]. cbn [option_map].
  rewrite !entry_phi. unfold phiRow. cbn [map]. rewrite phi_ofZ. reflexivity.
Qed.

Lemma det3x3_phi (m : list (@num N1)) : det3x3 (phiRow m) = phi (det3x3 m).
Proof.
  unfold det3x3. cbv zeta. rewrite !entry_phi.
  repeat (progress rewrite ?phi_add, ?phi_sub, ?phi_mul). reflexivity.
Qed.

Lemma invert3x3_phi (m : list (@num N1)) :
  invert3x3 (phiRow m) = option_map phiRow (invert3x3 m).
Proof.
  unfold invert3x3. cbv zeta. rewrite det3x3_phi.
  rewrite <- phi_abs, <- (ratio_phi 1 10000000000), phi_lt.
  destruct (lt _ _); [reflexivity|]. cbn [option_map]. f_equal.
  rewrite !entry_phi. unfold phiRow. cbn [map].
  repeat (progress rewrite ?phi_mul, ?phi_sub, ?phi_div, ?phi_ofZ). reflexivity.
Qed.

Lemma zPoints_phi (l : list (Z * Z)) :
  map phiPoint (zPoints (N := N1) l) = zPoints (N := N2) l.
Proof.
  unfold zPoints. rewrite map_map. apply map_ext. intros p.
  unfold phiPoint. cbn [fst snd]. rewrite !phi_ofZ. reflexivity.
Qed.
End Transfer.

(** ** Rational runs are real runs *)

Section RationalRuns.
Variable m : Approx.
Local Open Scope R_scope.

Lemma Q2R_ofZ (z : Z) : Q2R (QArith_base.inject_Z z) = IZR z.
Proof. unfold Q2R. cbn. rewrite Rinv_1. ring. Qed.

Lemma Q2R_red (x : QArith_base.Q) : Q2R (Qreduction.Qred x) = Q2R x.
Proof. apply Qreals.Qeq_eqR. apply Qreduction.Qred_correct. Qed.

Lemma Q2R_quotient (x y : QArith_base.Q) :
  Q2R (QArith_base.Qdiv x y) = Q2R x / Q2R y.
Proof.
  unfold QArith_base.Qdiv, Rdiv. rewrite Qreals.Q2R_mult. f_equal.
  rewrite RMicromega.Q2R_inv_ext.
  destruct (QArith_base.Qeq_bool y (QArith_base.Qmake 0 1)) eqn:E; [|reflexivity].
  apply QArith_base.Qeq_bool_eq in E. apply Qreals.Qeq_eqR in E.
  rewrite E, RMicromega.Q2R_0, Rinv_0. reflexivity.
Qed.

Lemma Q2R_magnitude (x : QArith_base.Q) :
  Q2R (Qabs.Qabs x) = Rabs (Q2R x).
Proof.
  destruct x as [n d]. unfold Q2R. cbn.
  rewrite abs_IZR, Rabs_mult. f_equal. symmetry. apply Rabs_right.
  apply Rle_ge, Rlt_le, Rinv_0_lt_compat, IZR_lt. reflexivity.
Qed.

Lemma Q2R_ltb (x y : QArith_base.Q) :
  RealOps.ltb (Q2R x) (Q2R y) = RationalOps.ltb x y.
Proof.
  unfold RealOps.ltb, RationalOps.ltb.
  destruct (QArith_base.Qlt_le_dec x y) as [L|L], (Rlt_dec _ _) as [L'|L'];
    try reflexivity.
  - exfalso. apply L'. apply Qreals.Qlt_Rlt. exact L.
  - exfalso. apply Qreals.Qle_Rle in L. lra.
Qed.

Ltac rational_law :=
  intros;
  first [ exact (Q2R_ofZ _)
        | exact (eq_trans (Q2R_red _) (Qreals.Q2R_plus _ _))
        | exact (eq_trans (Q2R_red _) (Qreals.Q2R_minus _ _))
        | exact (eq_trans (Q2R_red _) (Qreals.Q2R_mult _ _))
        | exact (eq_trans (Q2R_red _) (Q2R_quotient _ _))
        | exact (Qreals.Q2R_opp _)
        | exact (Q2R_magnitude _)
        | exact (Q2R_ltb _ _) ].

Definition realRow : list (@num (Rational m)) -> list R := @phiRow (Rational m) Real Q2R.

Lemma computeHomography_rational (srcPts dstPts : list (Z * Z)) :
  computeHomography (N := Real) (zPoints srcPts) (zPoints dstPts)
  = option_map realRow
      (computeHomography (N := Rational m) (zPoints srcPts) (zPoints dstPts)).
Proof.
  rewrite <- !(@zPoints_phi (Rational m) Real Q2R Q2R_ofZ).
  apply (@computeHomography_phi (Rational m) Real Q2R); rational_law.
Qed.

Lemma invert3x3_rational (H : list (@num (Rational m))) :
  invert3x3 (N := Real) (realRow H)
  = option_map realRow (invert3x3 (N := Rational m) H).
Proof.
  apply (@invert3x3_phi (Rational m) Real Q2R); rational_law.
Qed.
End RationalRuns.

(** ** A run of the round trip *)

Section RoundTripRun.
Local Open Scope R_scope.

(** A library good enough for the operations that stay within the
    rationals; the linear algebra calls none of its functions. *)
Definition crude : Approx :=
  {| approx_sqrt := fun x => x;
     approx_acos := fun x => x;
     approx_cos := fun x => x;
     approx_sin := fun x => x;
     approx_pow := fun x _ => x;
     approx_pi := QArith_base.inject_Z 3 |}.

Definition unitSquare : list (Z * Z) := [(0, 0); (1, 0); (1, 1); (0, 1)]%Z.
Definition twoByThree : list (Z * Z) := [(0, 0); (2, 0); (2, 3); (0, 3)]%Z.

(** The homography of the unit square onto a 2 by 3 rectangle, and its
    inverse, as the rational run computes them. *)
Definition stretch : list (@num (Rational crude)) :=
  map QArith_base.inject_Z [2; 0; 0; 0; 3; 0; 0; 0; 1]%Z.

Definition shrink : list (@num (Rational crude)) :=
  [QArith_base.Qmake 1 2; QArith_base.Qmake 0 1; QArith_base.Qmake 0 1;
   QArith_base.Qmake 0 1; QArith_base.Qmake 1 3; QArith_base.Qmake 0 1;
   QArith_base.Qmake 0 1; QArith_base.Qmake 0 1; QArith_base.Qmake 1 1].

Lemma stretch_rational :
  computeHomography (N := Rational crude) (zPoints unitSquare) (zPoints twoByThree)
  = Some stretch.
Proof. vm_compute. reflexivity. Qed.

Lemma shrink_rational : invert3x3 (N := Rational crude) stretch = Some shrink.
Proof. vm_compute. reflexivity. Qed.

Lemma stretch_real :
  computeHomography (N := Real) (zPoints unitSquare) (zPoints twoByThree)
  = Some (realRow stretch).
Proof. rewrite (computeHomography_rational crude), stretch_rational. reflexivity. Qed.

Lemma shrink_real :
  invert3x3 (N := Real) (realRow stretch) = Some (realRow shrink).
Proof. rewrite invert3x3_rational, shrink_rational. reflexivity. Qed.

Lemma roundtrip_exact_law_witness :
  computeHomography (N := Real) (zPoints unitSquare) (zPoints twoByThree)
  = Some (realRow stretch) /\
  invert3x3 (N := Real) (realRow stretch) = Some (realRow shrink) /\
  sourceOf (N := Real) (realRow shrink) 2 3 = (1, 1).
Proof.
  split; [exact stretch_real|]. split; [exact shrink_real|].
  exact (@roundtrip_exact_law _ _ _ _ 2%nat (le_S 3 3 (le_n 3)) stretch_real shrink_real).
Defined.
End RoundTripRun.

(** ** Degenerate quads in binary64 arithmetic *)

Section Binary64Runs.
Variable m : Libm.
Local Open Scope float_scope.

Definition point64 (x y : float) : @Point2D (Binary64 m) :=
  @Build_Point2D (Binary64 m) x y.

(** A quad whose bottom-left corner lies on the diagonal from the top-left to
    the bottom-right corner. *)
Definition degenerateCorners : @Quad (Binary64 m) :=
  {| tl := point64 0.375 0.375;
     tr := point64 0.625 0.25;
     br := point64 0.875 0.875;
     bl := point64 0.5 0.5 |}.

(** Its corners on a 4032 by 3024 picture, and the destination rectangle
    [processImage] maps them to. *)
Definition degeneratePixels : list (@Pt (Binary64 m)) :=
  [(1512, 1134); (2520, 756); (3528, 2646); (2016, 1512)].

Definition degenerateRect : list (@Pt (Binary64 m)) :=
  [(0, 0); (1890, 0); (1890, 2142); (0, 2142)].

Definition photo (draw : nat -> nat -> list float) : @Bitmap (Binary64 m) :=
  @Build_Bitmap (Binary64 m) 4032 3024 draw.

Lemma degeneratePixels_eq :
  cornerPixels degenerateCorners (ofNat 4032) (ofNat 3024) = degeneratePixels.
Proof. vm_compute. reflexivity. Qed.

(** The three corners tl, bl, br lie on the line [y = x]; in pixels they are
    the integer points (1512, 1134), (2016, 1512), (3528, 2646), whose cross
    product is exactly zero. *)
Lemma degenerate_collinear :
  map (fun c : @Point2D (Binary64 m) => PrimFloat.eqb (p_x c) (p_y c))
    [tl degenerateCorners; bl degenerateCorners; br degenerateCorners]
  = [true; true; true] /\
  map (fun p : @Pt (Binary64 m) => (toZ (px p), toZ (py p))) degeneratePixels
  = [(1512, 1134); (2520, 756); (3528, 2646); (2016, 1512)]%Z /\
  ((2016 - 1512) * (2646 - 1134) - (1512 - 1134) * (3528 - 1512) = 0)%Z.
Proof. vm_compute. repeat split. Qed.

Lemma degenerate_plan_check :
  match rectifyPlan degeneratePixels 100 with
  | Resolved plan =>
      PrimFloat.eqb (planWidth plan) 1890 && PrimFloat.eqb (planHeight plan) 2142
  | _ => false
  end = true.
Proof. vm_compute. reflexivity. Qed.

(** C4 on the engine as it runs: with three collinear corners on a 4032 by
    3024 photograph, whatever its pixels and whatever the mode,
    [processImage] resolves with a 1890 by 2142 picture; neither
    [computeHomography] nor [invert3x3] returns null. *)
Theorem binary64_collinear_rectify_resolves
    (draw : nat -> nat -> list float) (mode : EnhanceMode) :
  exists r,
    processImage (N := Binary64 m) (Picture (photo draw)) degenerateCorners mode
    = Resolved r /\
    PrimFloat.eqb (width r) 1890 = true /\
    PrimFloat.eqb (height r) 2142 = true.
Proof.
  pose proof degenerate_plan_check as Hp.
  unfold processImage, photo. cbn [bmpWidth bmpHeight drawn].
  rewrite degeneratePixels_eq.
  destruct (rectifyPlan degeneratePixels 100) as [plan| |]; try discriminate.
  apply andb_prop in Hp. destruct Hp as [Hw Hh].
  eexists. split; [reflexivity|]. cbn [width height]. split; assumption.
Qed.

Lemma degenerate_roundtrip_check :
  match computeHomography degeneratePixels degenerateRect with
  | Some H =>
      match invert3x3 H with
      | Some H_inv =>
          PrimFloat.ltb 1000
            (PrimFloat.abs (px (sourceOf H_inv 0 0) - px (pt degeneratePixels 0)))
          && PrimFloat.ltb 1000
               (PrimFloat.abs (py (sourceOf H_inv 0 0) - py (pt degeneratePixels 0)))
      | None => false
      end
  | None => false
  end = true.
Proof. vm_compute. reflexivity. Qed.

(** C3 on the engine as it runs: for these source corners and the destination
    rectangle [processImage] pairs them with, [computeHomography] and
    [invert3x3] both succeed, and the inverse maps the destination corner
    (0, 0) to a point more than 1000 pixels away, in x and in y, from the
    source corner (1512, 1134) it belongs to. *)
Theorem binary64_roundtrip_misses :
  exists H H_inv,
    computeHomography degeneratePixels degenerateRect = Some H /\
    invert3x3 H = Some H_inv /\
    PrimFloat.ltb 1000
      (PrimFloat.abs (px (sourceOf H_inv 0 0) - px (pt degeneratePixels 0))) = true /\
    PrimFloat.ltb 1000
      (PrimFloat.abs (py (sourceOf H_inv 0 0) - py (pt degeneratePixels 0))) = true.
Proof.
  pose proof degenerate_roundtrip_check as Hc.
  destruct (computeHomography degeneratePixels degenerateRect) as [H|] eqn:EH;
    [|discriminate].
  destruct (invert3x3 H) as [H_inv|] eqn:EI; [|discriminate].
  apply andb_prop in Hc. destruct Hc as [Hx Hy].
  exists H, H_inv. repeat split; assumption.
Qed.
End Binary64Runs.

(** ** [enhanceBW] on a uniform image *)

Section UniformImage.
Local Open Scope R_scope.

Lemma ofNat_INR (n : nat) : ofNat (N := Real) n = INR n.
Proof. unfold ofNat. cbn. symmetry. apply INR_IZR_INZ. Qed.

Lemma entry_repeat (v : R) (n i : nat) :
  (i < n)%nat -> entry (N := Real) (repeat v n) i = v.
Proof. intros H. unfold entry. apply nth_repeat_lt. exact H. Qed.

Variables (w h : nat) (v : R).

(** The summed-area table of the uniform image of value [v]: entry [(y, x)]
    holds [v * x * y]. *)
Definition tableUpTo (rows : nat) (I : list R) : Prop :=
  length I = ((w + 1) * (h + 1))%nat /\
  forall y x, (y <= h)%nat -> (x <= w)%nat ->
    entry (N := Real) I (y * (w + 1) + x) =
    if (y <=? rows)%nat then v * INR x * INR y else 0.

Lemma table_index_inj (y x y' x' : nat) :
  (x <= w)%nat -> (x' <= w)%nat ->
  (y * (w + 1) + x = y' * (w + 1) + x')%nat -> y = y' /\ x = x'.
Proof.
  intros Hx Hx' E. apply (Nat.div_mod_unique (w + 1)); lia.
Qed.

Lemma integralRow_uniform (I : list R) (y : nat) :
  (y < h)%nat -> tableUpTo y I ->
  tableUpTo (y + 1) (integralRow (N := Real) (repeat v (w * h)) w I y).
Proof.
  intros Hy [Hlen HI]. unfold integralRow.
  (* the state after the first [k] columns *)
  assert (G : forall k, (k <= w)%nat ->
    let st := fold_left
      (fun (st : R * list R) x =>
         let rowSum := fst st + entry (N := Real) (repeat v (w * h)) (y * w + x) in
         (rowSum, upd ((y + 1) * (w + 1) + (x + 1))
                    (entry (N := Real) (snd st) (y * (w + 1) + (x + 1)) + rowSum) (snd st)))
      (seq 0 k) (0, I) in
    fst st = v * INR k /\
    length (snd st) = ((w + 1) * (h + 1))%nat /\
    forall y' x', (y' <= h)%nat -> (x' <= w)%nat ->
      entry (N := Real) (snd st) (y' * (w + 1) + x') =
      if (y' <=? y)%nat then v * INR x' * INR y'
      else if ((y' =? y + 1) && (x' <=? k))%nat then v * INR x' * INR y'
      else 0).
  { induction k as [|k IH]; intros Hk.
    - cbn [seq fold_left fst snd]. split; [cbn; lra|]. split; [exact Hlen|].
      intros y' x' Hy' Hx'. rewrite HI by assumption.
      destruct (y' <=? y)%nat eqn:E1; [reflexivity|].
      destruct (Nat.eqb_spec y' (y + 1)); cbn [andb]; [|reflexivity].
      destruct (Nat.leb_spec x' 0); [|reflexivity].
      assert (x' = 0)%nat by lia. subst x'. cbn. lra.
    - rewrite seq_S, fold_left_app. cbn [Nat.add fold_left].
      specialize (IH ltac:(lia)). cbv zeta in IH.
      set (st := fold_left _ (seq 0 k) (0, I)) in *.
      destruct IH as (Hsum & Hl & Hent).
      cbn [fst snd]. rewrite entry_repeat by nia. rewrite Hsum.
      split; [rewrite S_INR; lra|]. split; [rewrite length_upd; exact Hl|].
      intros y' x' Hy' Hx'.
      destruct (Nat.eq_dec (y' * (w + 1) + x') ((y + 1) * (w + 1) + (k + 1))) as [E|NE].
      + apply table_index_inj in E; [|lia|lia]. destruct E as [-> ->].
        unfold entry at 1. rewrite nth_upd_eq by (apply (lt_length _ Hl); nia).
        fold (entry (N := Real) (snd st) (y * (w + 1) + (k + 1))).
        rewrite Hent by lia.
        rewrite Nat.leb_refl.
        destruct (Nat.leb_spec (y + 1) y); [lia|].
        rewrite Nat.eqb_refl. cbn [andb].
        destruct (Nat.leb_spec (k + 1) (S k)); [|lia].
        rewrite !plus_INR, S_INR. cbn. lra.
      + unfold entry at 1. rewrite nth_upd_ne by (intros E; apply NE; symmetry; exact E).
        fold (entry (N := Real) (snd st) (y' * (w + 1) + x')).
        rewrite Hent by assumption.
        destruct (y' <=? y)%nat; [reflexivity|].
        destruct (Nat.eqb_spec y' (y + 1)); cbn [andb]; [|reflexivity].
        subst y'.
        destruct (Nat.leb_spec x' k), (Nat.leb_spec x' (S k)); try reflexivity; try lia. }
  specialize (G w (Nat.le_refl w)). cbv zeta in G.
  destruct G as (_ & Hl & Hent). split; [exact Hl|].
  intros y' x' Hy' Hx'. rewrite Hent by assumption.
  destruct (Nat.leb_spec y' y), (Nat.leb_spec y' (y + 1)); try lia; try reflexivity.
  - destruct (Nat.eqb_spec y' (y + 1)); [|lia]. cbn [andb].
    destruct (Nat.leb_spec x' w); [reflexivity|lia].
  - destruct (Nat.eqb_spec y' (y + 1)); [lia|]. reflexivity.
Qed.

Lemma integralImage_uniform :
  forall y x, (y <= h)%nat -> (x <= w)%nat ->
    entry (N := Real) (integralImage (N := Real) (repeat v (w * h)) w h)
      (y * (w + 1) + x) = v * INR x * INR y.
Proof.
  unfold integralImage.
  assert (G : forall k, (k <= h)%nat ->
            tableUpTo k (fold_left (integralRow (N := Real) (repeat v (w * h)) w)
                           (seq 0 k) (repeat (ofZ (Number := Real) 0) ((w + 1) * (h + 1))))).
  { induction k as [|k IH]; intros Hk.
    - cbn [seq fold_left]. split; [apply repeat_length|].
      intros y x Hy Hx. rewrite entry_repeat by nia.
      destruct (Nat.leb_spec y 0); [|reflexivity].
      assert (y = 0)%nat by lia. subst y. cbn. lra.
    - rewrite seq_S, fold_left_app. cbn [Nat.add fold_left].
      replace (S k) with (k + 1)%nat by lia.
      apply integralRow_uniform; [lia|]. apply IH. lia. }
  intros y x Hy Hx. destruct (G h (Nat.le_refl h)) as [_ Hent].
  rewrite Hent by assumption.
  destruct (Nat.leb_spec y h); [reflexivity|lia].
Qed.

(** What [adaptiveThreshold] stores for offset [C] on a uniform image: black
    when [C] is negative, white otherwise. *)
Definition uniformBW (C : R) : R := if RealOps.ltb C 0 then 0 else 255.

Lemma thresholdAt_uniform (half : nat) (C : R) (y x : nat) :
  (y < h)%nat -> (x < w)%nat ->
  thresholdAt (N := Real) (repeat v (w * h))
    (integralImage (N := Real) (repeat v (w * h)) w h) w h half C y x
  = uniformBW C.
Proof.
  intros Hy Hx. unfold thresholdAt.
  set (x1 := (x - half)%nat). set (y1 := (y - half)%nat).
  set (x2 := Nat.min (w - 1) (x + half)). set (y2 := Nat.min (h - 1) (y + half)).
  assert (Hx1 : (x1 <= x2)%nat) by (unfold x1, x2; lia).
  assert (Hy1 : (y1 <= y2)%nat) by (unfold y1, y2; lia).
  assert (Hx2 : (x2 + 1 <= w)%nat) by (unfold x2; lia).
  assert (Hy2 : (y2 + 1 <= h)%nat) by (unfold y2; lia).
  rewrite !integralImage_uniform by lia.
  rewrite entry_repeat by nia.
  rewrite ofNat_INR. cbn [sub add div mul lt Real ofZ].
  rewrite mult_INR, !plus_INR, !minus_INR by lia. cbn [INR].
  set (X1 := INR x1). set (X2 := INR x2). set (Y1 := INR y1). set (Y2 := INR y2).
  assert (HX : X1 <= X2) by (apply le_INR; exact Hx1).
  assert (HY : Y1 <= Y2) by (apply le_INR; exact Hy1).
  assert (E : (v * (X2 + 1) * (Y2 + 1) - v * (X2 + 1) * Y1 - v * X1 * (Y2 + 1)
               + v * X1 * Y1) / ((X2 - X1 + 1) * (Y2 - Y1 + 1)) = v).
  { field. split; lra. }
  rewrite E. unfold uniformBW.
  destruct (RealOps.ltb C 0) eqn:EC.
  - apply ltb_true in EC. rewrite (proj2 (ltb_true v (v - C))) by lra. reflexivity.
  - apply ltb_false in EC. rewrite (proj2 (ltb_false v (v - C))) by lra. reflexivity.
Qed.

Lemma uniformBW_stored (C : R) : clamp8 (Number := Real) (uniformBW C) = uniformBW C.
Proof.
  unfold uniformBW. destruct (RealOps.ltb C 0);
    [apply clamp8_0_real | apply clamp8_255_real].
Qed.

(** Storing one value [c] at every index of a row-major [w] by [rows] scan. *)
Lemma scan_fill (f : nat -> nat -> R) (c : R) (rows : nat) (out : list R) :
  (rows <= h)%nat -> length out = (w * h)%nat ->
  (forall y x, (y < rows)%nat -> (x < w)%nat -> clamp8 (Number := Real) (f y x) = c) ->
  let out' :=
    fold_left
      (fun out y =>
         fold_left (fun out x => store8 (N := Real) out ((y * w + x)%nat, f y x))
           (seq 0 w) out)
      (seq 0 rows) out in
  length out' = (w * h)%nat /\
  forall i, (i < w * h)%nat ->
    entry (N := Real) out' i = if (i <? rows * w)%nat then c else entry (N := Real) out i.
Proof.
  intros Hr Hlen Hf. induction rows as [|rows IH]; cbv zeta.
  - cbn [seq fold_left]. split; [exact Hlen|]. intros i Hi.
    cbn [Nat.mul]. destruct (Nat.ltb_spec i 0); [lia|reflexivity].
  - rewrite seq_S, fold_left_app. cbn [Nat.add fold_left].
    specialize (IH ltac:(lia) ltac:(intros; apply Hf; lia)). cbv zeta in IH.
    match type of IH with length ?t = _ /\ _ => set (o := t) in * end.
    destruct IH as [Hl He].
    assert (G : forall k, (k <= w)%nat ->
      let o' := fold_left (fun out x => store8 (N := Real) out ((rows * w + x)%nat, f rows x))
                  (seq 0 k) o in
      length o' = (w * h)%nat /\
      forall i, (i < w * h)%nat ->
        entry (N := Real) o' i =
        if (i <? rows * w + k)%nat then c else entry (N := Real) out i).
    { induction k as [|k IHk]; intros Hk; cbv zeta.
      - cbn [seq fold_left]. split; [exact Hl|]. intros i Hi.
        rewrite He by exact Hi. rewrite Nat.add_0_r. reflexivity.
      - rewrite seq_S, fold_left_app. cbn [Nat.add fold_left].
        specialize (IHk ltac:(lia)). cbv zeta in IHk.
        match type of IHk with length ?t = _ /\ _ => set (o1 := t) in * end.
        destruct IHk as [Hl1 He1].
        unfold store8. cbn [fst snd].
        split; [rewrite length_upd; exact Hl1|]. intros i Hi.
        destruct (Nat.eq_dec i (rows * w + k)) as [->|NE].
        + unfold entry. rewrite nth_upd_eq by (apply (lt_length _ Hl1); nia).
          rewrite Hf by lia.
          destruct (Nat.ltb_spec (rows * w + k) (rows * w + S k)); [reflexivity|lia].
        + unfold entry at 1. rewrite nth_upd_ne by (intros E; apply NE; symmetry; exact E).
          fold (entry (N := Real) o1 i). rewrite He1 by exact Hi.
          destruct (Nat.ltb_spec i (rows * w + k)), (Nat.ltb_spec i (rows * w + S k));
            try reflexivity; lia. }
    destruct (G w (Nat.le_refl w)) as [Hl2 He2]. split; [exact Hl2|].
    intros i Hi. rewrite He2 by exact Hi.
    replace (S rows * w)%nat with (rows * w + w)%nat by lia. reflexivity.
Qed.

Lemma adaptiveThreshold_uniform (blockSize C : R) (i : nat) :
  (i < w * h)%nat ->
  entry (N := Real)
    (adaptiveThreshold (N := Real) (repeat v (w * h)) w h blockSize C) i
  = uniformBW C.
Proof.
  intros Hi. unfold adaptiveThreshold.
  set (half := toNat _). set (I := integralImage _ _ _).
  pose proof (@scan_fill
                (fun y x => thresholdAt (N := Real) (repeat v (w * h)) I w h half C y x)
                (uniformBW C) h (repeat (ofZ (Number := Real) 0) (w * h))
                (Nat.le_refl h) (repeat_length _ _)) as G.
  cbv zeta in G. destruct G as [_ G].
  - intros y x Hy Hx. unfold I. rewrite thresholdAt_uniform by assumption.
    apply uniformBW_stored.
  - rewrite G by exact Hi.
    destruct (Nat.ltb_spec i (h * w)); [reflexivity|lia].
Qed.
End UniformImage.

Section EnhanceBWUniform.
Local Open Scope R_scope.

(** A [w] by [h] RGBA buffer in which every pixel has the colour [(r, g, b)]. *)
Definition uniformData (data : list R) (w h : nat) (r g b : R) : Prop :=
  length data = (w * h * 4)%nat /\
  forall i, (i < w * h)%nat ->
    entry (N := Real) data (i * 4) = r /\
    entry (N := Real) data (i * 4 + 1) = g /\
    entry (N := Real) data (i * 4 + 2) = b.

Lemma map_seq_const {A : Type} (f : nat -> A) (c : A) (n : nat) :
  (forall i, (i < n)%nat -> f i = c) -> map f (seq 0 n) = repeat c n.
Proof.
  induction n as [|n IH]; intros H; [reflexivity|].
  rewrite seq_S, map_app, IH by (intros; apply H; lia).
  cbn [map Nat.add]. rewrite (H n) by lia.
  rewrite <- repeat_cons. reflexivity.
Qed.

Lemma toGray_uniform (data : list R) (w h : nat) (r g b : R) :
  uniformData data w h r g b ->
  toGray (N := Real) data w h
  = repeat (299 / 1000 * r + 587 / 1000 * g + 114 / 1000 * b) (w * h).
Proof.
  intros [_ Hu]. unfold toGray. apply map_seq_const.
  intros i Hi. destruct (Hu i Hi) as (-> & -> & ->). reflexivity.
Qed.

(** The last loop of [enhanceBW] when every [bw[i]] is [c]. *)
Lemma setRGB_fill (bw : list R) (c : R) (n k : nat) (data : list R) :
  length data = (n * 4)%nat -> (k <= n)%nat ->
  clamp8 (Number := Real) c = c ->
  (forall i, (i < n)%nat -> entry (N := Real) bw i = c) ->
  let out := fold_left (fun data i => setRGB (N := Real) data i (entry (N := Real) bw i))
               (seq 0 k) data in
  length out = (n * 4)%nat /\
  forall i, (i < n)%nat ->
    (if (i <? k)%nat
     then entry (N := Real) out (i * 4) = c /\
          entry (N := Real) out (i * 4 + 1) = c /\
          entry (N := Real) out (i * 4 + 2) = c
     else entry (N := Real) out (i * 4) = entry (N := Real) data (i * 4) /\
          entry (N := Real) out (i * 4 + 1) = entry (N := Real) data (i * 4 + 1) /\
          entry (N := Real) out (i * 4 + 2) = entry (N := Real) data (i * 4 + 2)) /\
    entry (N := Real) out (i * 4 + 3) = entry (N := Real) data (i * 4 + 3).
Proof.
  intros Hlen Hk Hc Hbw. induction k as [|k IH]; cbv zeta.
  - cbn [seq fold_left]. split; [exact Hlen|]. intros i Hi.
    destruct (Nat.ltb_spec i 0); [lia|]. repeat split; reflexivity.
  - rewrite seq_S, fold_left_app. cbn [Nat.add fold_left].
    specialize (IH ltac:(lia)). cbv zeta in IH.
    match type of IH with length ?t = _ /\ _ => set (o := t) in * end.
    destruct IH as [Hl He].
    rewrite Hbw by lia. unfold setRGB, store8. cbn [fst snd]. rewrite Hc.
    split; [rewrite !length_upd; exact Hl|]. intros i Hi.
    specialize (He i Hi). unfold entry in *.
    destruct (Nat.eq_dec i k) as [->|NE].
    + destruct (Nat.ltb_spec k (S k)); [|lia].
      destruct (Nat.ltb_spec k k); [lia|].
      destruct He as (_ & E3).
      repeat split.
      * rewrite nth_upd_eq; [reflexivity|]. rewrite !length_upd.
        apply (lt_length _ Hl). lia.
      * rewrite nth_upd_ne by lia. rewrite nth_upd_eq; [reflexivity|].
        rewrite !length_upd. apply (lt_length _ Hl). lia.
      * rewrite !nth_upd_ne by lia. rewrite nth_upd_eq; [reflexivity|].
        apply (lt_length _ Hl). lia.
      * rewrite !nth_upd_ne by lia. exact E3.
    + rewrite !nth_upd_ne by lia.
      destruct (Nat.ltb_spec i k), (Nat.ltb_spec i (S k)); try lia; exact He.
Qed.

(** C8: on a uniform image, [adaptiveThreshold] with a block size that is
    not negative and an offset [C] of magnitude at least 1 yields one value
    for every pixel, black when [C] is negative and white when it is
    positive; and [enhanceBW], whose block size is at least 15 and whose
    offset is 10, turns every pixel pure white, leaving the alpha bytes as
    they were.  (A negative block size is outside the definition of
    [adaptiveThreshold]; at an offset of 0 the test compares a gray level
    with its own mean, which rounding decides in the engine.) *)
Theorem enhanceBW_uniform (data : list R) (w h : nat) (r g b : R) :
  uniformData data w h r g b ->
  (forall blockSize C i, 0 <= blockSize -> 1 <= Rabs C -> (i < w * h)%nat ->
     entry (N := Real)
       (adaptiveThreshold (N := Real) (toGray (N := Real) data w h) w h blockSize C) i
     = if RealOps.ltb C 0 then 0 else 255) /\
  (forall i, (i < w * h)%nat ->
     entry (N := Real) (enhanceBW (N := Real) data w h) (i * 4) = 255 /\
     entry (N := Real) (enhanceBW (N := Real) data w h) (i * 4 + 1) = 255 /\
     entry (N := Real) (enhanceBW (N := Real) data w h) (i * 4 + 2) = 255 /\
     entry (N := Real) (enhanceBW (N := Real) data w h) (i * 4 + 3)
     = entry (N := Real) data (i * 4 + 3)).
Proof.
  intros Hu. pose proof (toGray_uniform Hu) as Eg. split.
  - intros blockSize C i _ _ Hi. rewrite Eg. apply adaptiveThreshold_uniform. exact Hi.
  - intros i Hi. unfold enhanceBW. rewrite Eg.
    set (bw := adaptiveThreshold _ _ _ _ _).
    assert (Hbw : forall j, (j < w * h)%nat -> entry (N := Real) bw j = 255).
    { intros j Hj. unfold bw. rewrite adaptiveThreshold_uniform by exact Hj.
      unfold uniformBW. cbn. rewrite (proj2 (ltb_false 10 0)) by lra. reflexivity. }
    destruct Hu as [Hlen _].
    destruct (@setRGB_fill bw 255 (w * h) (w * h) data Hlen (Nat.le_refl _)
                clamp8_255_real Hbw) as [_ G].
    specialize (G i Hi). destruct (Nat.ltb_spec i (w * h)); [|lia].
    destruct G as ((G0 & G1 & G2) & G3). auto.
Qed.

(** A mid-gray picture of three by two pixels, its alpha bytes all
    different. *)
Definition midGray : list R :=
  [128; 128; 128; 255;  128; 128; 128; 200;  128; 128; 128; 150;
   128; 128; 128; 100;  128; 128; 128; 50;   128; 128; 128; 0].

Lemma midGray_uniform : uniformData midGray 3 2 128 128 128.
Proof.
  split; [reflexivity|]. intros i Hi.
  do 6 (destruct i as [|i]; [repeat split; reflexivity|]).
  cbn in Hi. lia.
Qed.

Lemma enhanceBW_uniform_witness :
  (forall blockSize C i, 0 <= blockSize -> 1 <= Rabs C -> (i < 3 * 2)%nat ->
     entry (N := Real)
       (adaptiveThreshold (N := Real) (toGray (N := Real) midGray 3 2) 3 2 blockSize C) i
     = if RealOps.ltb C 0 then 0 else 255) /\
  (forall i, (i < 3 * 2)%nat ->
     entry (N := Real) (enhanceBW (N := Real) midGray 3 2) (i * 4) = 255 /\
     entry (N := Real) (enhanceBW (N := Real) midGray 3 2) (i * 4 + 1) = 255 /\
     entry (N := Real) (enhanceBW (N := Real) midGray 3 2) (i * 4 + 2) = 255 /\
     entry (N := Real) (enhanceBW (N := Real) midGray 3 2) (i * 4 + 3)
     = entry (N := Real) midGray (i * 4 + 3)).
Proof.
  apply (@enhanceBW_uniform midGray 3 2 128 128 128). exact midGray_uniform.
Defined.
End EnhanceBWUniform.

(** ** The linear solver: what a returned vector is *)

Lemma nth_map_seq {A : Type} (f : nat -> A) (n k : nat) (d : A) :
  (k < n)%nat -> nth k (map f (seq 0 n)) d = f k.
Proof.
  intros Hk. rewrite (nth_indep _ d (f 0%nat)) by (rewrite length_map, length_seq; exact Hk).
  rewrite (map_nth f). rewrite seq_nth by exact Hk. reflexivity.
Qed.

Section SolveUnique.
Local Open Scope R_scope.

(** A round of the elimination loses no solution. *)
Lemma forwardStep_keeps (n col : nat) (M M' : list (list R)) (x : list R) :
  (col < n)%nat -> eliminated n col M ->
  forwardStep (N := Real) n (Some M) col = Some M' ->
  satisfies n M x -> satisfies n M' x.
Proof.
  intros Hc (Hwf & Hz & Hf) Hstep Hs. unfold forwardStep in Hstep.
  destruct Hwf as [Hl Hr].
  pose proof (@pivotRow_range M col n Hc) as Hp.
  set (p := pivotRow (N := Real) M col n) in *.
  destruct (@swapRows_spec M col p (lt_length _ Hl Hc) (lt_length _ Hl (proj2 Hp)))
    as [Hl1 Hr1].
  set (M1 := swapRows (N := Real) M col p) in *.
  assert (Hwf1 : wellFormed n M1).
  { split; [exact (eq_trans Hl1 Hl)|]. intros i Hi. rewrite Hr1.
    destruct (i =? p)%nat; [apply Hr; lia|].
    destruct (i =? col)%nat; apply Hr; lia. }
  assert (Hs1 : satisfies n M1 x).
  { intros i Hi. rewrite Hr1.
    destruct (i =? p)%nat; [apply Hs; lia|].
    destruct (i =? col)%nat; apply Hs; lia. }
  destruct (lt (Number := Real) (abs (Number := Real) (cell (N := Real) M1 col col)) _);
    [discriminate|].
  injection Hstep as <-.
  destruct (@eliminate_spec M1 col n Hc Hwf1) as [_ Hr2].
  intros i Hi. rewrite Hr2.
  destruct (Nat.ltb_spec col i); cbn [andb]; [|apply Hs1; exact Hi].
  destruct (Nat.ltb_spec i n); [|lia]. cbn [andb].
  destruct (@dot_eliminateRow n col (rowAt (N := Real) M1 col)
              (rowAt (N := Real) M1 i) x ltac:(lia) ltac:(apply Hwf1; lia))
    as [Ed Ee].
  { intros j Hj. unfold zerosLeft in Hz. fold (cell (N := Real) M1 col j).
    unfold cell. rewrite Hr1.
    destruct (col =? p)%nat eqn:E; [apply (Hz col j); lia|].
    rewrite Nat.eqb_refl. apply (Hz p j); lia. }
  rewrite Ed, Ee, (Hs1 i Hi), (Hs1 col Hc). reflexivity.
Qed.

Lemma forward_keeps (n k : nat) (M0 Mk : list (list R)) (x : list R) :
  (k <= n)%nat -> eliminated n 0 M0 ->
  fold_left (forwardStep (N := Real) n) (seq 0 k) (Some M0) = Some Mk ->
  satisfies n M0 x -> satisfies n Mk x.
Proof.
  revert Mk. induction k as [|k IH]; intros Mk Hk H0 Hrun Hs.
  - injection Hrun as <-. exact Hs.
  - rewrite seq_S, fold_left_app in Hrun. cbn [fold_left Nat.add] in Hrun.
    destruct (fold_left (forwardStep (N := Real) n) (seq 0 k) (Some M0))
      as [M|] eqn:Eprev; [|discriminate].
    destruct (@forward_spec n k M0 M ltac:(lia) H0 Eprev) as [Hinv _].
    apply (@forwardStep_keeps n k M Mk x ltac:(lia) Hinv Hrun).
    apply IH; [lia | exact H0 | reflexivity | exact Hs].
Qed.

(** A triangular system with a non-zero diagonal determines its solution. *)
Lemma triangular_unique (n : nat) (M : list (list R)) (x y : list R) :
  eliminated n n M -> satisfies n M x -> satisfies n M y ->
  forall i, (i < n)%nat -> entry (N := Real) x i = entry (N := Real) y i.
Proof.
  intros (_ & _ & Hf) Hx Hy.
  assert (G : forall k i, (n - k <= i < n)%nat ->
            entry (N := Real) x i = entry (N := Real) y i).
  { induction k as [|k IH]; intros i Hi; [lia|].
    destruct (Nat.eq_dec i (n - S k)) as [E|NE]; [|apply IH; lia].
    destruct (Hf i ltac:(lia)) as [Hd Hzero].
    pose proof (Hx i ltac:(lia)) as Ex. pose proof (Hy i ltac:(lia)) as Ey.
    unfold dot in Ex, Ey.
    replace n with (i + (1 + (n - S i)))%nat in Ex at 1 by lia.
    replace n with (i + (1 + (n - S i)))%nat in Ey at 1 by lia.
    rewrite !seq_app, !sumOver_app in Ex, Ey. cbn [seq sumOver_cons] in Ex, Ey.
    rewrite sumOver_zero in Ex, Ey;
      try (intros j Hj; apply in_seq in Hj; fold (cell (N := Real) M i j);
           rewrite (Hzero j) by lia; apply Rmult_0_l).
    rewrite (@sumOver_ext _ (fun j => cell (N := Real) M i j * entry (N := Real) y j)
               (seq (0 + i + 1) (n - S i))) in Ex.
    2:{ intros j Hj. apply in_seq in Hj. fold (cell (N := Real) M i j).
        rewrite (IH j) by lia. reflexivity. }
    cbn [Nat.add] in Ex, Ey. rewrite !sumOver_cons in Ex, Ey.
    fold (cell (N := Real) M i i) in Ex, Ey.
    apply (Rmult_eq_reg_l (cell (N := Real) M i i)); [|exact Hd].
    unfold cell in *. unfold sumOver in Ex, Ey. cbn [fold_right] in Ex, Ey. lra. }
  intros i Hi. apply (G n). lia.
Qed.

Lemma augmented_satisfied (n : nat) (A : list (list R)) (b y : list R) :
  squareSystem n A b ->
  (forall i, (i < n)%nat -> dot n (rowAt (N := Real) A i) y = entry (N := Real) b i) ->
  satisfies n (augmented (N := Real) A b) y.
Proof.
  intros Hsq Hy i Hi. rewrite (augmented_row Hsq Hi).
  rewrite (entry_app_last _ _ (proj2 Hsq i Hi)), <- (Hy i Hi).
  apply sumOver_ext. intros j Hj. apply in_seq in Hj.
  rewrite (@entry_app_front (rowAt (N := Real) A i) _ j); [reflexivity|].
  apply (lt_length _ (proj2 Hsq i Hi)). lia.
Qed.

Lemma solve_unique (n : nat) (A : list (list R)) (b x y : list R) :
  squareSystem n A b -> solve (N := Real) A b = Some x ->
  length y = n ->
  (forall i, (i < n)%nat -> dot n (rowAt (N := Real) A i) y = entry (N := Real) b i) ->
  y = x.
Proof.
  intros Hsq Hrun Hly Hy. rewrite solve_unfold, (proj1 Hsq) in Hrun.
  destruct (fold_left (forwardStep (N := Real) n) (seq 0 n)
              (Some (augmented (N := Real) A b))) as [M|] eqn:Efwd; [|discriminate].
  injection Hrun as <-.
  destruct (@forward_spec n n _ M (Nat.le_refl n) (augmented_eliminated Hsq) Efwd)
    as [Hinv _].
  destruct (backSubstitute_spec Hinv) as [Hlx Hsx].
  pose proof (@forward_keeps n n _ M y (Nat.le_refl n) (augmented_eliminated Hsq)
                Efwd (@augmented_satisfied n A b y Hsq Hy)) as Hsy.
  apply (nth_ext _ _ 0 0); [exact (eq_trans Hly (eq_sym Hlx))|].
  intros i Hi. symmetry.
  apply (triangular_unique Hinv Hsx Hsy).
  rewrite <- Hly. exact Hi.
Qed.

(** [solve] in exact arithmetic: a returned vector has one entry for each
    equation and satisfies every equation of the system. *)
Theorem solve_returns_solution (n : nat) (A : list (list R)) (b x : list R) :
  squareSystem n A b -> solve (N := Real) A b = Some x ->
  length x = n /\
  forall i, (i < n)%nat ->
    dot n (rowAt (N := Real) A i) x = entry (N := Real) b i.
Proof. intros Hsq Hrun. exact (solve_sound Hsq Hrun). Qed.

(** [solve] in exact arithmetic: when it returns a vector, the system has no
    other solution. *)
Theorem solve_solution_is_unique (n : nat) (A : list (list R)) (b x : list R) :
  squareSystem n A b -> solve (N := Real) A b = Some x ->
  forall y, length y = n ->
    (forall i, (i < n)%nat ->
       dot n (rowAt (N := Real) A i) y = entry (N := Real) b i) ->
    y = x.
Proof. intros Hsq Hrun y Hly Hy. exact (@solve_unique n A b x y Hsq Hrun Hly Hy). Qed.

Lemma dot_sum (n : nat) (r x v : list R) :
  dot n r (map (fun i => entry (N := Real) x i + entry (N := Real) v i) (seq 0 n))
  = dot n r x + dot n r v.
Proof.
  unfold dot.
  rewrite (@sumOver_ext _
             (fun j => entry (N := Real) r j * entry (N := Real) x j
                       - (-1) * (entry (N := Real) r j * entry (N := Real) v j))).
  - rewrite sumOver_linear. lra.
  - intros j Hj. apply in_seq in Hj. unfold entry at 2.
    rewrite nth_map_seq by lia. unfold entry. cbn. lra.
Qed.

(** [solve] in exact arithmetic: a system whose matrix sends some non-zero
    vector to zero gets no answer, whatever the right-hand side. *)
Theorem solve_singular_is_null (n : nat) (A : list (list R)) (b v : list R) (k : nat) :
  squareSystem n A b ->
  (k < n)%nat -> entry (N := Real) v k <> 0 ->
  (forall i, (i < n)%nat -> dot n (rowAt (N := Real) A i) v = 0) ->
  solve (N := Real) A b = None.
Proof.
  intros Hsq Hk Hvk Hv.
  destruct (solve (N := Real) A b) as [x|] eqn:Hrun; [exfalso|reflexivity].
  destruct (solve_sound Hsq Hrun) as [Hlx Hx].
  set (y := map (fun i => entry (N := Real) x i + entry (N := Real) v i) (seq 0 n)).
  assert (Hy : y = x).
  { apply (@solve_unique n A b x y Hsq Hrun).
    - unfold y. rewrite length_map, length_seq. reflexivity.
    - intros i Hi. unfold y. rewrite dot_sum, (Hx i Hi), (Hv i Hi). lra. }
  assert (E : entry (N := Real) y k = entry (N := Real) x k) by (rewrite Hy; reflexivity).
  unfold y, entry at 1 in E. rewrite nth_map_seq in E by exact Hk.
  apply Hvk. unfold entry in *. cbn in *. lra.
Qed.
End SolveUnique.
(** *** Runs of the solver *)

Section SolveRuns.
Local Open Scope R_scope.

Definition zRow {N : Number} (l : list Z) : list (@num N) := map ofZ l.
Definition zMatrix {N : Number} (M : list (list Z)) : list (list (@num N)) :=
  map zRow M.

Lemma realRow_zRow (m : Approx) (l : list Z) :
  realRow (m := m) (zRow l) = zRow (N := Real) l.
Proof.
  unfold realRow, phiRow, zRow. rewrite map_map. apply map_ext.
  intros z. apply Q2R_ofZ.
Qed.

Lemma solve_rational (m : Approx) (A : list (list Z)) (b : list Z) :
  solve (N := Real) (zMatrix A) (zRow b)
  = option_map (realRow (m := m)) (solve (N := Rational m) (zMatrix A) (zRow b)).
Proof.
  rewrite <- (realRow_zRow m b).
  replace (zMatrix (N := Real) A)
    with (@phiMatrix (Rational m) Real Q2R (zMatrix (N := Rational m) A)).
  - apply (@solve_phi (Rational m) Real Q2R);
      intros;
      first [ exact (Q2R_ofZ _)
            | exact (eq_trans (Q2R_red _) (Qreals.Q2R_minus _ _))
            | exact (eq_trans (Q2R_red _) (Qreals.Q2R_mult _ _))
            | exact (eq_trans (Q2R_red _) (Q2R_quotient _ _))
            | exact (Q2R_magnitude _)
            | exact (Q2R_ltb _ _) ].
  - unfold phiMatrix, zMatrix. rewrite map_map. apply map_ext.
    intros r. apply (realRow_zRow m).
Qed.

(** The system [2x + y = 3], [x + 3y = 5]. *)
Definition twoEquations : list (list Z) := [[2; 1]; [1; 3]]%Z.
Definition twoValues : list Z := [3; 5]%Z.
Definition twoSolution : list (@num (Rational crude)) :=
  [QArith_base.Qmake 4 5; QArith_base.Qmake 7 5].

Lemma twoEquations_square :
  squareSystem 2 (zMatrix (N := Real) twoEquations) (zRow (N := Real) twoValues).
Proof.
  split; [reflexivity|]. intros i Hi.
  destruct i as [|[|i]]; [reflexivity | reflexivity | lia].
Qed.

Lemma twoEquations_rational :
  solve (N := Rational crude) (zMatrix twoEquations) (zRow twoValues)
  = Some twoSolution.
Proof. vm_compute. reflexivity. Qed.

Lemma twoEquations_real :
  solve (N := Real) (zMatrix twoEquations) (zRow twoValues)
  = Some (realRow twoSolution).
Proof. rewrite (solve_rational crude), twoEquations_rational. reflexivity. Qed.

Lemma solve_returns_solution_witness :
  length (realRow twoSolution) = 2%nat /\
  forall i, (i < 2)%nat ->
    dot 2 (rowAt (N := Real) (zMatrix twoEquations) i) (realRow twoSolution)
    = entry (N := Real) (zRow twoValues) i.
Proof.
  exact (@solve_returns_solution 2 _ _ _ twoEquations_square twoEquations_real).
Defined.

Lemma twoSolution_values : realRow twoSolution = [4 / 5; 7 / 5].
Proof.
  unfold realRow, phiRow, twoSolution. cbn [map]. unfold Q2R. cbn.
  repeat (f_equal; try lra).
Qed.

Lemma solve_solution_is_unique_witness : [4 / 5; 7 / 5] = realRow twoSolution.
Proof.
  apply (@solve_solution_is_unique 2 _ _ _ twoEquations_square twoEquations_real
           [4 / 5; 7 / 5] eq_refl).
  intros i Hi. destruct i as [|[|i]]; [| |lia];
    unfold dot, sumOver; cbn; lra.
Defined.

Lemma solve_singular_is_null_witness :
  solve (N := Real) [[1; 2]; [2; 4]] [1; 1] = None.
Proof.
  apply (@solve_singular_is_null 2 [[1; 2]; [2; 4]] [1; 1] [2; -1] 0).
  - split; [reflexivity|]. intros i Hi.
    destruct i as [|[|i]]; [reflexivity | reflexivity | lia].
  - lia.
  - unfold entry. cbn. lra.
  - intros i Hi. destruct i as [|[|i]]; [| |lia];
      unfold dot, sumOver; cbn; lra.
Defined.
End SolveRuns.
(** ** The inverse and the homography, entry by entry *)

Section InverseExact.
Local Open Scope R_scope.

(** The entry [(i, j)] of the product of two 3 by 3 matrices stored row by
    row. *)
Definition product3 (a b : list R) (i j : nat) : R :=
  entry (N := Real) a (3 * i) * entry (N := Real) b j
  + entry (N := Real) a (3 * i + 1) * entry (N := Real) b (3 + j)
  + entry (N := Real) a (3 * i + 2) * entry (N := Real) b (6 + j).

Lemma inverse_entries (a b c d e f g h k : R) :
  let det := a * (e * k - f * h) - b * (d * k - f * g) + c * (d * h - e * g) in
  det <> 0 ->
  let inv := 1 / det in
  forall i j, (i < 3)%nat -> (j < 3)%nat ->
    product3 [a; b; c; d; e; f; g; h; k]
      [ (e * k - f * h) * inv; (c * h - b * k) * inv; (b * f - c * e) * inv;
        (f * g - d * k) * inv; (a * k - c * g) * inv; (c * d - a * f) * inv;
        (d * h - e * g) * inv; (b * g - a * h) * inv; (a * e - b * d) * inv ] i j
    = (if (i =? j)%nat then 1 else 0) /\
    product3
      [ (e * k - f * h) * inv; (c * h - b * k) * inv; (b * f - c * e) * inv;
        (f * g - d * k) * inv; (a * k - c * g) * inv; (c * d - a * f) * inv;
        (d * h - e * g) * inv; (b * g - a * h) * inv; (a * e - b * d) * inv ]
      [a; b; c; d; e; f; g; h; k] i j
    = (if (i =? j)%nat then 1 else 0).
Proof.
  intros det Hdet inv i j Hi Hj.
  assert (Hi' : (i = 0 \/ i = 1 \/ i = 2)%nat) by lia.
  assert (Hj' : (j = 0 \/ j = 1 \/ j = 2)%nat) by lia.
  destruct Hi' as [->|[->| ->]], Hj' as [->|[->| ->]];
    unfold product3, entry; cbn [nth Nat.mul Nat.add Nat.eqb];
    unfold inv, det; split; field; exact Hdet.
Qed.

(** [invert3x3] in exact arithmetic: a returned matrix is the inverse, on
    both sides. *)
Theorem invert3x3_is_inverse (m inv : list R) (i j : nat) :
  invert3x3 (N := Real) m = Some inv -> (i < 3)%nat -> (j < 3)%nat ->
  product3 m inv i j = (if (i =? j)%nat then 1 else 0) /\
  product3 inv m i j = (if (i =? j)%nat then 1 else 0).
Proof.
  intros Einv Hi Hj. destruct (@invert3x3_spec _ _ Einv) as [Hdet ->].
  cbv zeta.
  pose proof (@inverse_entries (entry (N := Real) m 0) (entry (N := Real) m 1)
                (entry (N := Real) m 2) (entry (N := Real) m 3)
                (entry (N := Real) m 4) (entry (N := Real) m 5)
                (entry (N := Real) m 6) (entry (N := Real) m 7)
                (entry (N := Real) m 8) Hdet i j Hi Hj) as G.
  assert (Hi' : (i = 0 \/ i = 1 \/ i = 2)%nat) by lia.
  assert (Hj' : (j = 0 \/ j = 1 \/ j = 2)%nat) by lia.
  destruct Hi' as [->|[->| ->]], Hj' as [->|[->| ->]]; exact G.
Qed.

Lemma invert3x3_is_inverse_witness :
  product3 (realRow stretch) (realRow shrink) 1 1 = 1 /\
  product3 (realRow shrink) (realRow stretch) 1 1 = 1.
Proof.
  exact (@invert3x3_is_inverse _ _ 1 1 shrink_real
           (le_S 2 2 (le_n 2)) (le_S 2 2 (le_n 2))).
Defined.

(** [computeHomography] in exact arithmetic: a returned matrix has 1 as its
    last entry and sends each source point to its destination point, up to
    the projective scale. *)
Theorem computeHomography_maps_corners (srcPts dstPts : list (R * R)) (H : list R) :
  computeHomography (N := Real) srcPts dstPts = Some H ->
  entry (N := Real) H 8 = 1 /\
  forall i, (i < 4)%nat ->
    sends H (pt (N := Real) srcPts i) (pt (N := Real) dstPts i).
Proof. intros Ecomp. exact (computeHomography_sound _ _ Ecomp). Qed.

Lemma computeHomography_maps_corners_witness :
  entry (N := Real) (realRow stretch) 8 = 1 /\
  forall i, (i < 4)%nat ->
    sends (realRow stretch) (pt (N := Real) (zPoints unitSquare) i)
      (pt (N := Real) (zPoints twoByThree) i).
Proof. exact (@computeHomography_maps_corners _ _ _ stretch_real). Defined.
End InverseExact.
(** ** Intersections of lines *)

Section Intersections.
Local Open Scope R_scope.

Lemma guard_nonzero (d : R) :
  RealOps.ltb (Rabs d) (ratio (N := Real) 1 10000000000) = false -> d <> 0.
Proof.
  intros E. apply ltb_false in E. intros Hd. rewrite Hd in E.
  unfold ratio in E. cbn in E. rewrite Rabs_R0 in E. lra.
Qed.

Lemma guard_zero : RealOps.ltb (Rabs 0) (ratio (N := Real) 1 10000000000) = true.
Proof. apply ltb_true. unfold ratio. cbn. rewrite Rabs_R0. lra. Qed.

Lemma cramer_first (a1 b1 a2 b2 r1 r2 det : R) :
  det = a1 * b2 - a2 * b1 -> det <> 0 ->
  (r1 * b2 - r2 * b1) / det * a1 + (r2 * a1 - r1 * a2) / det * b1 = r1.
Proof. intros -> Hd. field. exact Hd. Qed.

Lemma cramer_second (a1 b1 a2 b2 r1 r2 det : R) :
  det = a1 * b2 - a2 * b1 -> det <> 0 ->
  (r1 * b2 - r2 * b1) / det * a2 + (r2 * a1 - r1 * a2) / det * b2 = r2.
Proof. intros -> Hd. field. exact Hd. Qed.

(** [lineIntersection] in exact arithmetic: two lines of the same direction
    have no intersection, and a returned point lies on both lines
    [x cos theta + y sin theta = rho]. *)
Theorem lineIntersection_on_both_lines (l1 l2 : Line (N := Real)) :
  (theta l1 = theta l2 -> lineIntersection l1 l2 = None) /\
  forall p, lineIntersection l1 l2 = Some p ->
    fst p * Rtrigo_def.cos (theta l1) + snd p * Rtrigo_def.sin (theta l1) = rho l1 /\
    fst p * Rtrigo_def.cos (theta l2) + snd p * Rtrigo_def.sin (theta l2) = rho l2.
Proof.
  split.
  - intros E. unfold lineIntersection. cbv zeta. rewrite E.
    replace (sub (Number := Real)
               (mul (Number := Real) (cos (Number := Real) (theta l2))
                  (sin (Number := Real) (theta l2)))
               (mul (Number := Real) (cos (Number := Real) (theta l2))
                  (sin (Number := Real) (theta l2)))) with 0 by (cbn; ring).
    change (lt (Number := Real) (abs (Number := Real) 0) ?r)
      with (RealOps.ltb (Rabs 0) r).
    rewrite guard_zero. reflexivity.
  - intros p. unfold lineIntersection. cbv zeta.
    destruct (lt (Number := Real) _ _) eqn:Eg; [discriminate|].
    apply guard_nonzero in Eg. intros E. injection E as <-. cbn [fst snd].
    split.
    + exact (@cramer_first _ _ _ _ _ _ _ eq_refl Eg).
    + exact (@cramer_second _ _ _ _ _ _ _ eq_refl Eg).
Qed.

Lemma guard_one : RealOps.ltb (Rabs 1) (ratio (N := Real) 1 10000000000) = false.
Proof. apply ltb_false. unfold ratio. cbn. rewrite Rabs_R1. lra. Qed.

(** The vertical line [x = 3] and the horizontal line [y = 4]. *)
Definition lineX3 : Line (N := Real) := {| rho := 3; theta := 0; votes := 1 |}.
Definition lineY4 : Line (N := Real) := {| rho := 4; theta := PI / 2; votes := 1 |}.

Lemma lineX3_meets_lineY4 : lineIntersection lineX3 lineY4 = Some (3, 4).
Proof.
  unfold lineIntersection, lineX3, lineY4. cbn [theta rho]. cbv zeta.
  change (cos (Number := Real)) with Rtrigo_def.cos.
  change (sin (Number := Real)) with Rtrigo_def.sin.
  rewrite cos_0, sin_0, cos_PI2, sin_PI2.
  replace (sub (Number := Real) (mul (Number := Real) 1 1) (mul (Number := Real) 0 0))
    with 1 by (cbn; ring).
  change (lt (Number := Real) (abs (Number := Real) 1) ?r)
    with (RealOps.ltb (Rabs 1) r).
  rewrite guard_one. cbn. f_equal. f_equal; field.
Qed.

Lemma lineIntersection_on_both_lines_witness :
  fst (3, 4) * Rtrigo_def.cos (theta lineX3) + snd (3, 4) * Rtrigo_def.sin (theta lineX3)
  = rho lineX3 /\
  fst (3, 4) * Rtrigo_def.cos (theta lineY4) + snd (3, 4) * Rtrigo_def.sin (theta lineY4)
  = rho lineY4.
Proof.
  exact (proj2 (lineIntersection_on_both_lines lineX3 lineY4) (3, 4)
           lineX3_meets_lineY4).
Defined.

(** [intersectLineEq] in exact arithmetic: lines with proportional normals
    have no intersection, and a returned point satisfies both equations
    [a x + b y + c = 0]. *)
Theorem intersectLineEq_on_both_lines (l1 l2 : FittedLine (N := Real)) :
  (l_a l1 * l_b l2 = l_a l2 * l_b l1 -> intersectLineEq l1 l2 = None) /\
  forall p, intersectLineEq l1 l2 = Some p ->
    l_a l1 * fst p + l_b l1 * snd p + l_c l1 = 0 /\
    l_a l2 * fst p + l_b l2 * snd p + l_c l2 = 0.
Proof.
  split.
  - intros E. unfold intersectLineEq. cbv zeta.
    replace (sub (Number := Real) (mul (Number := Real) (l_a l1) (l_b l2))
               (mul (Number := Real) (l_a l2) (l_b l1))) with 0
      by (cbn; rewrite E; ring).
    change (lt (Number := Real) (abs (Number := Real) 0) ?r)
      with (RealOps.ltb (Rabs 0) r).
    rewrite guard_zero. reflexivity.
  - intros p. unfold intersectLineEq. cbv zeta.
    destruct (lt (Number := Real) _ _) eqn:Eg; [discriminate|].
    apply guard_nonzero in Eg. intros E. injection E as <-. cbn [fst snd].
    cbn in Eg |- *. split; field; exact Eg.
Qed.

(** The lines [x - 3 = 0] and [y - 4 = 0]. *)
Definition fittedX3 : FittedLine (N := Real) :=
  {| l_a := 1; l_b := 0; l_c := -3; l_count := 5; l_score := 5;
     l_inlierMask := []; l_cx := 3; l_cy := 0 |}.
Definition fittedY4 : FittedLine (N := Real) :=
  {| l_a := 0; l_b := 1; l_c := -4; l_count := 5; l_score := 5;
     l_inlierMask := []; l_cx := 0; l_cy := 4 |}.

Lemma fittedX3_meets_fittedY4 : intersectLineEq fittedX3 fittedY4 = Some (3, 4).
Proof.
  unfold intersectLineEq, fittedX3, fittedY4. cbn [l_a l_b l_c]. cbv zeta.
  replace (sub (Number := Real) (mul (Number := Real) 1 1) (mul (Number := Real) 0 0))
    with 1 by (cbn; ring).
  change (lt (Number := Real) (abs (Number := Real) 1) ?r)
    with (RealOps.ltb (Rabs 1) r).
  rewrite guard_one. cbn. f_equal. f_equal; field.
Qed.

Lemma intersectLineEq_on_both_lines_witness :
  l_a fittedX3 * fst (3, 4) + l_b fittedX3 * snd (3, 4) + l_c fittedX3 = 0 /\
  l_a fittedY4 * fst (3, 4) + l_b fittedY4 * snd (3, 4) + l_c fittedY4 = 0.
Proof.
  exact (proj2 (intersectLineEq_on_both_lines fittedX3 fittedY4) (3, 4)
           fittedX3_meets_fittedY4).
Defined.
End Intersections.
(** ** What [detect] answers: corners in the unit square *)

Section UnitSquare.
Local Open Scope R_scope.

Definition inUnit (p : Point2D (N := Real)) : Prop :=
  0 <= p_x p <= 1 /\ 0 <= p_y p <= 1.

Definition inUnitSquare (q : Quad (N := Real)) : Prop :=
  inUnit (tl q) /\ inUnit (tr q) /\ inUnit (br q) /\ inUnit (bl q).

Lemma unitClamp_range (v size : R) : 0 <= unitClamp (N := Real) v size <= 1.
Proof.
  unfold unitClamp. cbn. split.
  - apply Rmax_l.
  - apply Rmax_lub; [lra | apply Rmin_l].
Qed.

Lemma normalizeQuad_inUnitSquare (c0 c1 c2 c3 : R * R) (w h : R) :
  inUnitSquare (normalizeQuad (N := Real) c0 c1 c2 c3 w h).
Proof.
  unfold inUnitSquare, inUnit, normalizeQuad. cbn [tl tr br bl p_x p_y].
  repeat split; apply unitClamp_range.
Qed.

Lemma strategy_inUnitSquare (an : Analysis (N := Real)) (w h : R) (s : Strategy)
    (q : Quad (N := Real)) :
  resultOf an w h s = Some q -> inUnitSquare q.
Proof.
  destruct s; cbn [resultOf]; intros E.
  - apply gradientRansacDetection_gate in E. destruct E as (pts & _ & _ & ->).
    apply normalizeQuad_inUnitSquare.
  - apply orderedResult_gate in E. destruct E as (pts & _ & _ & ->).
    apply normalizeQuad_inUnitSquare.
  - apply orderedResult_gate in E. destruct E as (pts & _ & _ & ->).
    apply normalizeQuad_inUnitSquare.
  - apply findBestQuad_gate in E. destruct E as (a & b & c & d & _ & ->).
    apply normalizeQuad_inUnitSquare.
Qed.

(** [detectDocument] in exact arithmetic: every coordinate of a quad it
    resolves with lies between 0 and 1, whichever strategy found it. *)
Theorem detect_corners_in_unit_square
    (analyse : list R -> nat -> nat -> Analysis (N := Real))
    (payload : Payload (N := Real)) (q : Quad (N := Real)) :
  detectDocument analyse payload = Some q -> inUnitSquare q.
Proof.
  unfold detectDocument. destruct payload as [m|m|img]; try discriminate.
  destruct (scaledSize (N := Real) (bmpWidth img) (bmpHeight img)) as [w h].
  destruct (_ || _); [discriminate|]. intros E.
  apply cascade_result in E. destruct E as [s E].
  exact (strategy_inUnitSquare _ _ _ s E).
Qed.

Lemma detect_corners_in_unit_square_witness : inUnitSquare clampedQuad.
Proof.
  exact (@detect_corners_in_unit_square _ _ _ tiltedDetect).
Defined.
End UnitSquare.
(** ** The size a picture is analysed at *)

Section ScaledSize.
Local Open Scope R_scope.

Lemma rround_INR (n : nat) : RealOps.rround (INR n) = INR n.
Proof.
  unfold RealOps.rround. rewrite (@Int_part_eq (Z.of_nat n)).
  - symmetry. apply INR_IZR_INZ.
  - rewrite <- INR_IZR_INZ. lra.
Qed.

Lemma rround_500 : RealOps.rround 500 = 500.
Proof. unfold RealOps.rround. rewrite (@Int_part_eq 500) by lra. reflexivity. Qed.

Lemma rround_le_500 (x : R) : 0 <= x <= 500 -> 0 <= RealOps.rround x <= 500.
Proof.
  intros [H0 H1]. unfold RealOps.rround.
  destruct (base_Int_part (x + 1 / 2)) as [B1 B2].
  assert (L : (Int_part (x + 1 / 2) <= 500)%Z).
  { apply le_IZR. apply Rnot_lt_le. intros C.
    apply lt_IZR in C.
    assert (H : (501 <= Int_part (x + 1 / 2))%Z) by lia.
    apply IZR_le in H. lra. }
  assert (G : (0 <= Int_part (x + 1 / 2))%Z).
  { apply le_IZR. apply Rnot_lt_le. intros C.
    apply lt_IZR in C.
    assert (H : (Int_part (x + 1 / 2) <= -1)%Z) by lia.
    apply IZR_le in H. lra. }
  split; [apply (IZR_le 0) | apply (IZR_le _ 500)]; assumption.
Qed.

(** [scaledSize] in exact arithmetic: a picture of at most 500 by 500 keeps
    its size; a larger one is scaled so that its longer side is exactly 500
    and the other side at most 500. *)
Theorem scaledSize_long_side_500 (ow oh : nat) :
  ((ow <= 500)%nat -> (oh <= 500)%nat ->
   scaledSize (N := Real) ow oh = (INR ow, INR oh)) /\
  ((500 < Nat.max ow oh)%nat ->
   Rmax (fst (scaledSize (N := Real) ow oh)) (snd (scaledSize (N := Real) ow oh)) = 500 /\
   0 <= fst (scaledSize (N := Real) ow oh) /\
   0 <= snd (scaledSize (N := Real) ow oh)).
Proof.
  unfold scaledSize, gt. rewrite !ofNat_INR. cbn [ofZ Real maxn lt div mul round].
  pose proof (pos_INR ow) as Pw. pose proof (pos_INR oh) as Ph.
  split.
  - intros Hw Hh. apply le_INR in Hw, Hh. replace (INR 500) with 500 in Hw, Hh
      by (cbn; lra).
    rewrite (proj2 (ltb_false 500 (Rmax (INR ow) (INR oh))))
      by (apply Rmax_lub; assumption).
    rewrite !Rmult_1_r, !rround_INR. reflexivity.
  - intros Hbig.
    assert (Hm : 500 < Rmax (INR ow) (INR oh)).
    { replace 500 with (INR 500) by (cbn; lra).
      destruct (Nat.max_spec ow oh) as [[_ E]|[_ E]]; rewrite E in Hbig;
        apply lt_INR in Hbig;
        [ eapply Rlt_le_trans; [exact Hbig | apply Rmax_r]
        | eapply Rlt_le_trans; [exact Hbig | apply Rmax_l] ]. }
    rewrite (proj2 (ltb_true 500 (Rmax (INR ow) (INR oh)))) by exact Hm.
    set (L := Rmax (INR ow) (INR oh)) in *.
    assert (HwL : INR ow <= L) by apply Rmax_l.
    assert (HhL : INR oh <= L) by apply Rmax_r.
    assert (Sw : 0 <= INR ow * (500 / L) <= 500).
    { split.
      - apply Rmult_le_pos; [exact Pw|]. apply Rlt_le, Rdiv_lt_0_compat; lra.
      - apply (Rmult_le_reg_r L); [lra|]. field_simplify; [nra | lra]. }
    assert (Sh : 0 <= INR oh * (500 / L) <= 500).
    { split.
      - apply Rmult_le_pos; [exact Ph|]. apply Rlt_le, Rdiv_lt_0_compat; lra.
      - apply (Rmult_le_reg_r L); [lra|]. field_simplify; [nra | lra]. }
    cbn [fst snd].
    pose proof (rround_le_500 Sw) as Rw. pose proof (rround_le_500 Sh) as Rh.
    split; [|split; [apply Rw | apply Rh]].
    destruct (Rle_dec (INR ow) (INR oh)) as [C|C].
    + assert (EL : L = INR oh) by (apply Rmax_right; exact C).
      assert (E : INR oh * (500 / L) = 500) by (rewrite EL; field; lra).
      rewrite E, rround_500. apply Rmax_right. apply Rw.
    + assert (EL : L = INR ow) by (apply Rmax_left; lra).
      assert (E : INR ow * (500 / L) = 500) by (rewrite EL; field; lra).
      rewrite E, rround_500. apply Rmax_left. apply Rh.
Qed.

Lemma scaledSize_long_side_500_witness :
  Rmax (fst (scaledSize (N := Real) 1200 1600)) (snd (scaledSize (N := Real) 1200 1600))
  = 500 /\
  0 <= fst (scaledSize (N := Real) 1200 1600) /\
  0 <= snd (scaledSize (N := Real) 1200 1600).
Proof.
  apply (proj2 (scaledSize_long_side_500 1200 1600)).
  apply Nat.ltb_lt. vm_compute. reflexivity.
Defined.

Lemma rround_small (x : R) : 0 <= x < 1 / 2 -> RealOps.rround x = 0.
Proof.
  intros H. unfold RealOps.rround. rewrite (@Int_part_eq 0) by lra. reflexivity.
Qed.

Lemma toNat_zero : toNat (N := Real) 0 = 0%nat.
Proof. unfold toNat. cbn [toZ Real]. rewrite (@Int_part_eq 0 0) by lra. reflexivity. Qed.

(** The shorter side of a picture more than 1000 times longer than wide is
    scaled to 0. *)
Lemma sliver_scaled (short long : nat) :
  (500 < long)%nat -> (1000 * short < long)%nat ->
  RealOps.rround (INR short * (500 / INR long)) = 0.
Proof.
  intros Hl Hs. apply lt_INR in Hl, Hs. rewrite mult_INR in Hs.
  replace (INR 500) with 500 in Hl by (cbn; lra).
  replace (INR 1000) with 1000 in Hs by (cbn; lra).
  pose proof (pos_INR short) as Ps.
  apply rround_small. split.
  - apply Rmult_le_pos; [exact Ps|]. apply Rlt_le, Rdiv_lt_0_compat; lra.
  - apply (Rmult_lt_reg_r (INR long)); [lra|]. field_simplify; lra.
Qed.

(** [detectDocument] in exact arithmetic: a picture taller than 500 pixels
    and more than 1000 times taller than wide is scaled to width 0, the
    canvas read throws, and the promise resolves with null. *)
Theorem detect_sliver_is_null
    (analyse : list R -> nat -> nat -> Analysis (N := Real))
    (img : Bitmap (N := Real)) :
  (500 < bmpHeight img)%nat -> (1000 * bmpWidth img < bmpHeight img)%nat ->
  detectDocument analyse (Picture img) = None.
Proof.
  intros Hl Hs. unfold detectDocument, scaledSize, gt. rewrite !ofNat_INR.
  cbn [ofZ Real maxn lt div mul round].
  assert (Hle : INR (bmpWidth img) <= INR (bmpHeight img)) by (apply le_INR; lia).
  rewrite (Rmax_right _ _ Hle).
  assert (Hbig : 500 < INR (bmpHeight img)).
  { replace 500 with (INR 500) by (cbn; lra). apply lt_INR. exact Hl. }
  rewrite (proj2 (ltb_true 500 (INR (bmpHeight img)))) by exact Hbig.
  rewrite (@sliver_scaled _ _ Hl Hs), toNat_zero. reflexivity.
Qed.

Definition sliver : Bitmap (N := Real) :=
  {| bmpWidth := 1; bmpHeight := 1200; drawn := fun _ _ => [] |}.

Lemma detect_sliver_is_null_witness :
  detectDocument (N := Real) (fun _ _ _ => tiltedAnalysis) (Picture sliver) = None.
Proof.
  apply (@detect_sliver_is_null (fun _ _ _ => tiltedAnalysis) sliver);
    apply Nat.ltb_lt; vm_compute; reflexivity.
Defined.
End ScaledSize.
(** ** Sampling and warping at whole pixels *)

Section WholePixels.
Local Open Scope R_scope.

Lemma Int_part_INR (n : nat) : Int_part (INR n) = Z.of_nat n.
Proof. apply Int_part_eq. rewrite <- INR_IZR_INZ. lra. Qed.

Lemma rfloor_INR (n : nat) : RealOps.rfloor (INR n) = INR n.
Proof. unfold RealOps.rfloor. rewrite Int_part_INR. symmetry. apply INR_IZR_INZ. Qed.

Lemma toNat_INR (n : nat) : toNat (N := Real) (INR n) = n.
Proof. unfold toNat. cbn [toZ Real]. rewrite Int_part_INR. apply Nat2Z.id. Qed.

Lemma sample_INR (data : list R) (y sw x c : nat) :
  sample (N := Real) data ((INR y * INR sw + INR x) * 4 + INR c)
  = entry (N := Real) data ((y * sw + x) * 4 + c).
Proof.
  unfold sample.
  replace ((INR y * INR sw + INR x) * 4 + INR c) with (INR ((y * sw + x) * 4 + c)).
  - rewrite toNat_INR. reflexivity.
  - rewrite plus_INR, mult_INR, plus_INR, mult_INR. cbn. ring.
Qed.

Lemma blend_corner (a b c d : R) :
  a * (1 - 0) * (1 - 0) + b * 0 * (1 - 0) + c * (1 - 0) * 0 + d * 0 * 0 = a.
Proof. ring. Qed.

Lemma bilinear_pixel (data : list R) (sw sh x y c : nat) :
  (x < sw)%nat -> (y < sh)%nat -> (c < 3)%nat ->
  entry (N := Real) (bilinear (N := Real) data (INR sw) (INR sh) (INR x) (INR y)) c
  = entry (N := Real) data ((y * sw + x) * 4 + c).
Proof.
  intros Hx Hy Hc. unfold bilinear. cbv zeta.
  cbn [floor Real maxn minn add sub mul ofZ].
  rewrite !rfloor_INR.
  pose proof (pos_INR x) as Px. pose proof (pos_INR y) as Py.
  rewrite !(Rmax_right 0) by assumption.
  unfold entry at 1. rewrite nth_map_seq by exact Hc.
  rewrite ofNat_INR.
  replace (INR x - INR x) with 0 by ring.
  replace (INR y - INR y) with 0 by ring.
  rewrite sample_INR. apply blend_corner.
Qed.

(** [bilinear] in exact arithmetic: at a whole pixel of the source it
    returns that pixel's red, green and blue bytes. *)
Theorem bilinear_at_whole_pixel (data : list R) (sw sh x y c : nat) :
  (x < sw)%nat -> (y < sh)%nat -> (c < 3)%nat ->
  entry (N := Real) (bilinear (N := Real) data (INR sw) (INR sh) (INR x) (INR y)) c
  = entry (N := Real) data ((y * sw + x) * 4 + c).
Proof. intros Hx Hy Hc. exact (@bilinear_pixel data sw sh x y c Hx Hy Hc). Qed.

(** A picture of two by two pixels, all four different. *)
Definition fourPixels : list R :=
  [10; 20; 30; 255;     40; 50; 60; 255;
   70; 80; 90; 255;   100; 110; 120; 255].

Lemma bilinear_at_whole_pixel_witness :
  entry (N := Real) (bilinear (N := Real) fourPixels (INR 2) (INR 2) (INR 1) (INR 0)) 1
  = entry (N := Real) fourPixels ((0 * 2 + 1) * 4 + 1).
Proof.
  apply (@bilinear_at_whole_pixel fourPixels 2 2 1 0 1); lia.
Defined.

Definition identity3 : list R := [1; 0; 0; 0; 1; 0; 0; 0; 1].

Lemma sourceOf_identity (dx dy : R) : sourceOf (N := Real) identity3 dx dy = (dx, dy).
Proof.
  unfold sourceOf, identity3, entry. cbn [nth]. cbn. f_equal; field.
Qed.

Lemma mapsInside_identity (w h x y : nat) :
  (x < w)%nat -> (y < h)%nat -> mapsInside (N := Real) w h identity3 x y = true.
Proof.
  intros Hx Hy. unfold mapsInside. rewrite !ofNat_INR, sourceOf_identity.
  unfold inSource, ge, px, py. cbn [fst snd le lt Real ofZ].
  apply lt_INR in Hx, Hy. pose proof (pos_INR x). pose proof (pos_INR y).
  rewrite (proj2 (leb_true 0 (INR x))), (proj2 (ltb_true (INR x) (INR w))),
    (proj2 (leb_true 0 (INR y))), (proj2 (ltb_true (INR y) (INR h))) by assumption.
  reflexivity.
Qed.

(** The bytes a canvas hands out: integers from 0 to 255. *)
Definition byteImage (data : list R) : Prop :=
  forall i, exists z, (0 <= z <= 255)%Z /\ entry (N := Real) data i = IZR z.

Lemma clamp8_byte (z : Z) : (0 <= z <= 255)%Z -> clamp8 (Number := Real) (IZR z) = IZR z.
Proof.
  intros [H0 H1]. cbn. unfold RealOps.rclamp8.
  apply IZR_le in H0 as R0. apply IZR_le in H1 as R1.
  destruct (Rle_dec (IZR z) 0) as [C|C]; [lra|].
  destruct (Rle_dec 255 (IZR z)) as [D|D]; [lra|].
  rewrite (@Int_part_eq z) by lra.
  destruct (Rlt_dec (IZR z - IZR z) (1 / 2)) as [E|E]; [reflexivity | lra].
Qed.

Lemma pixel_index_bound (w h x y c : nat) :
  (x < w)%nat -> (y < h)%nat -> (c < 4)%nat -> ((y * w + x) * 4 + c < w * h * 4)%nat.
Proof. intros. nia. Qed.

(** [warp] in exact arithmetic: with the identity matrix and the source's
    own size, every pixel of the result has the red, green and blue bytes
    of the same pixel of the source, and alpha 255. *)
Theorem warp_identity_copies (data : list R) (w h x y : nat) :
  byteImage data -> (x < w)%nat -> (y < h)%nat ->
  let out := warp (N := Real) data w h identity3 w h in
  (forall c, (c < 3)%nat ->
     entry (N := Real) out ((y * w + x) * 4 + c)
     = entry (N := Real) data ((y * w + x) * 4 + c)) /\
  entry (N := Real) out ((y * w + x) * 4 + 3) = 255.
Proof.
  intros Hbytes Hx Hy out.
  assert (Hread : forall c, (c < 4)%nat ->
            entry (N := Real) out ((y * w + x) * 4 + c)
            = if (c =? 3)%nat then clamp8 (Number := Real) 255
              else clamp8 (Number := Real)
                     (entry (N := Real)
                        (bilinear (N := Real) data (INR w) (INR h) (INR x) (INR y)) c)).
  { intros c Hc. unfold out, warp.
    rewrite fold_store8_entry
      by (rewrite repeat_length; apply pixel_index_bound; assumption).
    rewrite (@warpWrites_storesTo Real data w h identity3 w h x y c Hx Hy Hc).
    rewrite (@pixelWrites_storesTo Real data w h identity3 w x y x y c Hx Hx Hc).
    rewrite !Nat.eqb_refl. cbn [andb].
    destruct (c =? 3)%nat; [reflexivity|].
    rewrite (@mapsInside_identity w h x y Hx Hy), !ofNat_INR, sourceOf_identity.
    reflexivity. }
  split.
  - intros c Hc. rewrite (Hread c) by lia.
    destruct (Nat.eqb_spec c 3); [lia|].
    rewrite (@bilinear_pixel data w h x y c Hx Hy Hc).
    destruct (Hbytes ((y * w + x) * 4 + c)%nat) as (z & Hz & ->).
    apply clamp8_byte. exact Hz.
  - rewrite (Hread 3%nat) by lia. cbn [Nat.eqb]. apply clamp8_255_real.
Qed.

Lemma fourPixels_bytes : byteImage fourPixels.
Proof.
  intros i. unfold entry, fourPixels.
  do 16 (destruct i as [|i];
         [cbn [nth];
          match goal with
          | |- exists z, _ /\ IZR ?k = IZR z => exists k; split; [lia | reflexivity]
          end|]).
  exists 0%Z. split; [lia|]. destruct i; reflexivity.
Qed.

Lemma warp_identity_copies_witness :
  (forall c, (c < 3)%nat ->
     entry (N := Real) (warp (N := Real) fourPixels 2 2 identity3 2 2)
       ((1 * 2 + 0) * 4 + c)
     = entry (N := Real) fourPixels ((1 * 2 + 0) * 4 + c)) /\
  entry (N := Real) (warp (N := Real) fourPixels 2 2 identity3 2 2)
    ((1 * 2 + 0) * 4 + 3) = 255.
Proof.
  apply (@warp_identity_copies fourPixels 2 2 0 1 fourPixels_bytes); lia.
Defined.
End WholePixels.
(** ** The enhancement filters on any image *)

Section EnhanceAny.
Local Open Scope R_scope.

Lemma entry_upd_cases (i j : nat) (v : R) (l : list R) :
  entry (N := Real) (upd i v l) j = v \/
  entry (N := Real) (upd i v l) j = entry (N := Real) l j.
Proof.
  unfold entry. destruct (Nat.eq_dec i j) as [->|NE].
  - destruct (Nat.lt_ge_cases j (length l)) as [L|L].
    + left. apply nth_upd_eq. exact L.
    + right. rewrite upd_out by exact L. reflexivity.
  - right. apply nth_upd_ne. exact NE.
Qed.

Lemma entry_upd_keeps (Q : R -> Prop) (i j : nat) (v : R) (l : list R) :
  Q v -> Q (entry (N := Real) l j) -> Q (entry (N := Real) (upd i v l) j).
Proof.
  intros Hv Hl. destruct (entry_upd_cases i j v l) as [E|E]; rewrite E; assumption.
Qed.

(** A property of every entry survives a loop of stores of values that
    have it. *)
Lemma stores_keep (Q : R -> Prop) {A : Type} (idx : A -> nat) (val : A -> R)
    (l : list A) (out : list R) :
  (forall a, In a l -> Q (clamp8 (Number := Real) (val a))) ->
  (forall j, Q (entry (N := Real) out j)) ->
  forall j, Q (entry (N := Real)
                 (fold_left (fun out a => store8 (N := Real) out (idx a, val a)) l out) j).
Proof.
  revert out. induction l as [|a l IH]; intros out Hv Ho j; [apply Ho|].
  cbn [fold_left]. apply IH.
  - intros b Hb. apply Hv. right. exact Hb.
  - intros k. unfold store8. cbn [fst snd]. apply entry_upd_keeps.
    + apply Hv. left. reflexivity.
    + apply Ho.
Qed.

Definition blackOrWhite (v : R) : Prop := v = 0 \/ v = 255.

Lemma thresholdAt_blackOrWhite (gray integral : list R) (w h half : nat) (C : R)
    (y x : nat) :
  blackOrWhite
    (clamp8 (Number := Real) (thresholdAt (N := Real) gray integral w h half C y x)).
Proof.
  unfold thresholdAt. cbv zeta. destruct (lt (Number := Real) _ _).
  - left. apply clamp8_0_real.
  - right. apply clamp8_255_real.
Qed.

Lemma adaptiveThreshold_entries (gray : list R) (w h : nat) (blockSize C : R) (i : nat) :
  blackOrWhite (entry (N := Real) (adaptiveThreshold (N := Real) gray w h blockSize C) i).
Proof.
  unfold adaptiveThreshold. cbv zeta.
  generalize (integralImage (N := Real) gray w h). intros integral.
  generalize (toNat (N := Real) (floor (Number := Real)
                (div (Number := Real) blockSize (ofZ (Number := Real) 2)))).
  intros half.
  assert (H0 : forall j, blackOrWhite (entry (N := Real) (repeat (ofZ (Number := Real) 0) (w * h)) j)).
  { intros j. left. unfold entry.
    destruct (Nat.lt_ge_cases j (w * h)) as [L|L].
    - apply nth_repeat_lt. exact L.
    - apply nth_overflow. rewrite repeat_length. exact L. }
  revert H0. generalize (repeat (ofZ (Number := Real) 0) (w * h)).
  generalize (seq 0 h). intros rows. revert i.
  induction rows as [|y rows IH]; intros i out Ho; cbn [fold_left]; [apply Ho|].
  apply IH. intros j.
  apply (stores_keep blackOrWhite (fun x => (y * w + x)%nat)
           (fun x => thresholdAt (N := Real) gray integral w h half C y x)).
  - intros x _. apply thresholdAt_blackOrWhite.
  - exact Ho.
Qed.

(** [adaptiveThreshold]: whatever the image, the block size and the
    offset, every entry of the result is 0 or 255. *)
Theorem adaptiveThreshold_is_binary (gray : list R) (w h : nat) (blockSize C : R)
    (i : nat) :
  entry (N := Real) (adaptiveThreshold (N := Real) gray w h blockSize C) i = 0 \/
  entry (N := Real) (adaptiveThreshold (N := Real) gray w h blockSize C) i = 255.
Proof. exact (adaptiveThreshold_entries gray w h blockSize C i). Qed.

(** A loop that sets the red, green and blue bytes of the pixels below [k]. *)
Lemma setRGB_scan (vals : nat -> R) (n k : nat) (data : list R) :
  length data = (n * 4)%nat -> (k <= n)%nat ->
  let out := fold_left (fun data i => setRGB (N := Real) data i (vals i))
               (seq 0 k) data in
  length out = (n * 4)%nat /\
  forall i, (i < n)%nat ->
    (if (i <? k)%nat
     then entry (N := Real) out (i * 4) = clamp8 (Number := Real) (vals i) /\
          entry (N := Real) out (i * 4 + 1) = clamp8 (Number := Real) (vals i) /\
          entry (N := Real) out (i * 4 + 2) = clamp8 (Number := Real) (vals i)
     else entry (N := Real) out (i * 4) = entry (N := Real) data (i * 4) /\
          entry (N := Real) out (i * 4 + 1) = entry (N := Real) data (i * 4 + 1) /\
          entry (N := Real) out (i * 4 + 2) = entry (N := Real) data (i * 4 + 2)) /\
    entry (N := Real) out (i * 4 + 3) = entry (N := Real) data (i * 4 + 3).
Proof.
  intros Hlen Hk. induction k as [|k IH]; cbv zeta.
  - cbn [seq fold_left]. split; [exact Hlen|]. intros i Hi.
    destruct (Nat.ltb_spec i 0); [lia|]. repeat split; reflexivity.
  - rewrite seq_S, fold_left_app. cbn [Nat.add fold_left].
    specialize (IH ltac:(lia)). cbv zeta in IH.
    match type of IH with length ?t = _ /\ _ => set (o := t) in * end.
    destruct IH as [Hl He].
    unfold setRGB, store8. cbn [fst snd].
    split; [rewrite !length_upd; exact Hl|]. intros i Hi.
    specialize (He i Hi). unfold entry in *.
    destruct (Nat.eq_dec i k) as [->|NE].
    + destruct (Nat.ltb_spec k (S k)); [|lia].
      destruct (Nat.ltb_spec k k); [lia|].
      destruct He as (_ & E3).
      repeat split.
      * rewrite nth_upd_eq; [reflexivity|]. rewrite !length_upd.
        apply (lt_length _ Hl). lia.
      * rewrite nth_upd_ne by lia. rewrite nth_upd_eq; [reflexivity|].
        rewrite !length_upd. apply (lt_length _ Hl). lia.
      * rewrite !nth_upd_ne by lia. rewrite nth_upd_eq; [reflexivity|].
        apply (lt_length _ Hl). lia.
      * rewrite !nth_upd_ne by lia. exact E3.
    + rewrite !nth_upd_ne by lia.
      destruct (Nat.ltb_spec i k), (Nat.ltb_spec i (S k)); try lia; exact He.
Qed.

Lemma clamp8_blackOrWhite (v : R) : blackOrWhite v -> clamp8 (Number := Real) v = v.
Proof. intros [-> | ->]; [apply clamp8_0_real | apply clamp8_255_real]. Qed.

(** [enhanceBW] on any image: every pixel comes out black or white, with
    its three colour bytes equal, and keeps its alpha byte; the buffer keeps
    its length. *)
Theorem enhanceBW_black_or_white (data : list R) (w h i : nat) :
  length data = (w * h * 4)%nat -> (i < w * h)%nat ->
  let out := enhanceBW (N := Real) data w h in
  length out = length data /\
  (entry (N := Real) out (i * 4) = 0 \/ entry (N := Real) out (i * 4) = 255) /\
  entry (N := Real) out (i * 4 + 1) = entry (N := Real) out (i * 4) /\
  entry (N := Real) out (i * 4 + 2) = entry (N := Real) out (i * 4) /\
  entry (N := Real) out (i * 4 + 3) = entry (N := Real) data (i * 4 + 3).
Proof.
  intros Hlen Hi out. unfold out, enhanceBW. cbv zeta.
  set (bw := adaptiveThreshold (N := Real) (toGray (N := Real) data w h) w h
               (bwBlockSize (N := Real) w h) (ofZ (Number := Real) 10)).
  destruct (@setRGB_scan (fun i => entry (N := Real) bw i) (w * h) (w * h) data Hlen
              (Nat.le_refl _)) as [Hl He].
  cbv beta in Hl, He. specialize (He i Hi).
  destruct (Nat.ltb_spec i (w * h)); [|lia].
  destruct He as ((E0 & E1 & E2) & E3).
  pose proof (adaptiveThreshold_entries (toGray (N := Real) data w h) w h
                (bwBlockSize (N := Real) w h) (ofZ (Number := Real) 10) i) as Hb.
  fold bw in Hb. rewrite (clamp8_blackOrWhite Hb) in E0, E1, E2.
  split; [exact (eq_trans Hl (eq_sym Hlen))|].
  rewrite E0, E1, E2. repeat split; try exact E3. exact Hb.
Qed.

Lemma enhanceBW_black_or_white_witness :
  length (enhanceBW (N := Real) [10; 20; 30; 255] 1 1) = length [10; 20; 30; 255] /\
  (entry (N := Real) (enhanceBW (N := Real) [10; 20; 30; 255] 1 1) (0 * 4) = 0 \/
   entry (N := Real) (enhanceBW (N := Real) [10; 20; 30; 255] 1 1) (0 * 4) = 255) /\
  entry (N := Real) (enhanceBW (N := Real) [10; 20; 30; 255] 1 1) (0 * 4 + 1)
  = entry (N := Real) (enhanceBW (N := Real) [10; 20; 30; 255] 1 1) (0 * 4) /\
  entry (N := Real) (enhanceBW (N := Real) [10; 20; 30; 255] 1 1) (0 * 4 + 2)
  = entry (N := Real) (enhanceBW (N := Real) [10; 20; 30; 255] 1 1) (0 * 4) /\
  entry (N := Real) (enhanceBW (N := Real) [10; 20; 30; 255] 1 1) (0 * 4 + 3)
  = entry (N := Real) [10; 20; 30; 255] (0 * 4 + 3).
Proof.
  apply (@enhanceBW_black_or_white [10; 20; 30; 255] 1 1 0); [reflexivity | lia].
Defined.
End EnhanceAny.
(** ** Gray and colour enhancement of a uniform image *)

Section EnhanceUniform.
Local Open Scope R_scope.

Lemma jsSort_repeat_entry (cmp : R -> R -> R) (v : R) (n k : nat) :
  (k < n)%nat -> entry (N := Real) (jsSort (N := Real) cmp (repeat v n)) k = v.
Proof.
  intros Hk. unfold entry.
  assert (Hl : (k < length (jsSort (N := Real) cmp (repeat v n)))%nat)
    by (rewrite (@jsSort_length Real R), repeat_length; exact Hk).
  pose proof (nth_In _ (ofZ (Number := Real) 0) Hl) as Hin.
  apply (Permutation_in _ (@jsSort_perm Real R cmp (repeat v n))) in Hin.
  apply repeat_spec in Hin. exact Hin.
Qed.

(** [Math.floor(n * q)] is an index below [n] for a fraction [q] below 1. *)
Lemma fraction_index (n : nat) (q : R) :
  (0 < n)%nat -> 0 <= q < 1 ->
  (toNat (N := Real) (RealOps.rfloor (INR n * q)) < n)%nat.
Proof.
  intros Hn [Hq0 Hq1]. unfold toNat, RealOps.rfloor. cbn [toZ Real].
  apply lt_INR in Hn. cbn in Hn.
  assert (Hx : 0 <= INR n * q < INR n) by nra.
  destruct (base_Int_part (INR n * q)) as [B1 B2].
  assert (Hz : (0 <= Int_part (INR n * q) < Z.of_nat n)%Z).
  { split.
    - apply le_IZR. apply Rnot_lt_le. intros C. apply lt_IZR in C.
      assert (H : (Int_part (INR n * q) <= -1)%Z) by lia.
      apply IZR_le in H. lra.
    - apply lt_IZR. rewrite <- INR_IZR_INZ. lra. }
  rewrite (@Int_part_eq (Int_part (INR n * q))) by lra.
  apply Nat2Z.inj_lt. rewrite Z2Nat.id by lia. lia.
Qed.

Lemma fraction_slot (n : nat) (q : R) :
  (0 < n)%nat -> 0 <= q < 1 ->
  (toNat (N := Real)
     (floor (Number := Real) (mul (Number := Real) (ofNat (N := Real) n) q)) < n)%nat.
Proof. intros Hn Hq. rewrite ofNat_INR. exact (fraction_index Hn Hq). Qed.

Lemma percentile_uniform (cmp : R -> R -> R) (v : R) (n : nat) (q : R) :
  (0 < n)%nat -> 0 <= q < 1 ->
  percentile (N := Real) (jsSort (N := Real) cmp (repeat v n)) q = v.
Proof.
  intros Hn Hq. unfold percentile.
  rewrite (@jsSort_length Real R), repeat_length, ofNat_INR.
  apply jsSort_repeat_entry. apply (fraction_index Hn Hq).
Qed.

Lemma orOne_zero : orOne (N := Real) 0 = 1.
Proof.
  unfold orOne. cbn. unfold RealOps.eqb.
  destruct (Req_dec_T 0 0) as [E|E]; [reflexivity | contradiction].
Qed.

Lemma clampByte_zero : clampByte (N := Real) 0 = 0.
Proof.
  unfold clampByte, gt. cbn.
  rewrite (proj2 (ltb_false 0 0)) by lra.
  rewrite (proj2 (ltb_false 255 0)) by lra. reflexivity.
Qed.

Lemma rround_zero : RealOps.rround 0 = 0.
Proof. unfold RealOps.rround. rewrite (@Int_part_eq 0) by lra. reflexivity. Qed.

Lemma fraction_1_100 : 0 <= ratio (N := Real) 1 100 < 1.
Proof. unfold ratio. cbn. lra. Qed.

Lemma fraction_99_100 : 0 <= ratio (N := Real) 99 100 < 1.
Proof. unfold ratio. cbn. lra. Qed.

(** The value [enhanceGray] computes for a pixel of gray level [g] when the
    1st and the 99th percentile are both [g]. *)
Lemma grayLevel_flat (g : R) :
  clampByte (N := Real)
    (round (Number := Real)
       (mul (Number := Real)
          (div (Number := Real) (sub (Number := Real) g g)
             (orOne (N := Real) (sub (Number := Real) g g)))
          (ofZ (Number := Real) 255))) = 0.
Proof.
  cbn [sub mul div round ofZ Real].
  replace (g - g) with 0 by ring. rewrite orOne_zero.
  replace (0 / 1 * 255) with 0 by field.
  rewrite rround_zero. apply clampByte_zero.
Qed.

(** [enhanceGray] on an image of one colour: the 1st and the 99th percentile
    coincide, the range falls back to 1, and every pixel comes out black;
    the alpha bytes are kept. *)
Theorem enhanceGray_uniform_is_black (data : list R) (w h : nat) (r g b : R) (i : nat) :
  uniformData data w h r g b -> (i < w * h)%nat ->
  let out := enhanceGray (N := Real) data w h in
  entry (N := Real) out (i * 4) = 0 /\
  entry (N := Real) out (i * 4 + 1) = 0 /\
  entry (N := Real) out (i * 4 + 2) = 0 /\
  entry (N := Real) out (i * 4 + 3) = entry (N := Real) data (i * 4 + 3).
Proof.
  intros Hu Hi out. unfold out, enhanceGray. cbv zeta.
  rewrite (toGray_uniform Hu).
  set (g0 := 299 / 1000 * r + 587 / 1000 * g + 114 / 1000 * b).
  assert (Hn : (0 < w * h)%nat) by lia.
  rewrite (percentile_uniform _ g0 Hn fraction_1_100).
  rewrite (percentile_uniform _ g0 Hn fraction_99_100).
  destruct (@setRGB_scan
              (fun i => clampByte (N := Real)
                 (round (Number := Real)
                    (mul (Number := Real)
                       (div (Number := Real)
                          (sub (Number := Real)
                             (entry (N := Real) (repeat g0 (w * h)) i) g0)
                          (orOne (N := Real) (sub (Number := Real) g0 g0)))
                       (ofZ (Number := Real) 255))))
              (w * h) (w * h) data (proj1 Hu) (Nat.le_refl _)) as [_ He].
  cbv beta in He. specialize (He i Hi).
  destruct (Nat.ltb_spec i (w * h)); [|lia].
  rewrite (entry_repeat g0 Hi), grayLevel_flat, clamp8_0_real in He.
  destruct He as ((E0 & E1 & E2) & E3). repeat split; assumption.
Qed.

(** A picture of two by two pixels of one colour, its alpha bytes all
    different. *)
Definition oneColour : list R :=
  [10; 20; 30; 255;   10; 20; 30; 170;
   10; 20; 30; 85;    10; 20; 30; 0].

Lemma oneColour_uniform : uniformData oneColour 2 2 10 20 30.
Proof.
  split; [reflexivity|]. intros i Hi.
  do 4 (destruct i as [|i]; [repeat split; reflexivity|]).
  cbn in Hi. lia.
Qed.

Lemma enhanceGray_uniform_is_black_witness :
  entry (N := Real) (enhanceGray (N := Real) oneColour 2 2) (2 * 4) = 0 /\
  entry (N := Real) (enhanceGray (N := Real) oneColour 2 2) (2 * 4 + 1) = 0 /\
  entry (N := Real) (enhanceGray (N := Real) oneColour 2 2) (2 * 4 + 2) = 0 /\
  entry (N := Real) (enhanceGray (N := Real) oneColour 2 2) (2 * 4 + 3)
  = entry (N := Real) oneColour (2 * 4 + 3).
Proof.
  apply (@enhanceGray_uniform_is_black oneColour 2 2 10 20 30 2 oneColour_uniform).
  cbn. lia.
Defined.

(** A loop that stores into byte [c] of the pixels below [k]. *)
Lemma channel_scan (vals : nat -> R) (c n k : nat) (data : list R) :
  length data = (n * 4)%nat -> (c < 4)%nat -> (k <= n)%nat ->
  let out := fold_left (fun data i => store8 (N := Real) data ((i * 4 + c)%nat, vals i))
               (seq 0 k) data in
  length out = (n * 4)%nat /\
  forall i c', (i < n)%nat -> (c' < 4)%nat ->
    entry (N := Real) out (i * 4 + c')
    = if ((c' =? c) && (i <? k))%nat then clamp8 (Number := Real) (vals i)
      else entry (N := Real) data (i * 4 + c').
Proof.
  intros Hlen Hc Hk. induction k as [|k IH]; cbv zeta.
  - cbn [seq fold_left]. split; [exact Hlen|]. intros i c' Hi Hc'.
    destruct (Nat.ltb_spec i 0); [lia|]. rewrite andb_false_r. reflexivity.
  - rewrite seq_S, fold_left_app. cbn [Nat.add fold_left].
    specialize (IH ltac:(lia)). cbv zeta in IH.
    match type of IH with length ?t = _ /\ _ => set (o := t) in * end.
    destruct IH as [Hl He].
    unfold store8. cbn [fst snd].
    split; [rewrite length_upd; exact Hl|]. intros i c' Hi Hc'.
    specialize (He i c' Hi Hc'). unfold entry in *.
    destruct (Nat.eq_dec (i * 4 + c') (k * 4 + c)) as [E|NE].
    + assert (Ei : i = k) by lia. assert (Ec : c' = c) by lia. subst i. subst c'.
      rewrite Nat.eqb_refl. destruct (Nat.ltb_spec k (S k)); [|lia]. cbn [andb].
      rewrite nth_upd_eq; [reflexivity|]. apply (lt_length _ Hl). lia.
    + rewrite nth_upd_ne by lia. rewrite He.
      destruct (Nat.eqb_spec c' c) as [E|E]; cbn [andb]; [subst c'|reflexivity].
      destruct (Nat.ltb_spec i k), (Nat.ltb_spec i (S k)); try lia; reflexivity.
Qed.

Lemma rpow_zero : RealOps.rpow (0 / 255) (ratio (N := Real) 85 100) = 0.
Proof.
  unfold RealOps.rpow, ratio. cbn.
  destruct (Req_dec_T (0 / 255) 0) as [_|C]; [|exfalso; apply C; field].
  destruct (Req_dec_T (85 / 100) 0) as [C|_]; [lra | reflexivity].
Qed.

(** The value [enhanceColor] computes for a byte [v] of a channel whose 1st
    and 99th percentile are both [v]. *)
Lemma colourLevel_flat (v : R) :
  round (Number := Real)
    (mul (Number := Real)
       (pow (Number := Real)
          (div (Number := Real)
             (clampByte (N := Real)
                (mul (Number := Real)
                   (div (Number := Real) (sub (Number := Real) v v)
                      (orOne (N := Real) (sub (Number := Real) v v)))
                   (ofZ (Number := Real) 255)))
             (ofZ (Number := Real) 255))
          (ratio (N := Real) 85 100))
       (ofZ (Number := Real) 255)) = 0.
Proof.
  cbn [sub mul div round pow ofZ Real].
  replace (v - v) with 0 by ring. rewrite orOne_zero.
  replace (0 / 1 * 255) with 0 by field. rewrite clampByte_zero, rpow_zero.
  rewrite Rmult_0_l. apply rround_zero.
Qed.

Lemma enhanceChannel_uniform (data : list R) (n c : nat) (v : R) :
  length data = (n * 4)%nat -> (c < 3)%nat ->
  (forall i, (i < n)%nat -> entry (N := Real) data (i * 4 + c) = v) ->
  length (enhanceChannel (N := Real) n data c) = (n * 4)%nat /\
  forall i c', (i < n)%nat -> (c' < 4)%nat ->
    entry (N := Real) (enhanceChannel (N := Real) n data c) (i * 4 + c')
    = if (c' =? c)%nat then 0 else entry (N := Real) data (i * 4 + c').
Proof.
  intros Hlen Hc Hv. unfold enhanceChannel. cbv zeta. cbn [num Real].
  rewrite (@map_seq_const R (fun i => entry (N := Real) data (i * 4 + c)) v n Hv).
  destruct (Nat.eq_dec n 0) as [->|Hn].
  { cbn [seq fold_left]. split; [exact Hlen|]. intros i c' Hi. lia. }
  assert (Hpos : (0 < n)%nat) by lia.
  rewrite !(@jsSort_repeat_entry (fun a b : R => sub (Number := Real) a b) v n)
    by (apply (fraction_slot Hpos);
        first [exact fraction_1_100 | exact fraction_99_100]).
  destruct (@channel_scan
              (fun i => round (Number := Real)
                 (mul (Number := Real)
                    (pow (Number := Real)
                       (div (Number := Real)
                          (clampByte (N := Real)
                             (mul (Number := Real)
                                (div (Number := Real)
                                   (sub (Number := Real) (entry (N := Real) (repeat v n) i) v)
                                   (orOne (N := Real) (sub (Number := Real) v v)))
                                (ofZ (Number := Real) 255)))
                          (ofZ (Number := Real) 255))
                       (ratio (N := Real) 85 100))
                    (ofZ (Number := Real) 255)))
              c n n data Hlen ltac:(lia) (Nat.le_refl _)) as [Hl He].
  cbv beta in Hl, He. split; [exact Hl|]. intros i c' Hi Hc'.
  etransitivity; [exact (He i c' Hi Hc')|]. destruct (Nat.ltb_spec i n); [|lia].
  rewrite andb_true_r. destruct (c' =? c)%nat; [|reflexivity].
  rewrite (entry_repeat v Hi), colourLevel_flat. apply clamp8_0_real.
Qed.

(** [enhanceColor] on an image of one colour: in each channel the 1st and
    the 99th percentile coincide, and every pixel comes out black; the alpha
    bytes are kept. *)
Theorem enhanceColor_uniform_is_black (data : list R) (w h : nat) (r g b : R) (i : nat) :
  uniformData data w h r g b -> (i < w * h)%nat ->
  let out := enhanceColor (N := Real) data w h in
  entry (N := Real) out (i * 4) = 0 /\
  entry (N := Real) out (i * 4 + 1) = 0 /\
  entry (N := Real) out (i * 4 + 2) = 0 /\
  entry (N := Real) out (i * 4 + 3) = entry (N := Real) data (i * 4 + 3).
Proof.
  intros [Hlen Hu] Hi out. unfold out, enhanceColor. cbn [seq fold_left].
  set (n := (w * h)%nat) in *.
  assert (U0 : forall k, (k < n)%nat -> entry (N := Real) data (k * 4 + 0) = r).
  { intros k Hk. rewrite Nat.add_0_r. apply (Hu k Hk). }
  destruct (@enhanceChannel_uniform data n 0 r Hlen ltac:(lia) U0) as [L0 E0].
  set (d0 := enhanceChannel (N := Real) n data 0) in *.
  assert (U1 : forall k, (k < n)%nat -> entry (N := Real) d0 (k * 4 + 1) = g).
  { intros k Hk. rewrite (E0 k 1%nat Hk) by lia. cbn [Nat.eqb]. apply (Hu k Hk). }
  destruct (@enhanceChannel_uniform d0 n 1 g L0 ltac:(lia) U1) as [L1 E1].
  set (d1 := enhanceChannel (N := Real) n d0 1) in *.
  assert (U2 : forall k, (k < n)%nat -> entry (N := Real) d1 (k * 4 + 2) = b).
  { intros k Hk. rewrite (E1 k 2%nat Hk) by lia. cbn [Nat.eqb].
    rewrite (E0 k 2%nat Hk) by lia. cbn [Nat.eqb]. apply (Hu k Hk). }
  destruct (@enhanceChannel_uniform d1 n 2 b L1 ltac:(lia) U2) as [L2 E2].
  set (d2 := enhanceChannel (N := Real) n d1 2) in *.
  pose proof (E2 i 0%nat Hi ltac:(lia)) as A0.
  pose proof (E2 i 1%nat Hi ltac:(lia)) as A1.
  pose proof (E2 i 2%nat Hi ltac:(lia)) as A2.
  pose proof (E2 i 3%nat Hi ltac:(lia)) as A3.
  cbn [Nat.eqb] in A0, A1, A2, A3.
  rewrite (E1 i 0%nat Hi) in A0 by lia. rewrite (E1 i 1%nat Hi) in A1 by lia.
  rewrite (E1 i 3%nat Hi) in A3 by lia. cbn [Nat.eqb] in A0, A1, A3.
  rewrite (E0 i 0%nat Hi) in A0 by lia. rewrite (E0 i 3%nat Hi) in A3 by lia.
  cbn [Nat.eqb] in A0, A3. rewrite Nat.add_0_r in A0.
  repeat split; assumption.
Qed.

Lemma enhanceColor_uniform_is_black_witness :
  entry (N := Real) (enhanceColor (N := Real) oneColour 2 2) (3 * 4) = 0 /\
  entry (N := Real) (enhanceColor (N := Real) oneColour 2 2) (3 * 4 + 1) = 0 /\
  entry (N := Real) (enhanceColor (N := Real) oneColour 2 2) (3 * 4 + 2) = 0 /\
  entry (N := Real) (enhanceColor (N := Real) oneColour 2 2) (3 * 4 + 3)
  = entry (N := Real) oneColour (3 * 4 + 3).
Proof.
  apply (@enhanceColor_uniform_is_black oneColour 2 2 10 20 30 3 oneColour_uniform).
  cbn. lia.
Defined.
End EnhanceUniform.
(** ** The block size of the black-and-white filter *)

Section BlockSize.
Local Open Scope R_scope.

Lemma Int_part_IZR (z : Z) : Int_part (IZR z) = z.
Proof. apply Int_part_eq. lra. Qed.

Lemma lor_one_odd (i : Z) : Z.odd (Z.lor i 1) = true.
Proof.
  rewrite <- Z.bit0_odd, Z.lor_spec. cbn. apply orb_true_r.
Qed.

(** [enhanceBW]'s block size in exact arithmetic: an odd integer, at least
    15, whatever the size of the picture. *)
Theorem bwBlockSize_odd_at_least_15 (w h : nat) :
  exists z, bwBlockSize (N := Real) w h = IZR z /\ Z.odd z = true /\ (15 <= z)%Z.
Proof.
  unfold bwBlockSize, orOneBit. cbv zeta.
  cbn [round toZ ofZ maxn minn div add Real].
  unfold RealOps.rround. rewrite Int_part_IZR.
  set (k := Int_part (Rmin (ofNat (N := Real) w) (ofNat (N := Real) h) / 8 + 1 / 2)).
  set (m := Z.lor ((k + 2147483648) mod 4294967296 - 2147483648) 1).
  assert (Hodd : Z.odd m = true) by apply lor_one_odd.
  assert (Hmax : Rmax 15 (IZR m) = IZR (Z.max 15 m)).
  { destruct (Z.max_spec 15 m) as [[L ->]|[L ->]].
    - apply Rmax_right. apply IZR_le. lia.
    - apply Rmax_left. apply IZR_le. exact L. }
  rewrite Hmax, Int_part_IZR.
  assert (Hodd' : Z.odd (Z.max 15 m) = true).
  { destruct (Z.max_spec 15 m) as [[_ ->]|[_ ->]]; [exact Hodd | reflexivity]. }
  assert (Hmod : (Z.max 15 m mod 2 =? 0)%Z = false).
  { apply Z.eqb_neq. rewrite Zmod_odd, Hodd'. discriminate. }
  rewrite Hmod. exists (Z.max 15 m). repeat split; [exact Hodd' | lia].
Qed.
End BlockSize.
(** ** Loops of stores into an array *)

Section StoreLoops.
Context {A B : Type}.
Variables (idx : B -> nat) (val : B -> A) (d : A).

Definition storeAll (l : list B) (out : list A) : list A :=
  fold_left (fun out b => upd (idx b) (val b) out) l out.

Lemma storeAll_length (l : list B) (out : list A) :
  length (storeAll l out) = length out.
Proof.
  revert out. induction l as [|b l IH]; intros out; [reflexivity|].
  cbn [storeAll fold_left]. fold (storeAll l (upd (idx b) (val b) out)).
  rewrite IH. apply length_upd.
Qed.

Lemma storeAll_app (l1 l2 : list B) (out : list A) :
  storeAll (l1 ++ l2) out = storeAll l2 (storeAll l1 out).
Proof. unfold storeAll. apply fold_left_app. Qed.

(** An index no store goes to keeps its value. *)
Lemma storeAll_untouched (l : list B) (out : list A) (j : nat) :
  (forall b, In b l -> idx b <> j) ->
  nth j (storeAll l out) d = nth j out d.
Proof.
  revert out. induction l as [|b l IH]; intros out H; [reflexivity|].
  cbn [storeAll fold_left]. fold (storeAll l (upd (idx b) (val b) out)).
  rewrite IH by (intros b' Hb'; apply H; right; exact Hb').
  apply nth_upd_ne. apply H. left. reflexivity.
Qed.

(** An index all of whose stores put the same value holds that value. *)
Lemma storeAll_written (l : list B) (out : list A) (j : nat) (b : B) :
  (j < length out)%nat -> In b l -> idx b = j ->
  (forall b', In b' l -> idx b' = j -> val b' = val b) ->
  nth j (storeAll l out) d = val b.
Proof.
  intros Hj. revert b. induction l as [|b0 l IH] using rev_ind; intros b Hin Hb Hsame;
    [contradiction|].
  rewrite storeAll_app. cbn [storeAll fold_left].
  destruct (Nat.eq_dec (idx b0) j) as [E|NE].
  - rewrite E, nth_upd_eq by (rewrite storeAll_length; exact Hj).
    apply Hsame; [apply in_or_app; right; left; reflexivity | exact E].
  - rewrite nth_upd_ne by exact NE.
    apply in_app_or in Hin. destruct Hin as [Hin|[->|[]]]; [|contradiction].
    apply IH; [exact Hin | exact Hb |].
    intros b' Hb' Eb'. apply Hsame; [apply in_or_app; left; exact Hb' | exact Eb'].
Qed.

(** A property of the entries that every stored value has survives. *)
Lemma storeAll_keeps (Q : nat -> A -> Prop) (l : list B) (out : list A) :
  (forall b, In b l -> Q (idx b) (val b)) ->
  (forall j, Q j (nth j out d)) ->
  forall j, Q j (nth j (storeAll l out) d).
Proof.
  revert out. induction l as [|b l IH]; intros out Hv Ho j; [apply Ho|].
  cbn [storeAll fold_left]. fold (storeAll l (upd (idx b) (val b) out)).
  apply IH; [intros b' Hb'; apply Hv; right; exact Hb'|].
  intros k. destruct (Nat.eq_dec (idx b) k) as [E|NE].
  - destruct (Nat.lt_ge_cases k (length out)) as [L|L].
    + rewrite E, nth_upd_eq by exact L. rewrite <- E. apply Hv. left. reflexivity.
    + rewrite upd_out by (rewrite E; exact L). apply Ho.
  - rewrite nth_upd_ne by exact NE. apply Ho.
Qed.
End StoreLoops.

(** The pixels [(y, x)] of a grid in loop order. *)
Definition gridOf (ys xs : list nat) : list (nat * nat) :=
  flat_map (fun y => map (fun x => (y, x)) xs) ys.

Lemma in_gridOf (ys xs : list nat) (y x : nat) :
  In (y, x) (gridOf ys xs) <-> In y ys /\ In x xs.
Proof.
  unfold gridOf. rewrite in_flat_map. split.
  - intros (y' & Hy & Hin). apply in_map_iff in Hin.
    destruct Hin as (x' & E & Hx). injection E as -> ->. split; assumption.
  - intros [Hy Hx]. exists y. split; [exact Hy|]. apply in_map. exact Hx.
Qed.

(** Two nested loops of stores are one loop over the grid. *)
Lemma nested_stores {A : Type} (w : nat) (f : nat -> nat -> A) (ys xs : list nat)
    (out : list A) :
  fold_left
    (fun out y => fold_left (fun out x => upd (y * w + x) (f y x) out) xs out) ys out
  = storeAll (fun p => (fst p * w + snd p)%nat) (fun p => f (fst p) (snd p))
      (gridOf ys xs) out.
Proof.
  revert out. induction ys as [|y ys IH]; intros out; [reflexivity|].
  cbn [fold_left gridOf flat_map]. fold (gridOf ys xs).
  rewrite storeAll_app, IH. f_equal.
  clear IH. revert out. induction xs as [|x xs IHx]; intros o; [reflexivity|].
  cbn [fold_left map]. rewrite IHx. reflexivity.
Qed.

Lemma grid_index_inj (w y x y' x' : nat) :
  (x < w)%nat -> (x' < w)%nat -> (y * w + x = y' * w + x')%nat -> y = y' /\ x = x'.
Proof. intros Hx Hx' E. apply (Nat.div_mod_unique w); lia. Qed.
(** ** The blur and the non-maximum suppression *)

Section FilterFacts.
Local Open Scope R_scope.

Lemma clampIndex_below (z : Z) (n : nat) : (0 < n)%nat -> (clampIndex z n < n)%nat.
Proof. intros Hn. unfold clampIndex. lia. Qed.

Lemma blurAt_flat (gray : list R) (w h : nat) (v : R) (y x : nat) :
  (forall i, (i < w * h)%nat -> entry (N := Real) gray i = v) ->
  (y < h)%nat -> (x < w)%nat ->
  blurAt (N := Real) gray w h y x = v.
Proof.
  intros Hflat Hy Hx.
  assert (Hs : forall ky kx,
            entry (N := Real) gray
              (clampIndex (Z.of_nat y + ky) h * w + clampIndex (Z.of_nat x + kx) w) = v).
  { intros ky kx. apply Hflat.
    pose proof (@clampIndex_below (Z.of_nat y + ky) h ltac:(lia)).
    pose proof (@clampIndex_below (Z.of_nat x + kx) w ltac:(lia)). nia. }
  unfold blurAt. cbn [fold_left kernelOffsets]. rewrite !Hs.
  repeat match goal with
  | |- context [Z.to_nat ?z] =>
      let n := eval vm_compute in (Z.to_nat z) in change (Z.to_nat z) with n
  end.
  unfold gaussKernel, entry. cbn [map nth]. cbn. field.
Qed.

(** [gaussianBlur5x5] in exact arithmetic: a picture of one gray level
    comes out unchanged (the 25 weights sum to 273, the divisor), and the
    result has one entry per pixel. *)
Theorem gaussianBlur5x5_flat_image (gray : list R) (w h : nat) (v : R) (y x : nat) :
  (forall i, (i < w * h)%nat -> entry (N := Real) gray i = v) ->
  (y < h)%nat -> (x < w)%nat ->
  length (gaussianBlur5x5 (N := Real) gray w h) = (w * h)%nat /\
  entry (N := Real) (gaussianBlur5x5 (N := Real) gray w h) (y * w + x) = v.
Proof.
  intros Hflat Hy Hx. unfold gaussianBlur5x5. rewrite nested_stores. split.
  - rewrite storeAll_length. apply repeat_length.
  - unfold entry.
    rewrite (@storeAll_written _ _ (fun p => (fst p * w + snd p)%nat)
               (fun p => blurAt (N := Real) gray w h (fst p) (snd p)) _ _ _
               (y * w + x)%nat (y, x)).
    + cbn [fst snd]. apply (@blurAt_flat gray w h v y x Hflat Hy Hx).
    + rewrite repeat_length. nia.
    + apply in_gridOf. split; apply in_seq; lia.
    + reflexivity.
    + intros [y' x'] Hin E. apply in_gridOf in Hin. destruct Hin as [_ Hx'].
      apply in_seq in Hx'. cbn [fst snd] in E |- *.
      destruct (@grid_index_inj w y' x' y x ltac:(lia) Hx E) as [-> ->]. reflexivity.
Qed.

Lemma gaussianBlur5x5_flat_image_witness :
  length (gaussianBlur5x5 (N := Real) [7; 7; 7; 7; 7; 7] 3 2) = (3 * 2)%nat /\
  entry (N := Real) (gaussianBlur5x5 (N := Real) [7; 7; 7; 7; 7; 7] 3 2) (1 * 3 + 2) = 7.
Proof.
  apply (@gaussianBlur5x5_flat_image [7; 7; 7; 7; 7; 7] 3 2 7 1 2); [|lia|lia].
  intros i Hi. do 6 (destruct i as [|i]; [reflexivity|]). cbn in Hi. lia.
Defined.
End FilterFacts.

Section SuppressionFacts.
Context {N : Number}.

Lemma nth_zeros (n j : nat) : nth j (repeat (ofZ 0) n) (ofZ 0) = ofZ 0.
Proof.
  destruct (Nat.lt_ge_cases j n) as [L|L].
  - apply nth_repeat_lt. exact L.
  - apply nth_overflow. rewrite repeat_length. exact L.
Qed.

Lemma suppressAt_cases (mag dir : list num) (w y x : nat) :
  suppressAt mag dir w y x = entry mag (y * w + x) \/
  suppressAt mag dir w y x = ofZ 0.
Proof.
  unfold suppressAt. cbv zeta.
  match goal with
  | |- context [let '(n1, n2) := ?c in _] => destruct c as [n1 n2]
  end.
  match goal with
  | |- context [if ?c then _ else _] => destruct c
  end; [left | right]; reflexivity.
Qed.

(** [nonMaxSuppression], in any arithmetic: every entry of the result is
    the magnitude at that place or 0, and the pixels of the first and last
    row and column are 0. *)
Theorem nonMaxSuppression_keeps_or_clears (mag dir : list num) (w h : nat) :
  (forall j, entry (nonMaxSuppression mag dir w h) j = entry mag j \/
             entry (nonMaxSuppression mag dir w h) j = ofZ 0) /\
  (forall y x, (y < h)%nat -> (x < w)%nat ->
     y = 0%nat \/ x = 0%nat \/ y = (h - 1)%nat \/ x = (w - 1)%nat ->
     entry (nonMaxSuppression mag dir w h) (y * w + x) = ofZ 0).
Proof.
  unfold nonMaxSuppression. rewrite nested_stores. unfold entry. split.
  - apply (storeAll_keeps (fun p => (fst p * w + snd p)%nat)
             (fun p => suppressAt mag dir w (fst p) (snd p)) (ofZ 0)
             (fun j v => v = nth j mag (ofZ 0) \/ v = ofZ 0)).
    + intros [y x] _. cbn [fst snd]. apply suppressAt_cases.
    + intros j. right. apply nth_zeros.
  - intros y x Hy Hx Hborder.
    rewrite storeAll_untouched; [apply nth_zeros|].
    intros [y' x'] Hin E. apply in_gridOf in Hin. destruct Hin as [Hy' Hx'].
    apply in_seq in Hy', Hx'. cbn [fst snd] in E.
    destruct (@grid_index_inj w y' x' y x ltac:(lia) Hx E) as [-> ->]. lia.
Qed.
End SuppressionFacts.
(** ** Dilation and erosion *)

Section MorphologyFacts.

Lemma in_around (radius : nat) (dz : Z) :
  In dz (around radius) <-> (- Z.of_nat radius <= dz <= Z.of_nat radius)%Z.
Proof.
  unfold around. rewrite in_map_iff. split.
  - intros (k & <- & Hk). apply in_seq in Hk. lia.
  - intros H. exists (Z.to_nat (dz + Z.of_nat radius)). split; [lia|].
    apply in_seq. lia.
Qed.

(** Painting 255 at a list of indices of a zero-filled array. *)
Lemma paint_read (writes : list nat) (n j : nat) :
  byteAt (fold_left (fun out i => upd i 255%Z out) writes (repeat 0%Z n)) j
  = if in_dec Nat.eq_dec j writes then (if (j <? n)%nat then 255%Z else 0%Z) else 0%Z.
Proof.
  unfold byteAt.
  change (fold_left (fun out i => upd i 255%Z out) writes (repeat 0%Z n))
    with (storeAll (fun i : nat => i) (fun _ : nat => 255%Z) writes (repeat 0%Z n)).
  assert (Hz : forall k, nth k (repeat 0%Z n) 0%Z = 0%Z).
  { intros k. destruct (Nat.lt_ge_cases k n) as [L|L].
    - apply nth_repeat_lt. exact L.
    - apply nth_overflow. rewrite repeat_length. exact L. }
  destruct (in_dec Nat.eq_dec j writes) as [Hin|Hout].
  - destruct (Nat.ltb_spec j n) as [L|L].
    + apply (@storeAll_written Z nat (fun i : nat => i) (fun _ : nat => 255%Z) 0%Z
               writes (repeat 0%Z n) j j);
        [rewrite repeat_length; exact L | exact Hin | reflexivity | reflexivity].
    + apply nth_overflow. rewrite storeAll_length, repeat_length. exact L.
  - rewrite storeAll_untouched; [apply Hz|].
    intros b Hb E. apply Hout. rewrite <- E. exact Hb.
Qed.

Lemma pixel_of_Z (w : nat) (ny nx : Z) :
  (0 <= ny)%Z -> (0 <= nx)%Z ->
  Z.to_nat (ny * Z.of_nat w + nx) = (Z.to_nat ny * w + Z.to_nat nx)%nat.
Proof.
  intros Hy Hx. rewrite Z2Nat.inj_add, Z2Nat.inj_mul, Nat2Z.id; try lia.
Qed.

Lemma inImage_spec (w h : nat) (ny nx : Z) :
  inImage w h ny nx = true <->
  (0 <= ny < Z.of_nat h)%Z /\ (0 <= nx < Z.of_nat w)%Z.
Proof. unfold inImage. rewrite !andb_true_iff. lia. Qed.

(** Two coordinates at most [radius] apart. *)
Definition near (radius a b : nat) : Prop :=
  (Z.abs (Z.of_nat a - Z.of_nat b) <= Z.of_nat radius)%Z.

Lemma in_dilateWrites (edges : list Z) (w h radius y x y' x' : nat) :
  (x < w)%nat ->
  In (y * w + x)%nat (dilateWrites edges w h radius y' x') <->
  byteAt edges (y' * w + x') = 255%Z /\ (y < h)%nat /\ near radius y y' /\ near radius x x'.
Proof.
  intros Hx. unfold dilateWrites, near.
  destruct (Z.eqb_spec (byteAt edges (y' * w + x')) 255) as [E|E]; cbn [negb].
  - rewrite in_flat_map. split.
    + intros (dy & Hdy & Hin). apply in_flat_map in Hin.
      destruct Hin as (dx & Hdx & Hin). cbv zeta in Hin.
      apply in_around in Hdy, Hdx.
      destruct (inImage w h (Z.of_nat y' + dy) (Z.of_nat x' + dx)) eqn:Ein;
        [|contradiction].
      apply inImage_spec in Ein. destruct Hin as [Hin|[]].
      rewrite pixel_of_Z in Hin by lia.
      destruct (@grid_index_inj w (Z.to_nat (Z.of_nat y' + dy))
                  (Z.to_nat (Z.of_nat x' + dx)) y x ltac:(lia) Hx Hin) as [Ey Ex].
      repeat split; [exact E | lia | lia | lia].
    + intros (_ & Hy & Hny & Hnx).
      exists (Z.of_nat y - Z.of_nat y')%Z. split; [apply in_around; lia|].
      apply in_flat_map. exists (Z.of_nat x - Z.of_nat x')%Z.
      split; [apply in_around; lia|]. cbv zeta.
      replace (Z.of_nat y' + (Z.of_nat y - Z.of_nat y'))%Z with (Z.of_nat y) by lia.
      replace (Z.of_nat x' + (Z.of_nat x - Z.of_nat x'))%Z with (Z.of_nat x) by lia.
      rewrite (proj2 (inImage_spec w h (Z.of_nat y) (Z.of_nat x))) by lia.
      left. rewrite pixel_of_Z by lia. rewrite !Nat2Z.id. reflexivity.
  - split; [contradiction|]. intros (C & _). contradiction.
Qed.

(** [dilateEdgesR]: a pixel of the result is 255 exactly when some pixel of
    the edge map at most [radius] away, along both axes, is 255; every other
    pixel is 0. *)
Theorem dilateEdgesR_marks_neighbourhoods (edges : list Z) (w h radius y x : nat) :
  (y < h)%nat -> (x < w)%nat ->
  (byteAt (dilateEdgesR edges w h radius) (y * w + x) = 255%Z <->
   exists y' x', (y' < h)%nat /\ (x' < w)%nat /\
     byteAt edges (y' * w + x') = 255%Z /\ near radius y y' /\ near radius x x') /\
  (byteAt (dilateEdgesR edges w h radius) (y * w + x) = 255%Z \/
   byteAt (dilateEdgesR edges w h radius) (y * w + x) = 0%Z).
Proof.
  intros Hy Hx. unfold dilateEdgesR. rewrite paint_read.
  destruct (Nat.ltb_spec (y * w + x) (w * h)) as [_|C]; [|nia].
  match goal with |- context [in_dec Nat.eq_dec ?j ?l] => destruct (in_dec Nat.eq_dec j l) as [Hin|Hout] end.
  - split; [|left; reflexivity]. split; [intros _|reflexivity].
    apply in_flat_map in Hin. destruct Hin as (y' & Hy' & Hin).
    apply in_flat_map in Hin. destruct Hin as (x' & Hx' & Hin).
    apply in_seq in Hy', Hx'.
    apply (in_dilateWrites edges h radius y y' x' Hx) in Hin.
    destruct Hin as (E & _ & Ny & Nx).
    exists y', x'. repeat split; try assumption; lia.
  - split; [|right; reflexivity]. split; [discriminate|].
    intros (y' & x' & Hy' & Hx' & E & Ny & Nx). exfalso. apply Hout.
    apply in_flat_map. exists y'. split; [apply in_seq; lia|].
    apply in_flat_map. exists x'. split; [apply in_seq; lia|].
    apply (in_dilateWrites edges h radius y y' x' Hx). repeat split; assumption.
Qed.

Lemma dilateEdgesR_marks_neighbourhoods_witness :
  (byteAt (dilateEdgesR [0; 255]%Z 2 1 1) (0 * 2 + 0) = 255%Z <->
   exists y' x', (y' < 1)%nat /\ (x' < 2)%nat /\
     byteAt [0; 255]%Z (y' * 2 + x') = 255%Z /\ near 1 0 y' /\ near 1 0 x') /\
  (byteAt (dilateEdgesR [0; 255]%Z 2 1 1) (0 * 2 + 0) = 255%Z \/
   byteAt (dilateEdgesR [0; 255]%Z 2 1 1) (0 * 2 + 0) = 0%Z).
Proof.
  apply (@dilateEdgesR_marks_neighbourhoods [0; 255]%Z 2 1 1 0 0); lia.
Defined.

Lemma flag_fold {A : Type} (bad : A -> bool) (l : list A) (init : bool) :
  fold_left (fun (all : bool) a => if all then (if bad a then false else all) else all)
    l init
  = init && forallb (fun a => negb (bad a)) l.
Proof.
  revert init. induction l as [|a l IH]; intros init; cbn [fold_left forallb].
  - rewrite andb_true_r. reflexivity.
  - rewrite IH. destruct init, (bad a); reflexivity.
Qed.

Lemma and_fold {A : Type} (P : A -> bool) (l : list A) (init : bool) :
  fold_left (fun (all : bool) a => all && P a) l init = init && forallb P l.
Proof.
  revert init. induction l as [|a l IH]; intros init; cbn [fold_left forallb].
  - rewrite andb_true_r. reflexivity.
  - rewrite IH. destruct init, (P a); reflexivity.
Qed.

(** Whether every pixel of the window around [(x, y)] is inside the picture
    and 255. *)
Definition fullAt (bin : list Z) (w h : nat) (y x : nat) (dy dx : Z) : Prop :=
  (0 <= Z.of_nat y + dy < Z.of_nat h)%Z /\ (0 <= Z.of_nat x + dx < Z.of_nat w)%Z /\
  byteAt bin (Z.to_nat ((Z.of_nat y + dy) * Z.of_nat w + (Z.of_nat x + dx))) = 255%Z.

Lemma windowFull_spec (bin : list Z) (w h radius y x : nat) :
  windowFull bin w h radius y x = true <->
  forall dy dx, (- Z.of_nat radius <= dy <= Z.of_nat radius)%Z ->
                (- Z.of_nat radius <= dx <= Z.of_nat radius)%Z ->
                fullAt bin w h y x dy dx.
Proof.
  unfold windowFull.
  rewrite (fold_left_ext _
             (fun (all : bool) dy =>
                all && forallb
                  (fun dx =>
                     negb ((Z.of_nat y + dy <? 0)%Z || (Z.of_nat y + dy >=? Z.of_nat h)%Z
                           || (Z.of_nat x + dx <? 0)%Z || (Z.of_nat x + dx >=? Z.of_nat w)%Z
                           || negb (byteAt bin
                                      (Z.to_nat ((Z.of_nat y + dy) * Z.of_nat w
                                                 + (Z.of_nat x + dx))) =? 255)%Z))
                  (around radius)))
    by (intros all dy; apply flag_fold).
  rewrite and_fold. cbn [andb]. rewrite forallb_forall. split.
  - intros H dy dx Hdy Hdx. apply in_around in Hdy, Hdx.
    specialize (H dy Hdy). rewrite forallb_forall in H. specialize (H dx Hdx).
    apply negb_true_iff in H. rewrite !orb_false_iff in H.
    destruct H as ((((H1 & H2) & H3) & H4) & H5).
    apply negb_false_iff, Z.eqb_eq in H5. unfold fullAt. repeat split; try lia; exact H5.
  - intros H dy Hdy. apply forallb_forall. intros dx Hdx.
    apply in_around in Hdy, Hdx. destruct (H dy dx Hdy Hdx) as (Hy & Hx & E).
    apply negb_true_iff. rewrite !orb_false_iff. repeat split; try lia.
    all: apply negb_false_iff, Z.eqb_eq; exact E.
Qed.

(** [erodeR]: a pixel of the result is 255 exactly when every pixel at most
    [radius] away, along both axes, lies inside the picture and is 255;
    every other pixel is 0. *)
Theorem erodeR_keeps_full_windows (bin : list Z) (w h radius y x : nat) :
  (y < h)%nat -> (x < w)%nat ->
  (byteAt (erodeR bin w h radius) (y * w + x) = 255%Z <->
   forall dy dx, (- Z.of_nat radius <= dy <= Z.of_nat radius)%Z ->
                 (- Z.of_nat radius <= dx <= Z.of_nat radius)%Z ->
                 fullAt bin w h y x dy dx) /\
  (byteAt (erodeR bin w h radius) (y * w + x) = 255%Z \/
   byteAt (erodeR bin w h radius) (y * w + x) = 0%Z).
Proof.
  intros Hy Hx. unfold erodeR. rewrite paint_read.
  destruct (Nat.ltb_spec (y * w + x) (w * h)) as [_|C]; [|nia].
  rewrite <- windowFull_spec.
  assert (Hmem : forall y' x', (x' < w)%nat ->
            In (y * w + x)%nat (erodeWrites bin w h radius y' x') ->
            y' = y /\ x' = x /\ windowFull bin w h radius y x = true).
  { intros y' x' Hx' Hin. unfold erodeWrites in Hin.
    destruct (negb _); [contradiction|].
    destruct (windowFull bin w h radius y' x') eqn:Ew; [|contradiction].
    destruct Hin as [E|[]].
    destruct (@grid_index_inj w y' x' y x Hx' Hx E) as [-> ->].
    repeat split. exact Ew. }
  match goal with |- context [in_dec Nat.eq_dec ?j ?l] => destruct (in_dec Nat.eq_dec j l) as [Hin|Hout] end.
  - split; [|left; reflexivity]. split; [intros _|reflexivity].
    apply in_flat_map in Hin. destruct Hin as (y' & Hy' & Hin).
    apply in_flat_map in Hin. destruct Hin as (x' & Hx' & Hin).
    apply in_seq in Hx'. apply (Hmem y' x' ltac:(lia) Hin).
  - split; [|right; reflexivity]. split; [discriminate|].
    intros Hfull. exfalso. apply Hout.
    apply in_flat_map. exists y. split; [apply in_seq; lia|].
    apply in_flat_map. exists x. split; [apply in_seq; lia|].
    unfold erodeWrites. rewrite Hfull.
    destruct (proj1 (windowFull_spec bin w h radius y x) Hfull 0%Z 0%Z
                ltac:(lia) ltac:(lia)) as (_ & _ & E).
    rewrite !Z.add_0_r, pixel_of_Z, !Nat2Z.id in E by lia.
    rewrite E. cbn. left. reflexivity.
Qed.

(** A picture of three by three pixels, all set but the one at the lower
    right corner. *)
Definition notchedBlock : list Z :=
  [255; 255; 255;
   255; 255; 255;
   255; 255;   0]%Z.

Lemma erodeR_keeps_full_windows_witness :
  (byteAt (erodeR notchedBlock 3 3 1) (1 * 3 + 1) = 255%Z <->
   forall dy dx, (- Z.of_nat 1 <= dy <= Z.of_nat 1)%Z ->
                 (- Z.of_nat 1 <= dx <= Z.of_nat 1)%Z ->
                 fullAt notchedBlock 3 3 1 1 dy dx) /\
  (byteAt (erodeR notchedBlock 3 3 1) (1 * 3 + 1) = 255%Z \/
   byteAt (erodeR notchedBlock 3 3 1) (1 * 3 + 1) = 0%Z).
Proof. apply (@erodeR_keeps_full_windows notchedBlock 3 3 1 1 1); lia. Defined.
End MorphologyFacts.

(** ** [isConvex] and [validateQuad] on degenerate and on rectangular input *)

Section QuadChecks.
Local Open Scope R_scope.

Lemma crossAt_collinear (a b c : R) (p q r : R * R) :
  a <> 0 \/ b <> 0 ->
  a * fst p + b * snd p = c -> a * fst q + b * snd q = c ->
  a * fst r + b * snd r = c ->
  crossAt (N := Real) p q r = 0.
Proof.
  intros Hab Hp Hq Hr. unfold crossAt, px, py. cbn.
  destruct p as [p0 p1], q as [q0 q1], r as [r0 r1]. cbn [fst snd] in *.
  destruct Hab as [Ha | Hb].
  - apply (Rmult_eq_reg_l a); [|exact Ha]. rewrite Rmult_0_r.
    replace (a * ((q0 - p0) * (r1 - q1) - (q1 - p1) * (r0 - q0)))
      with ((a * q0 - a * p0) * (r1 - q1) - (q1 - p1) * (a * r0 - a * q0)) by ring.
    replace (a * q0) with (c - b * q1) by lra.
    replace (a * p0) with (c - b * p1) by lra.
    replace (a * r0) with (c - b * r1) by lra. ring.
  - apply (Rmult_eq_reg_l b); [|exact Hb]. rewrite Rmult_0_r.
    replace (b * ((q0 - p0) * (r1 - q1) - (q1 - p1) * (r0 - q0)))
      with ((q0 - p0) * (b * r1 - b * q1) - (b * q1 - b * p1) * (r0 - q0)) by ring.
    replace (b * q1) with (c - a * q0) by lra.
    replace (b * p1) with (c - a * p0) by lra.
    replace (b * r1) with (c - a * r0) by lra. ring.
Qed.

Lemma isConvexStep_flat (pts : list (R * R)) (sign : Z) (i : nat) :
  crossAt (N := Real) (pt pts i) (pt pts ((i + 1) mod length pts))
    (pt pts ((i + 2) mod length pts)) = 0 ->
  isConvexStep (N := Real) pts (Some sign) i = Some sign.
Proof.
  intros Hc. unfold isConvexStep. cbv zeta.
  match goal with
  | |- context [abs ?cr] => replace cr with 0 by (symmetry; exact Hc)
  end.
  unfold ratio. cbn.
  assert (E : RealOps.ltb (Rabs 0) (1 / 1000000) = true).
  { apply ltb_true. rewrite Rabs_R0. lra. }
  rewrite E. reflexivity.
Qed.

(** Points that all lie on one line are never a convex polygon: every cross
    product vanishes, no orientation is ever seen, and [isConvex] answers
    [false]; so [validateQuad] rejects them whatever the picture's size. *)
Theorem isConvex_rejects_collinear (pts : list (R * R)) (a b c : R) :
  a <> 0 \/ b <> 0 ->
  (forall p, In p pts -> a * fst p + b * snd p = c) ->
  isConvex (N := Real) pts = false /\
  forall w h, validateQuad (N := Real) pts w h = false.
Proof.
  intros Hab Hline.
  assert (E : isConvex (N := Real) pts = false).
  { unfold isConvex. cbv zeta.
    match goal with
    | |- (if ?c then _ else _) = _ => destruct c eqn:En; [reflexivity|]
    end.
    apply Nat.ltb_ge in En.
    assert (Hn : length pts <> 0%nat) by (change (3 <= length pts)%nat in En; lia).
    assert (F : forall l, (forall i, In i l -> (i < length pts)%nat) ->
              fold_left (isConvexStep (N := Real) pts) l (Some 0%Z) = Some 0%Z).
    { induction l as [|i l IH]; intros Hl; [reflexivity|]. cbn [fold_left].
      rewrite isConvexStep_flat.
      - apply IH. intros j Hj. apply Hl. right. exact Hj.
      - apply (@crossAt_collinear a b c); [exact Hab| | |];
          apply Hline; unfold pt; apply nth_In;
          [apply Hl; left; reflexivity | apply Nat.mod_upper_bound; exact Hn
          | apply Nat.mod_upper_bound; exact Hn]. }
    rewrite F; [reflexivity|]. intros i Hi. apply in_seq in Hi. exact (proj2 Hi). }
  split; [exact E|]. intros w h. unfold validateQuad. rewrite E. reflexivity.
Qed.

Lemma isConvex_rejects_collinear_witness :
  isConvex (N := Real) [(0, 0); (1, 1); (2, 2); (3, 3)] = false /\
  forall w h, validateQuad (N := Real) [(0, 0); (1, 1); (2, 2); (3, 3)] w h = false.
Proof.
  apply (@isConvex_rejects_collinear [(0, 0); (1, 1); (2, 2); (3, 3)] 1 (-1) 0).
  - left. lra.
  - intros p [<-|[<-|[<-|[<-|[]]]]]; cbn; lra.
Defined.

(** The corners of a rectangle with one corner at [(x, y)] and sides [u]
    and [v], in the order [orderCorners] gives. *)
Definition rectangleAt (x y ux uy vx vy : R) : list (R * R) :=
  [(x, y); (x + ux, y + uy); (x + ux + vx, y + uy + vy); (x + vx, y + vy)].

(** [validateQuad] accepts every rectangle, upright or tilted, that is large
    enough: its area at least a tenth of the picture's, and both sides at
    least a tenth of the picture's shorter side. *)
Theorem validateQuad_accepts_rectangles (x y ux uy vx vy w h : R) :
  0 <= w -> 0 <= h ->
  ux * vx + uy * vy = 0 ->
  1 / 1000000 <= ux * vy - uy * vx ->
  1 / 10 * w * h <= ux * vy - uy * vx ->
  (Rmin w h * (1 / 10)) * (Rmin w h * (1 / 10)) <= ux * ux + uy * uy ->
  (Rmin w h * (1 / 10)) * (Rmin w h * (1 / 10)) <= vx * vx + vy * vy ->
  validateQuad (N := Real) (rectangleAt x y ux uy vx vy) w h = true.
Proof.
  intros Hw Hh Hdot Hcross Harea Hu Hv.
  unfold validateQuad, isConvex, rectangleAt.
  cbn [length Nat.ltb Nat.leb seq fold_left].
  rewrite !isConvexStep_left_turn;
    try (unfold crossAt, pt, px, py; cbn; lra);
    try (left; reflexivity); try (right; reflexivity).
  cbn [Z.eqb negb].
  match goal with
  | |- context [lt (contourArea ?l) ?bound] =>
      assert (Ea : lt (Number := Real) (contourArea (N := Real) l) bound = false)
  end.
  { apply ltb_false. unfold contourArea, ratio, pt, px, py. cbn.
    match goal with
    | |- _ <= Rabs ?e / 2 => replace e with (2 * (ux * vy - uy * vx)) by ring
    end.
    rewrite Rabs_right by lra. lra. }
  rewrite Ea. cbn [forallb].
  unfold vertexOk, pt. cbn [length Nat.add Nat.sub Nat.modulo Nat.divmod fst snd nth].
  assert (Hm : 0 <= Rmin w h * (1 / 10)).
  { unfold Rmin. destruct (Rle_dec w h); lra. }
  assert (Em : mul (Number := Real) (minn w h) (ratio 1 10) = Rmin w h * (1 / 10)).
  { unfold ratio. cbn. reflexivity. }
  rewrite Em.
  rewrite !cornerOk_right_angle; try reflexivity; try exact Hm; cbn [fst snd];
    try lra;
    match goal with
    | |- _ <= ?e => first [ replace e with (ux * ux + uy * uy) by ring; exact Hu
                          | replace e with (vx * vx + vy * vy) by ring; exact Hv ]
    | |- ?e = 0 => first [ replace e with (ux * vx + uy * vy) by ring; exact Hdot
                         | replace e with (- (ux * vx + uy * vy)) by ring; lra ]
    end.
Qed.

Lemma validateQuad_accepts_rectangles_witness :
  validateQuad (N := Real) (rectangleAt (-2) 6 8 (-8) 70 70) 100 100 = true.
Proof.
  apply (@validateQuad_accepts_rectangles (-2) 6 8 (-8) 70 70 100 100);
    try lra; unfold Rmin; destruct (Rle_dec 100 100); lra.
Defined.
End QuadChecks.

(** ** [douglasPeucker]: termination and the points it keeps *)

Section Simplification.
Local Open Scope R_scope.

Lemma fold_invariant {S A : Type} (P : S -> Prop) (f : S -> A -> S) (l : list A) (s : S) :
  P s -> (forall s x, In x l -> P s -> P (f s x)) -> P (fold_left f l s).
Proof.
  revert s. induction l as [|x l IH]; intros s Hs Hstep; cbn [fold_left]; [exact Hs|].
  apply IH.
  - apply Hstep; [left; reflexivity | exact Hs].
  - intros s' y Hy. apply Hstep. right. exact Hy.
Qed.

(** The scan never reports a negative distance, and a positive one only at
    an index strictly between the two ends. *)
Lemma farthest_spec (points : list (R * R)) (si ei : nat) :
  0 <= fst (farthest (N := Real) points si ei) /\
  (0 < fst (farthest (N := Real) points si ei) ->
   (si < snd (farthest (N := Real) points si ei) < ei)%nat).
Proof.
  unfold farthest. cbv zeta.
  apply (fold_invariant
           (fun st : R * nat => 0 <= fst st /\ (0 < fst st -> (si < snd st < ei)%nat))).
  - cbn. split; [lra | intros C; lra].
  - intros st i Hi [H0 Hin].
    match goal with |- context [if ?c then _ else _] => destruct c eqn:E end.
    + apply ltb_true in E. cbn [fst snd]. apply in_seq in Hi. split.
      * cbn [num Real] in *. lra.
      * intros _. lia.
    + split; assumption.
Qed.

(** The iterations still owed by a stack of proper intervals. *)
Definition pending (stack : list (nat * nat)) : nat :=
  fold_right (fun p acc => (2 * (snd p - fst p) - 1 + acc)%nat) 0%nat stack.

Definition proper (p : nat * nat) : Prop := (fst p < snd p)%nat.

Lemma upd_keeps_marks (keep : list Z) (m i : nat) :
  nth i keep 0%Z <> 0%Z -> nth i (upd m 1%Z keep) 0%Z <> 0%Z.
Proof.
  intros H. destruct (Nat.eq_dec m i) as [->|Hne].
  - destruct (Nat.lt_ge_cases i (length keep)) as [Hi|Hi].
    + rewrite nth_upd_eq by exact Hi. discriminate.
    + rewrite upd_out by exact Hi. exact H.
  - rewrite nth_upd_ne by exact Hne. exact H.
Qed.

Lemma simplifyLoop_terminates (points : list (R * R)) (epsilon : R) :
  0 <= epsilon ->
  forall fuel stack keep,
    Forall proper stack -> (pending stack <= fuel)%nat ->
    exists keep',
      simplifyLoop (N := Real) fuel points epsilon stack keep = Some keep' /\
      forall i, nth i keep 0%Z <> 0%Z -> nth i keep' 0%Z <> 0%Z.
Proof.
  intros Heps. induction fuel as [|fuel IH]; intros stack keep Hp Hf.
  - destruct stack as [|[si ei] rest].
    + exists keep. split; [reflexivity | auto].
    + exfalso. inversion Hp as [|? ? Hse _]; subst. unfold proper in Hse.
      cbn [fst snd] in Hse. cbn [pending fold_right fst snd] in Hf. lia.
  - destruct stack as [|[si ei] rest].
    + exists keep. split; [reflexivity | auto].
    + inversion Hp as [|? ? Hse Hrest]; subst. unfold proper in Hse.
      cbn [fst snd] in Hse. cbn [pending fold_right fst snd] in Hf.
      fold (pending rest) in Hf. cbn [simplifyLoop].
      destruct (farthest_spec points si ei) as [H0 Hin].
      match goal with |- context [if ?c then _ else _] => destruct c eqn:E end.
      * apply ltb_true in E.
        assert (Hpos : 0 < fst (farthest (N := Real) points si ei))
          by (cbn [num Real] in *; lra).
        specialize (Hin Hpos).
        destruct (IH ((snd (farthest (N := Real) points si ei), ei)
                        :: (si, snd (farthest (N := Real) points si ei)) :: rest)
                    (upd (snd (farthest (N := Real) points si ei)) 1%Z keep))
          as (keep' & Erun & Hkeep).
        { constructor; [unfold proper; cbn [fst snd]; lia|].
          constructor; [unfold proper; cbn [fst snd]; lia | exact Hrest]. }
        { cbn [pending fold_right fst snd]. fold (pending rest). lia. }
        exists keep'. split; [exact Erun|].
        intros i Hi. apply Hkeep, upd_keeps_marks, Hi.
      * destruct (IH rest keep Hrest ltac:(lia)) as (keep' & Erun & Hkeep).
        exists keep'. split; [exact Erun | exact Hkeep].
Qed.

Lemma simplifyLoop_diverges (points : list (R * R)) (epsilon : R) :
  epsilon < 0 ->
  forall fuel stack keep,
    stack <> [] -> simplifyLoop (N := Real) fuel points epsilon stack keep = None.
Proof.
  intros Heps. induction fuel as [|fuel IH]; intros stack keep Hne;
    destruct stack as [|[si ei] rest]; try congruence; [reflexivity|].
  cbn [simplifyLoop].
  destruct (farthest_spec points si ei) as [H0 _].
  match goal with |- context [if ?c then _ else _] => destruct c eqn:E end.
  - apply IH. discriminate.
  - apply ltb_false in E. cbn [num Real] in *. lra.
Qed.

Lemma keptIndices_sorted (keep : list Z) (n : nat) :
  StronglySorted Nat.lt (keptIndices keep n).
Proof.
  unfold keptIndices. generalize 0%nat as s. 
  induction n as [|n IH]; intros s; cbn [seq filter]; [constructor|].
  destruct (negb _).
  - constructor; [apply IH|]. apply Forall_forall. intros j Hj.
    apply filter_In in Hj. destruct Hj as [Hj _]. apply in_seq in Hj.
    unfold Nat.lt. lia.
  - apply IH.
Qed.

Lemma seq_sorted (s n : nat) : StronglySorted Nat.lt (seq s n).
Proof.
  revert s. induction n as [|n IH]; intros s; cbn [seq]; constructor; [apply IH|].
  apply Forall_forall. intros j Hj. apply in_seq in Hj. unfold Nat.lt. lia.
Qed.

Lemma map_pt_seq (points : list (R * R)) :
  map (pt (N := Real) points) (seq 0 (length points)) = points.
Proof.
  apply (nth_ext _ _ (@origin Real) (@origin Real)).
  - rewrite length_map, length_seq. reflexivity.
  - intros k Hk. rewrite length_map, length_seq in Hk.
    rewrite nth_map_seq by exact Hk. reflexivity.
Qed.

(** [douglasPeucker] with a tolerance that is not negative ends within
    [2 n] iterations on [n] points.  What it returns is the points at a
    strictly increasing list of indices, so a sub-sequence in the original
    order, and the first and the last point are always among them. *)
Theorem douglasPeucker_keeps_endpoints (points : list (R * R)) (epsilon : R) (fuel : nat) :
  0 <= epsilon -> (2 * length points <= fuel)%nat ->
  exists idxs,
    douglasPeucker (N := Real) fuel points epsilon = Some (map (pt (N := Real) points) idxs) /\
    StronglySorted Nat.lt idxs /\
    (forall i, In i idxs -> (i < length points)%nat) /\
    ((0 < length points)%nat -> In 0%nat idxs /\ In (length points - 1)%nat idxs).
Proof.
  intros Heps Hfuel. unfold douglasPeucker. cbv zeta.
  unfold Pt. cbn [num Real].
  set (n := length points) in *.
  destruct (Nat.leb_spec n 2) as [Hn|Hn].
  - exists (seq 0 n). split; [|split; [|split]].
    + unfold n. rewrite map_pt_seq. reflexivity.
    + apply seq_sorted.
    + intros i Hi. apply in_seq in Hi. lia.
    + intros Hpos. split; apply in_seq; lia.
  - set (keep := upd (n - 1) 1%Z (upd 0 1%Z (repeat 0%Z n))).
    assert (Hlen : length (repeat 0%Z n) = n) by apply repeat_length.
    assert (K0 : nth 0 keep 0%Z <> 0%Z).
    { unfold keep. rewrite nth_upd_ne by lia.
      rewrite nth_upd_eq by (rewrite Hlen; lia). discriminate. }
    assert (K1 : nth (n - 1) keep 0%Z <> 0%Z).
    { unfold keep. rewrite nth_upd_eq by (rewrite length_upd, Hlen; lia). discriminate. }
    destruct (@simplifyLoop_terminates points epsilon Heps fuel [(0, n - 1)%nat] keep)
      as (keep' & Erun & Hkeep).
    { constructor; [unfold proper; cbn [fst snd]; lia | constructor]. }
    { cbn [pending fold_right fst snd]. lia. }
    rewrite Erun. exists (keptIndices keep' n). split; [reflexivity|].
    split; [apply keptIndices_sorted|]. split.
    + intros i Hi. unfold keptIndices in Hi. apply filter_In in Hi.
      destruct Hi as [Hi _]. apply in_seq in Hi. lia.
    + intros _. unfold keptIndices. split; apply filter_In; split;
        try (apply in_seq; lia); apply negb_true_iff, Z.eqb_neq, Hkeep; assumption.
Qed.

Definition roof : list (R * R) := [(0, 0); (1, 1); (2, 0)].

Lemma douglasPeucker_keeps_endpoints_witness :
  exists idxs,
    douglasPeucker (N := Real) 6 roof 0 = Some (map (pt (N := Real) roof) idxs) /\
    StronglySorted Nat.lt idxs /\
    (forall i, In i idxs -> (i < length roof)%nat) /\
    ((0 < length roof)%nat -> In 0%nat idxs /\ In (length roof - 1)%nat idxs).
Proof.
  apply (@douglasPeucker_keeps_endpoints roof 0 6); [lra | cbn; lia].
Defined.

(** [douglasPeucker] with a negative tolerance on more than two points
    never returns: the largest distance found is never negative, so every
    iteration pops one interval and pushes two, and the stack never
    empties. *)
Theorem douglasPeucker_negative_tolerance_diverges (points : list (R * R)) (epsilon : R) :
  epsilon < 0 -> (2 < length points)%nat ->
  forall fuel, douglasPeucker (N := Real) fuel points epsilon = None.
Proof.
  intros Heps Hn fuel. unfold douglasPeucker. cbv zeta.
  unfold Pt. cbn [num Real].
  destruct (Nat.leb_spec (length points) 2) as [C|_]; [lia|].
  rewrite simplifyLoop_diverges; [reflexivity | exact Heps | discriminate].
Qed.

Lemma douglasPeucker_negative_tolerance_diverges_witness :
  douglasPeucker (N := Real) 1000 roof (-1) = None.
Proof.
  apply (@douglasPeucker_negative_tolerance_diverges roof (-1)); [lra | cbn; lia].
Defined.
End Simplification.

(** ** [convexHull]: where its points come from, and how its chains turn *)

Section HullFacts.
Context {N : Number}.
Local Open Scope js_scope.

Lemma popTurns_suffix (p : Pt) (st : list Pt) :
  exists pre, st = pre ++ popTurns p st.
Proof.
  induction st as [|b st IH]; [exists []; reflexivity|].
  destruct st as [|a rest]; [exists []; reflexivity|].
  cbn [popTurns]. destruct (cross a b p <=? ofZ 0).
  - destruct IH as [pre E]. exists (b :: pre). cbn [app]. f_equal. exact E.
  - exists []. reflexivity.
Qed.

Lemma popTurns_top (p : Pt) (st : list Pt) (a b : Pt) (rest : list Pt) :
  popTurns p st = b :: a :: rest -> (cross a b p <=? ofZ 0) = false.
Proof.
  induction st as [|b' st IH]; [discriminate|].
  destruct st as [|a' rest']; [discriminate|].
  cbn [popTurns]. destruct (cross a' b' p <=? ofZ 0) eqn:E.
  - exact IH.
  - intros H. injection H as -> -> _. exact E.
Qed.

(** Every three neighbours of an array turn strictly left. *)
Definition leftTurns (l : list Pt) : Prop :=
  forall l1 a b c l2, l = l1 ++ a :: b :: c :: l2 -> (cross a b c <=? ofZ 0) = false.

(** The same for a stack held with its top first. *)
Definition stackTurns (st : list Pt) : Prop :=
  forall l1 a b c l2, st = l1 ++ c :: b :: a :: l2 -> (cross a b c <=? ofZ 0) = false.

Lemma stackTurns_suffix (pre st : list Pt) : stackTurns (pre ++ st) -> stackTurns st.
Proof.
  intros H l1 a b c l2 E. apply (H (pre ++ l1) a b c l2).
  rewrite E, app_assoc. reflexivity.
Qed.

Lemma stackTurns_push (p : Pt) (st : list Pt) :
  stackTurns st -> stackTurns (p :: popTurns p st).
Proof.
  intros H l1 a b c l2 E. destruct l1 as [|q l1]; cbn [app] in E.
  - injection E as -> E. apply (popTurns_top _ _ E).
  - injection E as _ E. destruct (popTurns_suffix p st) as [pre Epre].
    rewrite Epre in H. apply stackTurns_suffix in H. apply (H l1 a b c l2 E).
Qed.

Lemma chain_turns (pts : list Pt) : stackTurns (chain pts).
Proof.
  unfold chain.
  apply (fold_invariant stackTurns).
  - intros l1 a b c l2 E. destruct l1; discriminate.
  - intros st p _ H. apply stackTurns_push, H.
Qed.

Lemma stackTurns_rev_tl (st : list Pt) : stackTurns st -> leftTurns (rev (List.tl st)).
Proof.
  intros H l1 a b c l2 E.
  assert (Hs : stackTurns (List.tl st)).
  { destruct st as [|q st]; [exact H|]. apply (@stackTurns_suffix [q]). exact H. }
  apply (Hs (rev l2) a b c (rev l1)).
  rewrite <- (rev_involutive (List.tl st)), E, rev_app_distr. cbn [rev].
  rewrite <- !app_assoc. reflexivity.
Qed.

Lemma chain_members (pts : list Pt) (p : Pt) : In p (chain pts) -> In p pts.
Proof.
  unfold chain.
  assert (G : forall l st, In p (fold_left (fun st q => q :: popTurns q st) l st) ->
                           In p st \/ In p l).
  { induction l as [|q l IH]; intros st Hin; cbn [fold_left] in Hin; [left; exact Hin|].
    destruct (IH _ Hin) as [[->|H]|H].
    - right. left. reflexivity.
    - left. destruct (popTurns_suffix q st) as [pre E]. rewrite E.
      apply in_or_app. right. exact H.
    - right. right. exact H. }
  intros Hin. destruct (G pts [] Hin) as [[]|H]. exact H.
Qed.

Lemma tl_members (l : list Pt) (p : Pt) : In p (List.tl l) -> In p l.
Proof. destruct l; [intros []|]. intros H. right. exact H. Qed.

Lemma dropRepeats_members (prev : Pt) (l : list Pt) (p : Pt) :
  In p (dropRepeats prev l) -> In p l.
Proof.
  revert prev. induction l as [|q l IH]; intros prev; cbn [dropRepeats]; [intros []|].
  destruct (negb _ || negb _).
  - intros [->|H]; [left; reflexivity | right; apply (IH q), H].
  - intros H. right. apply (IH q), H.
Qed.

Lemma unique_members (l : list Pt) (p : Pt) : In p (unique l) -> In p l.
Proof.
  destruct l as [|q l]; [intros []|]. cbn [unique].
  intros [->|H]; [left; reflexivity | right; apply (dropRepeats_members _ _ _ H)].
Qed.

Lemma short_leftTurns (l : list Pt) : (length l < 3)%nat -> leftTurns l.
Proof.
  intros Hl l1 a b c l2 E. rewrite E, length_app in Hl. cbn [length] in Hl. lia.
Qed.

(** [convexHull] returns input points only, and its result is two chains,
    one after the other, along each of which every three neighbours turn
    strictly left: [cross] is not [<= 0] there.  This holds in any
    arithmetic. *)
Theorem convexHull_chains_turn_left (points : list Pt) :
  (forall p, In p (convexHull points) -> In p points) /\
  exists lower upper,
    convexHull points = lower ++ upper /\ leftTurns lower /\ leftTurns upper.
Proof.
  unfold convexHull.
  destruct (Nat.ltb_spec (length points) 3) as [Hn|Hn].
  - split; [auto|]. exists points, []. rewrite app_nil_r.
    split; [reflexivity|]. split; apply short_leftTurns; [exact Hn | cbn; lia].
  - cbv zeta.
    assert (Hu : forall p, In p (unique (jsSort byXThenY points)) -> In p points).
    { intros p Hp. apply unique_members in Hp.
      apply (Permutation_in _ (jsSort_perm byXThenY points) Hp). }
    destruct (Nat.ltb_spec (length (unique (jsSort byXThenY points))) 3) as [Hm|Hm].
    + split; [exact Hu|]. exists (unique (jsSort byXThenY points)), [].
      rewrite app_nil_r. split; [reflexivity|].
      split; apply short_leftTurns; [exact Hm | cbn; lia].
    + split.
      * intros p Hp. apply Hu. apply in_app_or in Hp. unfold lowerHull, upperHull in Hp.
        destruct Hp as [Hp|Hp]; apply in_rev, tl_members, chain_members in Hp;
          [exact Hp | apply in_rev, Hp].
      * exists (lowerHull (unique (jsSort byXThenY points))),
               (upperHull (unique (jsSort byXThenY points))).
        split; [reflexivity|].
        split; apply stackTurns_rev_tl, chain_turns.
Qed.
End HullFacts.

(** ** [otsuThreshold] on a picture of one gray level *)

Section OtsuFlat.
Local Open Scope R_scope.

Lemma upd_upd {A : Type} (i : nat) (u v : A) (l : list A) :
  upd i v (upd i u l) = upd i v l.
Proof.
  revert i. induction l as [|x l IH]; intros [|i]; cbn [upd]; try reflexivity.
  rewrite IH. reflexivity.
Qed.

Lemma upd_same {A : Type} (i : nat) (l : list A) (d : A) :
  upd i (nth i l d) l = l.
Proof.
  revert i. induction l as [|x l IH]; intros [|i]; cbn [upd nth]; try reflexivity.
  rewrite IH. reflexivity.
Qed.

(** The bin of a gray level: [Math.min(255, Math.max(0, Math.round(v)))]. *)
Definition binOf (v : R) : nat :=
  toNat (N := Real) (minn (Number := Real) 255 (maxn (Number := Real) 0 (round (Number := Real) v))).

Lemma binOf_bound (v : R) : (binOf v < 256)%nat.
Proof.
  unfold binOf, toNat. cbn. unfold RealOps.rround.
  set (k := Int_part (v + 1 / 2)).
  assert (E : exists m, (0 <= m <= 255)%Z /\ Rmin 255 (Rmax 0 (IZR k)) = IZR m).
  { unfold Rmax, Rmin.
    destruct (Rle_dec 0 (IZR k)) as [H0|H0].
    - apply le_IZR in H0. destruct (Rle_dec 255 (IZR k)) as [H1|H1].
      + exists 255%Z. split; [lia | reflexivity].
      + exists k. split; [|reflexivity]. split; [exact H0|].
        apply Rnot_le_lt, lt_IZR in H1. lia.
    - destruct (Rle_dec 255 0) as [C|_]; [lra|]. exists 0%Z. split; [lia | reflexivity]. }
  destruct E as (m & Hm & ->). rewrite Int_part_IZR. lia.
Qed.

Lemma histogram_flat (gray : list R) (w h : nat) (v : R) :
  (forall i, (i < w * h)%nat -> entry (N := Real) gray i = v) ->
  histogram (N := Real) gray w h = upd (binOf v) (INR (w * h)) (repeat 0 256).
Proof.
  intros Hflat. unfold histogram.
  assert (G : forall k, (k <= w * h)%nat ->
            fold_left
              (fun hist i =>
                 upd (toNat (N := Real)
                        (minn (Number := Real) 255
                           (maxn (Number := Real) 0
                              (round (Number := Real) (entry (N := Real) gray i)))))
                   (entry (N := Real) hist
                      (toNat (N := Real)
                         (minn (Number := Real) 255
                            (maxn (Number := Real) 0
                               (round (Number := Real) (entry (N := Real) gray i))))) + 1)
                   hist)
              (seq 0 k) (repeat 0 256)
            = upd (binOf v) (INR k) (repeat 0 256)).
  { induction k as [|k IH]; intros Hk.
    - cbn [seq fold_left INR].
      pose proof (upd_same (binOf v) (repeat 0 256) 0) as U.
      replace (nth (binOf v) (repeat 0 256) 0) with 0 in U
        by (symmetry; apply (nth_zeros (N := Real))).
      symmetry. exact U.
    - rewrite seq_S, fold_left_app, IH by lia. cbn [fold_left Nat.add].
      rewrite (Hflat k) by lia. fold (binOf v).
      unfold entry at 1. cbn [ofZ Real].
      rewrite nth_upd_eq by (rewrite repeat_length; apply binOf_bound).
      rewrite upd_upd, S_INR. reflexivity. }
  apply (G (w * h)%nat). lia.
Qed.

(** The invariant of the threshold loop on a flat histogram. *)
Definition undecided (st : OtsuState (N := Real)) : Prop :=
  o_bestThresh st = 128%nat /\ (o_stopped st = true \/ o_wB st = 0).

Lemma otsuStep_undecided (hist : list R) (total sumAll : R) (st : OtsuState (N := Real))
    (t : nat) :
  entry (N := Real) hist t = 0 \/ entry (N := Real) hist t = total ->
  undecided st -> undecided (otsuStep (N := Real) hist total sumAll st t).
Proof.
  intros Ht [Hb Hs]. unfold otsuStep.
  destruct (o_stopped st) eqn:Es; [split; [exact Hb | left; exact Es]|].
  destruct Hs as [Hs|Hs]; [discriminate|]. cbv zeta. rewrite Hs.
  destruct Ht as [-> | ->].
  - replace (eqn (Number := Real) (add (Number := Real) 0 0) (ofZ (Number := Real) 0))
      with true.
    + split; [exact Hb|]. right. cbn. lra.
    + cbn. unfold RealOps.eqb. destruct (Req_dec_T (0 + 0) 0) as [_|C]; [reflexivity|lra].
  - destruct (eqn (Number := Real) (add (Number := Real) 0 total) (ofZ (Number := Real) 0)) eqn:E0.
    + split; [exact Hb|]. right. cbn in *. unfold RealOps.eqb in E0.
      destruct (Req_dec_T (0 + total) 0) as [E|_]; [exact E | discriminate].
    + replace (eqn (Number := Real)
                 (sub (Number := Real) total (add (Number := Real) 0 total))
                 (ofZ (Number := Real) 0)) with true.
      * split; [exact Hb | left; reflexivity].
      * cbn. unfold RealOps.eqb.
        destruct (Req_dec_T (total - (0 + total)) 0) as [_|C]; [reflexivity|lra].
Qed.

(** A picture of one gray level has no threshold to find: whatever the
    level and the size, the empty picture included, [otsuThreshold] returns
    its initial value 128. *)
Theorem otsuThreshold_flat_image (gray : list R) (w h : nat) (v : R) :
  (forall i, (i < w * h)%nat -> entry (N := Real) gray i = v) ->
  otsuThreshold (N := Real) gray w h = 128%nat.
Proof.
  intros Hflat. unfold otsuThreshold. cbv zeta.
  rewrite (histogram_flat gray w h Hflat). rewrite ofNat_INR.
  match goal with
  | |- o_bestThresh (fold_left ?f ?l ?s) = _ =>
      assert (I : undecided (fold_left f l s))
  end.
  { apply (fold_invariant undecided).
    - split; [reflexivity | right; reflexivity].
    - intros st t _ Hst. apply otsuStep_undecided; [|exact Hst].
      unfold entry. cbn [ofZ Real].
      destruct (Nat.eq_dec (binOf v) t) as [<-|Hne].
      + right. apply nth_upd_eq. rewrite repeat_length. apply binOf_bound.
      + left. rewrite nth_upd_ne by exact Hne. apply (nth_zeros (N := Real)). }
  exact (proj1 I).
Qed.

Lemma otsuThreshold_flat_image_witness :
  otsuThreshold (N := Real) [7; 7] 2 1 = 128%nat.
Proof.
  apply (@otsuThreshold_flat_image [7; 7] 2 1 7).
  intros [|[|i]] Hi; [reflexivity | reflexivity | cbn in Hi; lia].
Defined.
End OtsuFlat.

(** ** The shape of what [processImage] resolves with *)

Section ResultShape.
Local Open Scope R_scope.

(** A buffer that has the length and the alpha bytes of [data]. *)
Definition sameAlpha (data out : list R) : Prop :=
  length out = length data /\
  forall i, entry (N := Real) out (i * 4 + 3) = entry (N := Real) data (i * 4 + 3).

Lemma store8_sameAlpha (data out : list R) (k c : nat) (v : R) :
  (c < 3)%nat -> sameAlpha data out ->
  sameAlpha data (store8 (N := Real) out ((k * 4 + c)%nat, v)).
Proof.
  intros Hc [Hl Ha]. unfold store8. cbn [fst snd]. split.
  - rewrite length_upd. exact Hl.
  - intros i. unfold entry. rewrite nth_upd_ne by lia. apply Ha.
Qed.

Lemma setRGB_sameAlpha (data out : list R) (i : nat) (v : R) :
  sameAlpha data out -> sameAlpha data (setRGB (N := Real) out i v).
Proof.
  intros H. unfold setRGB.
  rewrite <- (Nat.add_0_r (i * 4)) at 3.
  repeat apply store8_sameAlpha; try lia. exact H.
Qed.

Lemma enhanceChannel_sameAlpha (data out : list R) (n c : nat) :
  (c < 3)%nat -> sameAlpha data out ->
  sameAlpha data (enhanceChannel (N := Real) n out c).
Proof.
  intros Hc H. unfold enhanceChannel. cbv zeta.
  apply (fold_invariant (sameAlpha data)); [exact H|].
  intros out' i _ H'. apply store8_sameAlpha; assumption.
Qed.

(** Each of the three enhancements keeps the buffer's length and every
    alpha byte. *)
Lemma enhance_sameAlpha (mode : EnhanceMode) (data : list R) (w h : nat) :
  sameAlpha data (enhance (N := Real) mode data w h).
Proof.
  assert (H0 : sameAlpha data data) by (split; [reflexivity | intros i; reflexivity]).
  destruct mode; cbn [enhance].
  - unfold enhanceBW. cbv zeta. apply (fold_invariant (sameAlpha data)); [exact H0|].
    intros out i _ H. apply setRGB_sameAlpha, H.
  - unfold enhanceGray. cbv zeta. apply (fold_invariant (sameAlpha data)); [exact H0|].
    intros out i _ H. apply setRGB_sameAlpha, H.
  - unfold enhanceColor. apply (fold_invariant (sameAlpha data)); [exact H0|].
    intros out c Hc H. apply in_seq in Hc. apply enhanceChannel_sameAlpha; [lia | exact H].
Qed.

Lemma warp_length (data : list R) (sw sh : nat) (H_inv : list R) (dw dh : nat) :
  length (warp (N := Real) data sw sh H_inv dw dh) = (dw * dh * 4)%nat.
Proof.
  unfold warp.
  apply (fold_invariant (fun out : list R => length out = (dw * dh * 4)%nat)).
  - apply repeat_length.
  - intros out wr _ H. unfold store8. rewrite length_upd. exact H.
Qed.

Lemma warp_alpha (data : list R) (sw sh : nat) (H_inv : list R) (dw dh i : nat) :
  (i < dw * dh)%nat ->
  entry (N := Real) (warp (N := Real) data sw sh H_inv dw dh) (i * 4 + 3) = 255.
Proof.
  intros Hi.
  assert (Hdw : dw <> 0%nat) by (intros ->; lia).
  assert (Hx : (i mod dw < dw)%nat) by (apply Nat.mod_upper_bound; exact Hdw).
  assert (Hy : (i / dw < dh)%nat) by (apply Nat.Div0.div_lt_upper_bound; lia).
  assert (Ei : i = (i / dw * dw + i mod dw)%nat).
  { rewrite (Nat.div_mod_eq i dw) at 1. lia. }
  rewrite Ei at 1. unfold warp.
  rewrite fold_store8_entry
    by (rewrite repeat_length; apply pixel_index_bound; [exact Hx | exact Hy | lia]).
  rewrite (@warpWrites_storesTo Real data sw sh H_inv dw dh (i mod dw) (i / dw) 3
             Hx Hy ltac:(lia)).
  rewrite (@pixelWrites_storesTo Real data sw sh H_inv dw (i mod dw) (i / dw)
             (i mod dw) (i / dw) 3 Hx Hx ltac:(lia)).
  rewrite !Nat.eqb_refl. cbn [andb Nat.eqb rev map app]. apply clamp8_255_real.
Qed.

Lemma Rmax_IZR (a b : Z) : Rmax (IZR a) (IZR b) = IZR (Z.max a b).
Proof.
  unfold Rmax. destruct (Rle_dec (IZR a) (IZR b)) as [L|L].
  - apply le_IZR in L. rewrite Z.max_r by exact L. reflexivity.
  - apply Rnot_le_lt, lt_IZR in L. rewrite Z.max_l by lia. reflexivity.
Qed.

(** A side of the destination: a whole number of at least [minSide]. *)
Lemma side_whole (x : R) (minSide : Z) :
  (0 <= minSide)%Z ->
  let side := maxn (Number := Real) (round (Number := Real) x) (IZR minSide) in
  (Z.to_nat minSide <= toNat (N := Real) side)%nat /\
  side = INR (toNat (N := Real) side).
Proof.
  intros Hm side. unfold side, toNat. cbn [maxn round toZ Real].
  unfold RealOps.rround. rewrite Rmax_IZR, Int_part_IZR. split.
  - apply Z2Nat.inj_le; lia.
  - rewrite INR_IZR_INZ, Z2Nat.id by lia. reflexivity.
Qed.

Lemma rectifyPlan_sides (srcPts : list (R * R)) (minSide : Z) (plan : Plan (N := Real)) :
  (0 <= minSide)%Z ->
  rectifyPlan (N := Real) srcPts minSide = Resolved plan ->
  ((Z.to_nat minSide <= toNat (N := Real) (planWidth plan))%nat /\
   planWidth plan = INR (toNat (N := Real) (planWidth plan))) /\
  ((Z.to_nat minSide <= toNat (N := Real) (planHeight plan))%nat /\
   planHeight plan = INR (toNat (N := Real) (planHeight plan))).
Proof.
  intros Hm. unfold rectifyPlan. cbv zeta.
  destruct (computeHomography _ _) as [H|]; [|discriminate].
  destruct (invert3x3 H) as [H_inv|]; [|discriminate].
  intros E. injection E as <-. cbn [planWidth planHeight].
  split; apply (side_whole _ Hm).
Qed.

(** Whatever picture, corners and mode: when [processImage] resolves, the
    width and the height it reports are whole numbers of at least 100, the
    pixel buffer holds four bytes for each of the width times height pixels,
    and every pixel is opaque (alpha 255). *)
Theorem processImage_result_shape (payload : Payload (N := Real)) (corners : Quad (N := Real))
    (mode : EnhanceMode) (r : Rectified (N := Real)) :
  processImage payload corners mode = Resolved r ->
  (100 <= toNat (N := Real) (width r))%nat /\
  (100 <= toNat (N := Real) (height r))%nat /\
  width r = INR (toNat (N := Real) (width r)) /\
  height r = INR (toNat (N := Real) (height r)) /\
  length (pixels r)
  = (toNat (N := Real) (width r) * toNat (N := Real) (height r) * 4)%nat /\
  forall i, (i < toNat (N := Real) (width r) * toNat (N := Real) (height r))%nat ->
            entry (N := Real) (pixels r) (i * 4 + 3) = 255.
Proof.
  unfold processImage. destruct payload as [m|m|bmp]; try discriminate.
  cbv zeta.
  destruct (rectifyPlan _ 100) as [plan|m|m] eqn:Eplan; try discriminate.
  intros E. injection E as <-. cbn [width height pixels].
  destruct (@rectifyPlan_sides _ 100%Z plan ltac:(lia) Eplan) as [[Hw Ew] [Hh Eh]].
  change (Z.to_nat 100) with 100%nat in Hw, Hh.
  destruct (enhance_sameAlpha mode
              (warp (N := Real) (drawn bmp (bmpWidth bmp) (bmpHeight bmp))
                 (bmpWidth bmp) (bmpHeight bmp) (planInverse plan)
                 (toNat (N := Real) (planWidth plan)) (toNat (N := Real) (planHeight plan)))
              (toNat (N := Real) (planWidth plan)) (toNat (N := Real) (planHeight plan)))
    as [Hl Ha].
  repeat split; try assumption.
  - etransitivity; [exact Hl | apply warp_length].
  - intros i Hi. etransitivity; [exact (Ha i) | apply warp_alpha; exact Hi].
Qed.

(** A run: a picture of one pixel, rectified over its whole frame. *)
Definition onePixelPhoto : Bitmap (N := Real) :=
  {| bmpWidth := 1; bmpHeight := 1; drawn := fun _ _ => [10; 20; 30; 255] |}.

Definition wholeFrame : Quad (N := Real) :=
  {| tl := {| p_x := 0; p_y := 0 |}; tr := {| p_x := 1; p_y := 0 |};
     br := {| p_x := 1; p_y := 1 |}; bl := {| p_x := 0; p_y := 1 |} |}.

Definition hundredSquare : list (Z * Z) := [(0, 0); (100, 0); (100, 100); (0, 100)]%Z.

Definition enlarge : list (@num (Rational crude)) :=
  map QArith_base.inject_Z [100; 0; 0; 0; 100; 0; 0; 0; 1]%Z.

Definition reduce : list (@num (Rational crude)) :=
  [QArith_base.Qmake 1 100; QArith_base.Qmake 0 1; QArith_base.Qmake 0 1;
   QArith_base.Qmake 0 1; QArith_base.Qmake 1 100; QArith_base.Qmake 0 1;
   QArith_base.Qmake 0 1; QArith_base.Qmake 0 1; QArith_base.Qmake 1 1].

Lemma enlarge_rational :
  computeHomography (N := Rational crude) (zPoints unitSquare) (zPoints hundredSquare)
  = Some enlarge.
Proof. vm_compute. reflexivity. Qed.

Lemma reduce_rational : invert3x3 (N := Rational crude) enlarge = Some reduce.
Proof. vm_compute. reflexivity. Qed.

Lemma unit_side (a b : R) :
  a * a + b * b = 1 ->
  maxn (Number := Real)
    (round (Number := Real)
       (maxn (Number := Real) (R_sqrt.sqrt (a * a + b * b)) (R_sqrt.sqrt (a * a + b * b))))
    100 = 100.
Proof.
  intros ->. rewrite sqrt_1. cbn [maxn round Real]. unfold RealOps.rround.
  rewrite (Rmax_left 1 1) by lra. rewrite (@Int_part_eq 1) by lra.
  apply Rmax_right. lra.
Qed.

Lemma onePixel_plan :
  rectifyPlan (N := Real) (cornerPixels wholeFrame (ofNat (N := Real) 1) (ofNat (N := Real) 1)) 100
  = Resolved {| planWidth := 100; planHeight := 100; planInverse := realRow reduce |}.
Proof.
  assert (Esrc : cornerPixels wholeFrame (ofNat (N := Real) 1) (ofNat (N := Real) 1)
                 = zPoints (N := Real) unitSquare).
  { unfold cornerPixels, zPoints, wholeFrame, unitSquare, ofNat.
    cbn [map tl tr br bl p_x p_y fst snd ofZ mul Real Z.of_nat Pos.of_succ_nat].
    repeat (f_equal; try lra). }
  rewrite Esrc. unfold rectifyPlan. cbv zeta.
  assert (Ew : maxn (Number := Real)
                 (round (Number := Real)
                    (maxn (Number := Real)
                       (dist (N := Real) (pt (zPoints (N := Real) unitSquare) 0)
                          (pt (zPoints (N := Real) unitSquare) 1))
                       (dist (N := Real) (pt (zPoints (N := Real) unitSquare) 3)
                          (pt (zPoints (N := Real) unitSquare) 2))))
                 (ofZ (Number := Real) 100) = 100).
  { etransitivity; [|apply (@unit_side (-1) 0); lra].
    unfold dist, pt, px, py. cbn. repeat f_equal; lra. }
  assert (Eh : maxn (Number := Real)
                 (round (Number := Real)
                    (maxn (Number := Real)
                       (dist (N := Real) (pt (zPoints (N := Real) unitSquare) 0)
                          (pt (zPoints (N := Real) unitSquare) 3))
                       (dist (N := Real) (pt (zPoints (N := Real) unitSquare) 1)
                          (pt (zPoints (N := Real) unitSquare) 2))))
                 (ofZ (Number := Real) 100) = 100).
  { etransitivity; [|apply (@unit_side 0 (-1)); lra].
    unfold dist, pt, px, py. cbn. repeat f_equal; lra. }
  rewrite Ew, Eh.
  change [(ofZ (Number := Real) 0, ofZ (Number := Real) 0); (100, ofZ (Number := Real) 0);
          (100, 100); (ofZ (Number := Real) 0, 100)]
    with (zPoints (N := Real) hundredSquare).
  rewrite (computeHomography_rational crude), enlarge_rational. cbn [option_map].
  rewrite invert3x3_rational, reduce_rational. reflexivity.
Qed.

Lemma processImage_result_shape_witness :
  exists r,
    processImage (Picture onePixelPhoto) wholeFrame ModeBW = Resolved r /\
    (100 <= toNat (N := Real) (width r))%nat /\
    (100 <= toNat (N := Real) (height r))%nat /\
    width r = INR (toNat (N := Real) (width r)) /\
    height r = INR (toNat (N := Real) (height r)) /\
    length (pixels r)
    = (toNat (N := Real) (width r) * toNat (N := Real) (height r) * 4)%nat /\
    forall i, (i < toNat (N := Real) (width r) * toNat (N := Real) (height r))%nat ->
              entry (N := Real) (pixels r) (i * 4 + 3) = 255.
Proof.
  assert (E : exists r, processImage (Picture onePixelPhoto) wholeFrame ModeBW = Resolved r).
  { unfold processImage. cbv zeta.
    change (bmpWidth onePixelPhoto) with 1%nat.
    change (bmpHeight onePixelPhoto) with 1%nat.
    rewrite onePixel_plan. eexists. reflexivity. }
  destruct E as [r E]. exists r. split; [exact E|].
  apply (@processImage_result_shape (Picture onePixelPhoto) wholeFrame ModeBW r E).
Defined.
End ResultShape.
